(** * lexLens: the clause pipeline of the backend services

    A shallow embedding of [clause.service.js], [embedding.service.js],
    [extraction.service.js] and the job processor of [queue.service.js],
    followed by the properties of the pipeline.

    Conventions.
    - A JavaScript string is the list of its UTF-16 code units ([jsstring]).
    - A JavaScript number that holds a measurement (a confidence, a vector
      component) is an IEEE 754 binary64 value: Rocq's primitive [float].
      Counters and array indices are [nat].
    - Object keys and other fixed atoms of the code are Rocq [string]s.
    - Code of third-party packages and of the platform (the sentence
      tokenizer of [natural], the document of [compromise], the embedding
      model, the file readers, [path.extname],
      [Number.prototype.toString], [parseFloat]) is a [Variable] of the
      section that embeds its caller; the job processor takes them together,
      as one record of collaborators. A document of [compromise] is given
      with the methods it has: calling one it does not have throws.
    - The database is the three tables the processor writes, keyed by row
      identifier, with the columns it writes; a statement has the effect its
      text describes. *)

From Stdlib Require Import NArith ZArith List String Ascii Lia Sorted Bool.
From Stdlib Require Import Floats.PrimFloat Uint63.
From stdpp Require Import base list gmap.
Import ListNotations.

Set Default Proof Using "Type".

(* ================================================================== *)
(** * Part I: definitions *)
(* ================================================================== *)

(** ** JavaScript strings *)

Module JS.

Definition char := N.
Definition jsstring := list char.

(** An ASCII literal of the source as a [jsstring]. *)
Definition lit (s : string) : jsstring :=
  map N_of_ascii (list_ascii_of_string s).

Definition LF : char := 10%N.
Definition CR : char := 13%N.
Definition DOT : char := 46%N.
Definition COMMA : char := 44%N.
Definition COLON : char := 58%N.
Definition SPACE : char := 32%N.
Definition LBRACKET : char := 91%N.
Definition RBRACKET : char := 93%N.

Definition between (lo hi c : N) : bool := ((lo <=? c) && (c <=? hi))%N.

(** ECMAScript LineTerminator: LF, CR, LS, PS. *)
Definition isLineTerminator (c : char) : bool :=
  ((c =? 10) || (c =? 13) || (c =? 8232) || (c =? 8233))%N.

(** The class [\s] (and what [trim] strips): WhiteSpace and LineTerminator. *)
Definition isSpace (c : char) : bool :=
  (between 9 13 c || (c =? 32) || (c =? 160) || (c =? 5760)
   || between 8192 8202 c || (c =? 8232) || (c =? 8233) || (c =? 8239)
   || (c =? 8287) || (c =? 12288) || (c =? 65279))%N.

(** The classes [\d], [[A-Z]] and [[a-z]]. *)
Definition isDigit (c : char) : bool := between 48 57 c.
Definition isUpper (c : char) : bool := between 65 90 c.
Definition isLower (c : char) : bool := between 97 122 c.

(** Canonicalize of a regular expression with the [i] flag and without the
    [u] flag, on the characters it is compared with here: a code unit below
    128 is upper-cased, and one from 128 on never canonicalizes to a code
    unit below 128, so it differs from every (ASCII) character of the
    patterns of this program. *)
Definition canonicalize (c : char) : char :=
  if isLower c then (c - 32)%N else c.

(** The longest prefix whose characters satisfy [p], and the rest. *)
Fixpoint span (p : char -> bool) (s : jsstring) : jsstring * jsstring :=
  match s with
  | c :: s' =>
      if p c then let '(a, b) := span p s' in (c :: a, b) else ([], s)
  | [] => ([], [])
  end.

Definition trimStart (s : jsstring) : jsstring := snd (span isSpace s).
Definition trimEnd (s : jsstring) : jsstring := rev (trimStart (rev s)).

(** [String.prototype.trim]. *)
Definition trim (s : jsstring) : jsstring := trimEnd (trimStart s).

(** [String.prototype.substring(0, n)] for [0 <= n]. *)
Definition substring0 (n : nat) (s : jsstring) : jsstring := take n s.

(** [Array.prototype.join(sep)] on an array of strings. *)
Fixpoint join (sep : jsstring) (parts : list jsstring) : jsstring :=
  match parts with
  | [] => []
  | [p] => p
  | p :: rest => p ++ sep ++ join sep rest
  end.

(** [String.prototype.includes]. *)
Fixpoint startsWith (p s : jsstring) : bool :=
  match p, s with
  | [], _ => true
  | a :: p', b :: s' => (a =? b)%N && startsWith p' s'
  | _ :: _, [] => false
  end.

Fixpoint includes (s p : jsstring) : bool :=
  startsWith p s || match s with [] => false | _ :: s' => includes s' p end.

Definition eqb (a b : jsstring) : bool := bool_decide (a = b).

(** A regular expression of [split] as a matcher anchored at the head of
    its argument: the captures and the number of characters of the match
    (at least one for every expression of this program). *)
Definition matcher := jsstring -> option (list jsstring * nat).

(** [String.prototype.split(regexp)]: the text is scanned from the left; at
    a position where the expression matches, the fragment read so far and
    the captures are emitted and the scan resumes behind the match ([skip]
    counts the characters of the match still to pass); the last fragment
    closes the array. [cur] is the current fragment, reversed. *)
Fixpoint split_scan (m : matcher) (skip : nat) (cur : jsstring)
         (s : jsstring) : list jsstring :=
  match s with
  | [] => [rev cur]
  | c :: s' =>
      match skip with
      | S k => split_scan m k cur s'
      | O =>
          match m s with
          | Some (caps, S n) => rev cur :: caps ++ split_scan m n [] s'
          | _ => split_scan m 0 (c :: cur) s'
          end
      end
  end.

Definition split (m : matcher) (s : jsstring) : list jsstring :=
  split_scan m 0 [] s.

(** [/\s+/]: a maximal run of white space. *)
Definition re_spaces : matcher := fun s =>
  match fst (span isSpace s) with
  | [] => None
  | w => Some ([], length w)
  end.

(** [String.prototype.split(",")]. *)
Definition re_comma : matcher := fun s =>
  match s with
  | c :: _ => if (c =? COMMA)%N then Some ([], 1) else None
  | [] => None
  end.

(** [for (let i = start; i < stop; i += step)]: the values of [i]. *)
Fixpoint loop_indices (fuel i stop step : nat) : list nat :=
  match fuel with
  | O => []
  | S f => if i <? stop then i :: loop_indices f (i + step) stop step else []
  end.

Definition for_range (start stop step : nat) : list nat :=
  loop_indices stop start stop step.

End JS.

Export JS.

(** ** The indicator patterns: the regular expressions used with [test] *)

Module Regex.

(** The syntax the indicator tables use: literal characters, sequence,
    alternation inside a group, a group, an optional group and [.*].
    Every pattern carries the [i] flag. *)
Inductive regex :=
| Chars (s : string)
| Cat (r1 r2 : regex)
| Or (r1 r2 : regex)
| Group (r : regex)
| Maybe (r : regex)
| AnyStar.

Coercion Chars : string >-> regex.

(** [RegExp.prototype.source]. *)
Fixpoint source (r : regex) : string :=
  match r with
  | Chars s => s
  | Cat a b => source a ++ source b
  | Or a b => source a ++ "|" ++ source b
  | Group a => "(" ++ source a ++ ")"
  | Maybe a => source a ++ "?"
  | AnyStar => ".*"
  end%string.

(** The characters of the literal [l], compared up to case, at the head of
    [s]: the rest of [s] behind them. *)
Fixpoint eat (l : jsstring) (s : jsstring) : option jsstring :=
  match l, s with
  | [], _ => Some s
  | a :: l', b :: s' =>
      if (canonicalize a =? canonicalize b)%N then eat l' s' else None
  | _ :: _, [] => None
  end.

(** [.*] followed by the continuation [k]: [.] matches any character but a
    line terminator. *)
Fixpoint any_star (s : jsstring) (k : jsstring -> bool) : bool :=
  k s || match s with
         | c :: s' => if isLineTerminator c then false else any_star s' k
         | [] => false
         end.

(** The backtracking matcher, in continuation-passing style: [r] matches a
    prefix of [s] and [k] accepts the rest. *)
Fixpoint matches (r : regex) (s : jsstring) (k : jsstring -> bool) : bool :=
  match r with
  | Chars l => match eat (lit l) s with Some rest => k rest | None => false end
  | Cat a b => matches a s (fun rest => matches b rest k)
  | Or a b => matches a s k || matches b s k
  | Group a => matches a s k
  | Maybe a => matches a s k || k s
  | AnyStar => any_star s k
  end.

(** [RegExp.prototype.test] of an expression without the [g] or [y] flag:
    is there a match starting anywhere in the text. *)
Fixpoint test (r : regex) (s : jsstring) : bool :=
  matches r s (fun _ => true)
  || match s with [] => false | _ :: s' => test r s' end.

End Regex.

Export Regex.

(** ** Errors *)

(** [new Error(message)], thrown and caught. *)
Record Error := mkError { error_message : jsstring }.

Definition result (A : Type) : Type := Error + A.

(** The error of a call of something that is not a function. The code
    reads the message of an error only, never its class. *)
Definition TypeError (message : jsstring) : Error := mkError message.

(** ** clause.service.js *)

Module ClauseService.

Local Open Scope string_scope.
Local Open Scope list_scope.

(** [CLAUSE_PATTERNS], in the order of declaration (the order in which
    [Object.entries] enumerates it). *)
Definition CLAUSE_PATTERNS : list (string * list regex) :=
  [ ("confidentiality",
      [ Cat "confidential" (Maybe (Group "ity"));
        Chars "non-disclosure";
        Chars "proprietary information";
        Chars "trade secret";
        Chars "sensitive information" ]);
    ("termination",
      [ Cat "terminat" (Group (Or "e" "ion"));
        Cat "cancel" (Maybe (Group "lation"));
        Cat "end of " (Cat (Maybe (Group "the ")) "agreement");
        Chars "notice period";
        Cat "expir" (Group (Or "e" "ation")) ]);
    ("liability",
      [ Cat "liabilit" (Group (Or "y" "ies"));
        Cat "indemnif" (Group (Or "y" "ication"));
        Chars "damages";
        Chars "limitation of liability";
        Chars "hold harmless" ]);
    ("payment",
      [ Chars "payment";
        Cat "fee" (Maybe (Group "s"));
        Chars "compensation";
        Chars "invoice";
        Chars "price";
        Chars "cost" ]);
    ("intellectual_property",
      [ Chars "intellectual property";
        Chars "copyright";
        Chars "patent";
        Chars "trademark";
        Chars "ownership";
        Chars "license" ]);
    ("governing_law",
      [ Chars "governing law";
        Chars "jurisdiction";
        Chars "applicable law";
        Chars "venue";
        Chars "dispute resolution" ]);
    ("warranty",
      [ Cat "warrant" (Group (Or "y" "ies"));
        Chars "representation";
        Chars "guarantee";
        Chars "assurance" ]);
    ("force_majeure",
      [ Chars "force majeure";
        Chars "act of god";
        Chars "unforeseeable";
        Cat "beyond" (Cat AnyStar "control") ]);
    ("assignment",
      [ Chars "assignment";
        Chars "transfer";
        Chars "successor";
        Cat "assign" (Cat AnyStar "rights") ]);
    ("amendment",
      [ Chars "amendment";
        Chars "modification";
        Cat "change" (Cat AnyStar "agreement");
        Chars "written consent" ]);
    ("entire_agreement",
      [ Chars "entire agreement";
        Chars "complete agreement";
        Chars "supersede";
        Chars "prior agreement" ]);
    ("severability",
      [ Cat "severabilit" (Maybe (Group "y"));
        Cat "invalid" (Cat AnyStar "provision");
        Chars "unenforceable" ]) ].

(** The clause types the classifier can return. *)
Definition CLAUSE_TYPES : list string :=
  map fst CLAUSE_PATTERNS ++ ["general"].

Record RawClause := {
  section_number : option jsstring;
  text : jsstring;
  position : nat
}.

(** The document [compromise(text)], as far as [classifyClause] uses it:
    what each of the four methods gives, followed by [.out('array')], and
    [None] for a method the document does not have. *)
Record Doc := {
  doc_dates : option (list jsstring);
  doc_money : option (list jsstring);
  doc_organizations : option (list jsstring);
  doc_people : option (list jsstring)
}.

(** [doc.name().out('array')]: a method the document does not have is
    [undefined], and calling it throws. *)
Definition invoke (name : string) (method : option (list jsstring))
  : result (list jsstring) :=
  match method with
  | Some array => inr array
  | None => inl (TypeError (lit ("doc." ++ name ++ " is not a function")))
  end.

(** [Array.prototype.map] with a callback that may throw: the first error
    thrown ends the call. *)
Fixpoint Array_map {A B : Type} (f : A -> result B) (xs : list A)
  : result (list B) :=
  match xs with
  | [] => inr []
  | x :: xs' =>
      match f x with
      | inl e => inl e
      | inr y =>
          match Array_map f xs' with
          | inl e => inl e
          | inr ys => inr (y :: ys)
          end
      end
  end.

(** The entities [classifyClause] returns. *)
Record Entities := {
  dates : list jsstring;
  money : list jsstring;
  organizations : list jsstring;
  people : list jsstring
}.

Record Classification := {
  clause_type : string;
  confidence : float;
  entities : Entities;
  word_count : nat
}.

Inductive RiskLevel := low | medium | high.

#[export] Instance RiskLevel_eq_dec : EqDecision RiskLevel.
Proof. solve_decision. Defined.

Record Flag := {
  severity : RiskLevel;
  pattern : string;
  message : string
}.

Record RiskAnalysis := {
  risk_level : RiskLevel;
  flags : list Flag;
  requires_review : bool
}.

(** The objects [extractAndClassifyClauses] returns. *)
Record ProcessedClause := {
  c_position : nat;
  c_section_number : option jsstring;
  c_title : option jsstring;
  c_text : jsstring;
  c_clause_type : string;
  c_confidence : float;
  c_entities : Entities;
  c_word_count : nat;
  c_risk_level : RiskLevel;
  c_risk_flags : list Flag;
  c_requires_review : bool
}.

(** [/\n\s*(\d+\.(?:\d+\.?)?)\s+/] anchored at the head of [s]. White space
    and digits are disjoint classes and the expression ends in [\s+], so
    every quantifier takes its longest run and no shorter run can succeed:
    a line feed, white space, digits, a dot, then either nothing or digits
    with an optional dot, then at least one white space character. The
    capture is the section number. *)
Definition re_numbered : matcher := fun s =>
  match s with
  | c :: s1 =>
      if (c =? LF)%N then
        let '(w1, s2) := span isSpace s1 in
        let '(d1, s3) := span isDigit s2 in
        match d1, s3 with
        | _ :: _, c3 :: s4 =>
            if (c3 =? DOT)%N then
              let '(d2, s5) := span isDigit s4 in
              let '(cap, s6) :=
                match d2, s5 with
                | [], _ => (d1 ++ [DOT], s4)
                | _ :: _, c5 :: s5' =>
                    if (c5 =? DOT)%N then (d1 ++ [DOT] ++ d2 ++ [DOT], s5')
                    else (d1 ++ [DOT] ++ d2, s5)
                | _ :: _, [] => (d1 ++ [DOT] ++ d2, s5)
                end in
              match fst (span isSpace s6) with
              | [] => None
              | w2 => Some ([cap], 1 + length w1 + length cap + length w2)%nat
              end
            else None
        | _, _ => None
        end
      else None
  | [] => None
  end.

(** [/\n\s*\n/] anchored at the head of [s]: a line feed, then the white
    space run behind it up to its last line feed (the longest choice of
    [\s*] that leaves a line feed to close the match). *)
Fixpoint last_LF (w : jsstring) (i : nat) (found : option nat) : option nat :=
  match w with
  | [] => found
  | c :: w' => last_LF w' (S i) (if (c =? LF)%N then Some i else found)
  end.

Definition re_blank_line : matcher := fun s =>
  match s with
  | c :: s1 =>
      if (c =? LF)%N then
        match last_LF (fst (span isSpace s1)) 0 None with
        | Some i => Some ([], 2 + i)%nat
        | None => None
        end
      else None
  | [] => None
  end.

Definition truthy (s : jsstring) : bool :=
  match s with [] => false | _ => true end.

(** A count as a JavaScript number. *)
Definition number (n : nat) : float := of_uint63 (of_Z (Z.of_nat n)).

(** [Math.min] of two numbers. *)
Definition Math_min (a b : float) : float :=
  if is_nan a || is_nan b then nan
  else if (a <? b)%float then a
  else if (b <? a)%float then b
  else if get_sign a then a else b.

(** The inner loop of [classifyClause]: the patterns of one type that match. *)
Definition score_of (patterns : list regex) (text : jsstring) : nat :=
  fold_left (fun score pattern =>
               if test pattern text then (score + 1)%nat else score)
            patterns 0%nat.

Definition scores_of (text : jsstring) : list (string * nat) :=
  map (fun '(type, patterns) => (type, score_of patterns text))
      CLAUSE_PATTERNS.

(** The loop that finds the highest scoring type: [(maxScore, clauseType)]. *)
Definition highest (scores : list (string * nat)) : nat * string :=
  fold_left (fun '(maxScore, clauseType) '(type, score) =>
               if (maxScore <? score)%nat then (score, type)
               else (maxScore, clauseType))
            scores (0%nat, "general").

(** [Object.values(scores).reduce((a, b) => a + b, 0)]. *)
Definition totalMatches (scores : list (string * nat)) : nat :=
  fold_left (fun a b => (a + b)%nat) (map snd scores) 0%nat.

(** The risk indicators of [analyzeClauseRisk]. *)
Record RiskIndicators := {
  ri_high : list regex;
  ri_medium : list regex;
  ri_low : list regex
}.

Definition riskIndicators : RiskIndicators :=
  {| ri_high :=
       [ Chars "unlimited liability";
         Chars "sole discretion";
         Chars "without notice";
         Chars "automatic renewal";
         Chars "perpetual";
         Chars "irrevocable";
         Cat "waive" (Cat AnyStar "rights");
         Cat "indemnify" (Cat AnyStar "all") ];
     ri_medium :=
       [ Chars "may terminate";
         Chars "at any time";
         Chars "without cause";
         Chars "exclusive";
         Chars "binding";
         Chars "non-refundable" ];
     ri_low :=
       [ Chars "reasonable";
         Chars "mutual";
         Chars "written consent";
         Chars "good faith";
         Chars "commercially reasonable" ] |}.

Definition high_flag (p : regex) : Flag :=
  {| severity := high;
     pattern := source p;
     message := "This clause contains potentially unfavorable terms" |}.

Definition medium_flag (p : regex) : Flag :=
  {| severity := medium;
     pattern := source p;
     message := "This clause may require careful review" |}.

(** One of the two loops over a tier of indicators: a matching pattern sets
    the level to [lvl] and pushes its flag. *)
Definition check_tier (lvl : RiskLevel) (flag : regex -> Flag)
           (text : jsstring) (patterns : list regex)
           (st : RiskLevel * list Flag) : RiskLevel * list Flag :=
  fold_left (fun '(riskLevel, flags) p =>
               if test p text then (lvl, flags ++ [flag p])
               else (riskLevel, flags))
            patterns st.

Definition analyzeClauseRisk (text : jsstring) (clauseType : string)
  : RiskAnalysis :=
  let st0 := (low, []) in
  let st1 := check_tier high high_flag text (ri_high riskIndicators) st0 in
  let st2 :=
    if bool_decide (fst st1 <> high)
    then check_tier medium medium_flag text (ri_medium riskIndicators) st1
    else st1 in
  {| risk_level := fst st2;
     flags := snd st2;
     requires_review := bool_decide (fst st2 <> low) |}.

(** The classes [[A-Z\s]] and [[a-zA-Z\s]] of the title patterns. *)
Definition isUpperOrSpace (c : char) : bool := isUpper c || isSpace c.
Definition isLetterOrSpace (c : char) : bool :=
  isLower c || isUpper c || isSpace c.

Definition char_at (s : jsstring) (n : nat) (c : char) : bool :=
  match s !! n with Some d => (d =? c)%N | None => false end.

(** [/^([A-Z][A-Z\s]{3,50})\n/]: the capture. The quantifier is greedy:
    the longest count from 50 down to 3 behind which a line feed stands. *)
Definition capsMatch (text : jsstring) : option jsstring :=
  match text with
  | c :: rest =>
      if isUpper c then
        let m := Nat.min 50 (length (fst (span isUpperOrSpace rest))) in
        match List.find (fun n => char_at rest n LF) (rev (seq 3 (m - 2))) with
        | Some n => Some (c :: take n rest)
        | None => None
        end
      else None
  | [] => None
  end.

(** [/^\d+\.?\s+([A-Z][A-Z\s]{3,50})/]: the capture. *)
Definition numberedMatch (text : jsstring) : option jsstring :=
  let '(d, s1) := span isDigit text in
  match d with
  | [] => None
  | _ :: _ =>
      let s2 := match s1 with
                | c :: s' => if (c =? DOT)%N then s' else s1
                | [] => s1
                end in
      let '(w, s3) := span isSpace s2 in
      match w, s3 with
      | _ :: _, c :: rest =>
          if isUpper c then
            let m := Nat.min 50 (length (fst (span isUpperOrSpace rest))) in
            if (3 <=? m)%nat then Some (c :: take m rest) else None
          else None
      | _, _ => None
      end
  end.

(** [/^([A-Z][a-zA-Z\s]{3,50}):/]: the capture. A colon is outside the
    class, so the run of the class has to end at the colon. *)
Definition boldMatch (text : jsstring) : option jsstring :=
  match text with
  | c :: rest =>
      if isUpper c then
        let run := fst (span isLetterOrSpace rest) in
        let m := length run in
        if (3 <=? m)%nat && (m <=? 50)%nat && char_at rest m COLON
        then Some (c :: run) else None
      else None
  | [] => None
  end.

Section Engines.

(** [new natural.SentenceTokenizer().tokenize]. *)
Variable tokenize : jsstring -> list jsstring.

(** [compromise(text)]. *)
Variable compromise : jsstring -> Doc.

(** The body of the loop over the numbered sections, at index [i]. *)
Definition numbered_step (numberedSections : list jsstring) (i : nat)
  : list RawClause :=
  match numberedSections !! i, numberedSections !! (i + 1)%nat with
  | Some sectionNumber, Some sectionText =>
      if truthy sectionText && (20 <? length (trim sectionText))%nat
      then [ {| section_number := Some sectionNumber;
                text := trim sectionText;
                position := i / 2 |} ]
      else []
  | _, _ => []
  end.

(** The callback of [paragraphs.forEach]. *)
Definition paragraph_step (index : nat) (para : jsstring) : list RawClause :=
  let trimmed := trim para in
  if (50 <? length trimmed)%nat
  then [ {| section_number := None; text := trimmed; position := index |} ]
  else [].

Definition sentencesPerClause : nat := 3.

(** The body of the loop over the sentences, at index [i]. *)
Definition sentence_step (sentences : list jsstring) (i : nat)
  : list RawClause :=
  let clauseText :=
    join [SPACE] (take sentencesPerClause (drop i sentences)) in
  if (50 <? length (trim clauseText))%nat
  then [ {| section_number := None;
            text := trim clauseText;
            position := i / sentencesPerClause |} ]
  else [].

Definition segmentClauses (text : jsstring) : list RawClause :=
  let numberedSections := split re_numbered text in
  let clauses :=
    if (3 <? length numberedSections)%nat then
      flat_map (numbered_step numberedSections)
               (for_range 1 (length numberedSections) 2)
    else
      let paragraphs := split re_blank_line text in
      concat (imap paragraph_step paragraphs) in
  if (length clauses =? 0)%nat then
    let sentences := tokenize text in
    flat_map (sentence_step sentences)
             (for_range 0 (length sentences) sentencesPerClause)
  else clauses.

(** The entities of a document, its methods called in the order of the
    object literal. *)
Definition entities_of (doc : Doc) : result Entities :=
  match invoke "dates" doc.(doc_dates) with
  | inl e => inl e
  | inr dates =>
      match invoke "money" doc.(doc_money) with
      | inl e => inl e
      | inr money =>
          match invoke "organizations" doc.(doc_organizations) with
          | inl e => inl e
          | inr organizations =>
              match invoke "people" doc.(doc_people) with
              | inl e => inl e
              | inr people =>
                  inr {| dates := dates;
                         money := money;
                         organizations := organizations;
                         people := people |}
              end
          end
      end
  end.

Definition classifyClause (text : jsstring) : result Classification :=
  let doc := compromise text in
  let scores := scores_of text in
  let '(maxScore, clauseType) := highest scores in
  let total := totalMatches scores in
  let confidence :=
    if (0 <? total)%nat then (number maxScore / number total)%float
    else 0.5%float in
  match entities_of doc with
  | inl e => inl e
  | inr entities =>
      inr {| clause_type := clauseType;
             confidence := Math_min confidence 1.0%float;
             entities := entities;
             word_count := length (split re_spaces text) |}
  end.

Definition extractClauseTitle (text : jsstring) : option jsstring :=
  match capsMatch text with
  | Some t => Some (trim t)
  | None =>
      match numberedMatch text with
      | Some t => Some (trim t)
      | None =>
          match boldMatch text with
          | Some t => Some (trim t)
          | None =>
              match tokenize text with
              | s0 :: _ =>
                  if (length s0 <? 100)%nat
                  then Some (substring0 50 s0 ++ lit "...")
                  else None
              | [] => None
              end
          end
      end
  end.

(** The callback of [rawClauses.map]. *)
Definition process_raw (clause : RawClause) : result ProcessedClause :=
  match classifyClause clause.(ClauseService.text) with
  | inl e => inl e
  | inr classification =>
      let title := extractClauseTitle clause.(ClauseService.text) in
      let risk := analyzeClauseRisk clause.(ClauseService.text)
                    classification.(clause_type) in
      inr {| c_position := clause.(position);
             c_section_number := clause.(section_number);
             c_title := title;
             c_text := clause.(ClauseService.text);
             c_clause_type := classification.(clause_type);
             c_confidence := classification.(confidence);
             c_entities := classification.(entities);
             c_word_count := classification.(word_count);
             c_risk_level := risk.(risk_level);
             c_risk_flags := risk.(flags);
             c_requires_review := risk.(requires_review) |}
  end.

(** The [catch] block logs the error and throws it again. *)
Definition extractAndClassifyClauses (text : jsstring)
  : result (list ProcessedClause) :=
  Array_map process_raw (segmentClauses text).

End Engines.

End ClauseService.

(** ** embedding.service.js *)

Module EmbeddingService.

Local Open Scope float_scope.

(** [array[i]] of an array of numbers inside an arithmetic expression:
    [undefined] behaves as [NaN] there. *)
Definition at_index (v : list float) (i : nat) : float :=
  match v !! i with Some x => x | None => nan end.

Definition cosineSimilarity (embedding1 embedding2 : list float)
  : result float :=
  if negb (length embedding1 =? length embedding2)%nat then
    inl (mkError (lit "Embeddings must have the same dimension"))
  else
    let '(dotProduct, norm1, norm2) :=
      fold_left
        (fun '(dotProduct, norm1, norm2) i =>
           (dotProduct + at_index embedding1 i * at_index embedding2 i,
            norm1 + at_index embedding1 i * at_index embedding1 i,
            norm2 + at_index embedding2 i * at_index embedding2 i))
        (for_range 0 (length embedding1) 1)
        (0, 0, 0) in
    let norm1 := PrimFloat.sqrt norm1 in
    let norm2 := PrimFloat.sqrt norm2 in
    if (norm1 =? 0) || (norm2 =? 0) then inr 0
    else inr (dotProduct / (norm1 * norm2)).

(** [string.replace(/^\[|\]$/g, '')]: an opening bracket at the start and a
    closing bracket at the end are removed (the closing one is looked for
    behind the opening one). *)
Definition strip_brackets (s : jsstring) : jsstring :=
  let s1 := match s with
            | c :: s' => if (c =? LBRACKET)%N then s' else s
            | [] => s
            end in
  match rev s1 with
  | c :: r => if (c =? RBRACKET)%N then rev r else s1
  | [] => s1
  end.

(** The dimension of the vectors of the model ([generateEmbedding] is
    documented to return an embedding vector of 384 dimensions). *)
Definition EMBEDDING_DIMENSION : nat := 384.

Section Numbers.

(** [Number.prototype.toString] (what [join] applies to a number) and the
    global [parseFloat]. *)
Variable Number_toString : float -> jsstring.
Variable parseFloat : jsstring -> float.

Definition formatEmbeddingForDB (embedding : list float) : jsstring :=
  [LBRACKET] ++ join [COMMA] (map Number_toString embedding) ++ [RBRACKET].

Definition parseEmbeddingFromDB (vectorString : jsstring) : list float :=
  map parseFloat (split re_comma (strip_brackets vectorString)).

End Numbers.

Section Model.

(** The feature-extraction pipeline, initialisation included: the data of
    its output, or the error it throws. *)
Variable model : jsstring -> result (list float).

(** The [catch] block logs and throws the error again. *)
Definition generateEmbedding (text : jsstring) : result (list float) :=
  let truncatedText := substring0 2000 text in
  model truncatedText.

End Model.

End EmbeddingService.

(** ** extraction.service.js *)

Module ExtractionService.

(** What the readers of the two file formats return: the text and the
    page count of their metadata. *)
Record RawExtraction := {
  raw_text : jsstring;
  raw_pages : nat
}.

Record Metadata (Details : Type) := {
  pages : nat;
  details : Details;
  characterCount : nat;
  wordCount : nat
}.
Arguments pages {Details}.
Arguments details {Details}.
Arguments characterCount {Details}.
Arguments wordCount {Details}.

Record Extraction (Details : Type) := {
  text : jsstring;
  metadata : Metadata Details
}.
Arguments text {Details}.
Arguments metadata {Details}.

Section Extract.

(** [path.extname] and [String.prototype.toLowerCase]. *)
Variable extname : jsstring -> jsstring.
Variable toLowerCase : jsstring -> jsstring.

(** [extractFromPDF] and [extractFromDOCX]: [pdf-parse] and [mammoth] on
    the file at the path. *)
Variable extractFromPDF : jsstring -> result RawExtraction.
Variable extractFromDOCX : jsstring -> result RawExtraction.

(** [extractContractMetadata]: the parties, dates and document type it
    scans the text for. *)
Variable Details : Type.
Variable extractContractMetadata : jsstring -> Details.

Definition extractText (filePath fileType : jsstring)
  : result (Extraction Details) :=
  let ext := toLowerCase (extname filePath) in
  let read :=
    if JS.eqb ext (lit ".pdf") || JS.eqb fileType (lit "application/pdf")
    then extractFromPDF filePath
    else if JS.eqb ext (lit ".docx") || JS.eqb ext (lit ".doc")
            || includes fileType (lit "wordprocessingml")
    then extractFromDOCX filePath
    else inl (mkError (lit "Unsupported file type: " ++ ext)) in
  match read with
  | inl e => inl e
  | inr res =>
      let contractMetadata := extractContractMetadata res.(raw_text) in
      inr {| text := res.(raw_text);
             metadata :=
               {| pages := res.(raw_pages);
                  details := contractMetadata;
                  characterCount := length res.(raw_text);
                  wordCount := length (split re_spaces res.(raw_text)) |} |}
  end.

End Extract.

End ExtractionService.

(** ** queue.service.js: the processor of the [extract-text] jobs *)

Module QueueService.

Import ClauseService.

Inductive ContractStatus := uploaded | processing | analyzed | failed.
Inductive JobStatus := job_pending | job_processing | job_completed | job_failed.

Section Processor.

(** The metadata [extractContractMetadata] adds, kept abstract. *)
Variable Details : Type.

Abbreviation Extraction := (ExtractionService.Extraction Details).
Abbreviation Metadata := (ExtractionService.Metadata Details).

(** The payload of a job. *)
Record JobData := {
  contractId : N;
  filePath : jsstring;
  fileType : jsstring;
  userId : N;
  jobId : N
}.

(** The [result] column of a completed job. *)
Record JobResult := {
  success : bool;
  textLength : nat;
  pages : nat;
  wordCount : nat;
  clauseCount : nat
}.

(** The rows of the three tables, as far as the processor writes them
    (the time stamps are left out). *)
Record ContractRow := {
  ct_extracted_text : option jsstring;
  ct_metadata : option Metadata;
  ct_status : ContractStatus
}.

Record JobRow := {
  jb_status : JobStatus;
  jb_error : option jsstring;
  jb_result : option JobResult
}.

(** A row of [clauses]: the contract, the eleven columns taken from the
    clause and the formatted embedding. *)
Record ClauseRow := {
  cl_contract_id : N;
  cl_clause : ProcessedClause;
  cl_embedding : jsstring
}.

Record Database := {
  contracts : gmap N ContractRow;
  processing_jobs : gmap N JobRow;
  clauses : list ClauseRow
}.

(** What the processor returns to the queue. *)
Record JobReturn := {
  ret_success : bool;
  ret_contractId : N;
  ret_textLength : nat;
  ret_metadata : Metadata;
  ret_clauseCount : nat
}.

(** *** Asynchronous code over the database: state and exceptions *)

Definition Task (A : Type) : Type := Database -> result A * Database.

Definition ret {A} (a : A) : Task A := fun db => (inr a, db).
Definition throw {A} (e : Error) : Task A := fun db => (inl e, db).

Definition bind {A B} (t : Task A) (k : A -> Task B) : Task B :=
  fun db =>
    match t db with
    | (inr a, db') => k a db'
    | (inl e, db') => (inl e, db')
    end.

(** [try { body } catch (error) { handler }]. *)
Definition try_catch {A} (body : Task A) (handler : Error -> Task A)
  : Task A :=
  fun db =>
    match body db with
    | (inl e, db') => handler e db'
    | r => r
    end.

(** [await] of a call outside the database. *)
Definition await {A} (r : result A) : Task A :=
  match r with inl e => throw e | inr a => ret a end.

Notation "x <- t ;; k" := (bind t (fun x => k))
  (at level 100, t at next level, right associativity).
Notation "t ;;; k" := (bind t (fun _ => k))
  (at level 100, right associativity).

(** [for (const x of xs) { body }]. *)
Fixpoint for_of {A} (xs : list A) (body : A -> Task unit) : Task unit :=
  match xs with
  | [] => ret tt
  | x :: xs' => body x ;;; for_of xs' body
  end.

(** *** The collaborators *)

(** The code outside the four services: the sentence tokenizer of
    [natural], the documents of [compromise], the embedding model,
    [Number.prototype.toString], [path.extname],
    [String.prototype.toLowerCase], the readers of the two file formats,
    the metadata scan, and the database refusing an
    [INSERT INTO clauses] (the error [query] throws for the row, if any;
    the [UPDATE] statements are taken to succeed). *)
Record Collaborators := {
  tokenize : jsstring -> list jsstring;
  compromise : jsstring -> Doc;
  model : jsstring -> result (list float);
  Number_toString : float -> jsstring;
  extname : jsstring -> jsstring;
  toLowerCase : jsstring -> jsstring;
  extractFromPDF : jsstring -> result ExtractionService.RawExtraction;
  extractFromDOCX : jsstring -> result ExtractionService.RawExtraction;
  extractContractMetadata : jsstring -> Details;
  insert_error : ClauseRow -> option Error
}.

Variable env : Collaborators.

Definition extractText : jsstring -> jsstring -> result Extraction :=
  ExtractionService.extractText env.(extname) env.(toLowerCase)
    env.(extractFromPDF) env.(extractFromDOCX)
    Details env.(extractContractMetadata).

Definition generateEmbedding : jsstring -> result (list float) :=
  EmbeddingService.generateEmbedding env.(model).

Definition formatEmbeddingForDB : list float -> jsstring :=
  EmbeddingService.formatEmbeddingForDB env.(Number_toString).

Definition extractAndClassifyClauses
  : jsstring -> result (list ProcessedClause) :=
  ClauseService.extractAndClassifyClauses
    env.(tokenize) env.(compromise).

(** *** The statements *)

(** [UPDATE processing_jobs SET ... WHERE id = $1]. *)
Definition update_job (id : N) (f : JobRow -> JobRow) : Task unit :=
  fun db =>
    (inr tt,
     {| contracts := db.(contracts);
        processing_jobs := alter f id db.(processing_jobs);
        clauses := db.(clauses) |}).

(** [UPDATE contracts SET ... WHERE id = $1]. *)
Definition update_contract (id : N) (f : ContractRow -> ContractRow)
  : Task unit :=
  fun db =>
    (inr tt,
     {| contracts := alter f id db.(contracts);
        processing_jobs := db.(processing_jobs);
        clauses := db.(clauses) |}).

(** [INSERT INTO clauses ... VALUES ...]. *)
Definition insert_clause (row : ClauseRow) : Task unit :=
  fun db =>
    match env.(insert_error) row with
    | Some e => (inl e, db)
    | None =>
        (inr tt,
         {| contracts := db.(contracts);
            processing_jobs := db.(processing_jobs);
            clauses := db.(clauses) ++ [row] |})
    end.

Definition set_job_processing (j : JobRow) : JobRow :=
  {| jb_status := job_processing;
     jb_error := j.(jb_error);
     jb_result := j.(jb_result) |}.

Definition set_job_completed (r : JobResult) (j : JobRow) : JobRow :=
  {| jb_status := job_completed;
     jb_error := j.(jb_error);
     jb_result := Some r |}.

Definition set_job_failed (msg : jsstring) (j : JobRow) : JobRow :=
  {| jb_status := job_failed;
     jb_error := Some msg;
     jb_result := j.(jb_result) |}.

Definition set_extracted (e : Extraction) (c : ContractRow) : ContractRow :=
  {| ct_extracted_text := Some e.(ExtractionService.text);
     ct_metadata := Some e.(ExtractionService.metadata);
     ct_status := processing |}.

Definition set_status (s : ContractStatus) (c : ContractRow) : ContractRow :=
  {| ct_extracted_text := c.(ct_extracted_text);
     ct_metadata := c.(ct_metadata);
     ct_status := s |}.

(** *** The processor *)

(** The calls of the logger, the time stamps of the statements and the call
    of [getFileSize] (which catches its own errors and whose result is not
    used) are left out. *)

(** The body of the loop over the clauses. *)
Definition process_clause (job : JobData) (clause : ProcessedClause)
  : Task unit :=
  try_catch
    (embedding <- await (generateEmbedding clause.(c_text)) ;;
     let embeddingStr := formatEmbeddingForDB embedding in
     insert_clause {| cl_contract_id := job.(contractId);
                      cl_clause := clause;
                      cl_embedding := embeddingStr |})
    (fun error => ret tt).

Definition process (job : JobData) : Task JobReturn :=
  try_catch
    (update_job job.(jobId) set_job_processing ;;;
     extraction <- await (extractText job.(filePath) job.(fileType)) ;;
     update_contract job.(contractId) (set_extracted extraction) ;;;
     clauses <- await (extractAndClassifyClauses
                         extraction.(ExtractionService.text)) ;;
     for_of clauses (process_clause job) ;;;
     update_contract job.(contractId) (set_status analyzed) ;;;
     update_job job.(jobId)
       (set_job_completed
          {| success := true;
             textLength := length extraction.(ExtractionService.text);
             pages := extraction.(ExtractionService.metadata)
                        .(ExtractionService.pages);
             wordCount := extraction.(ExtractionService.metadata)
                            .(ExtractionService.wordCount);
             clauseCount := length clauses |}) ;;;
     ret {| ret_success := true;
            ret_contractId := job.(contractId);
            ret_textLength := length extraction.(ExtractionService.text);
            ret_metadata := extraction.(ExtractionService.metadata);
            ret_clauseCount := length clauses |})
    (fun error =>
       update_contract job.(contractId) (set_status failed) ;;;
       update_job job.(jobId) (set_job_failed error.(error_message)) ;;;
       throw error).

End Processor.

End QueueService.


(** ** extraction.service.js: the readers and the metadata scan *)

Module Readers.

Import ExtractionService.

Local Open Scope string_scope.
Local Open Scope list_scope.

(** [Math.ceil(a / b)] of two counts ([b] positive): for the counts a string
    can hold the quotient is far from rounding across an integer, so the
    result is the ceiling of the exact quotient. *)
Definition Math_ceil_div (a b : nat) : nat := (a + (b - 1)) / b.

Section Files.

(** [pdfParse] on the buffer [fs.readFile] returns for the path: the text
    and the number of pages, or the error either of them throws. *)
Variable pdfParse : jsstring -> result RawExtraction.

(** [mammoth.extractRawText({ path })]: its [value], or its error. *)
Variable extractRawText : jsstring -> result jsstring.

(** [fs.stat(filePath)]: the [size] of the file, or the error. *)
Variable stat_size : jsstring -> result nat.

Definition extractFromPDF (filePath : jsstring) : result RawExtraction :=
  match pdfParse filePath with
  | inr data => inr {| raw_text := data.(raw_text);
                       raw_pages := data.(raw_pages) |}
  | inl error =>
      inl (mkError (lit "Failed to extract text from PDF: "
                    ++ error.(error_message)))
  end.

Definition extractFromDOCX (filePath : jsstring) : result RawExtraction :=
  match extractRawText filePath with
  | inr value =>
      let wordCount := length (split re_spaces value) in
      let estimatedPages := Math_ceil_div wordCount 500 in
      inr {| raw_text := value; raw_pages := estimatedPages |}
  | inl error =>
      inl (mkError (lit "Failed to extract text from DOCX: "
                    ++ error.(error_message)))
  end.

Definition getFileSize (filePath : jsstring) : nat :=
  match stat_size filePath with
  | inr size => size
  | inl _ => 0
  end.

End Files.

(** What [extractContractMetadata] returns. *)
Record ContractMetadata := {
  parties : list jsstring;
  dates : list jsstring;
  documentType : string
}.

(** [typeKeywords], in the order of declaration. *)
Definition typeKeywords : list (string * regex) :=
  [ ("NDA", Or "non-disclosure" "confidentiality agreement");
    ("Service Agreement", Or "service agreement" "services agreement");
    ("Employment Contract", Or "employment agreement" "employment contract");
    ("Lease Agreement", Or "lease agreement" "rental agreement");
    ("Purchase Agreement", Or "purchase agreement" "sale agreement");
    ("License Agreement", Or "license agreement" "licensing agreement");
    ("Partnership Agreement", Chars "partnership agreement");
    ("Consulting Agreement", Chars "consulting agreement") ].

(** [[...new Set(xs)]]: the first occurrence of every string, in order. *)
Fixpoint unique_from (seen xs : list jsstring) : list jsstring :=
  match xs with
  | [] => []
  | x :: xs' =>
      if bool_decide (x ∈ seen) then unique_from seen xs'
      else x :: unique_from (x :: seen) xs'
  end.

Definition Set_values (xs : list jsstring) : list jsstring :=
  unique_from [] xs.

Section Metadata.

(** The first capture of every match of [text.matchAll(pattern)], for the
    three party patterns in their order, and for the date pattern. *)
Variable party_captures : jsstring -> list jsstring.
Variable date_captures : jsstring -> list jsstring.

Definition extractContractMetadata (text : jsstring) : ContractMetadata :=
  let parties :=
    flat_map (fun capture =>
                if ClauseService.truthy capture && (length capture <? 100)%nat
                then [trim capture] else [])
             (party_captures text) in
  let parties := take 5 (Set_values parties) in
  let dates := map trim (date_captures text) in
  let dates := take 3 (Set_values dates) in
  let documentType :=
    match List.find (fun '(_, pattern) => test pattern text) typeKeywords with
    | Some (type, _) => type
    | None => "Unknown"
    end in
  {| parties := parties; dates := dates; documentType := documentType |}.

End Metadata.

End Readers.

(** ** embedding.service.js: batches and the search *)

Module EmbeddingSearch.

Import EmbeddingService.

Local Open Scope list_scope.

(** The values of an array of outcomes, or the first error in the order of
    the array: what [Array.prototype.map] with a callback that can throw
    amounts to, and here also [Promise.all] (which of several rejections
    [Promise.all] reports depends on the timing of the calls; the first in
    the order of the array stands for it). *)
Fixpoint all_or_first_error {A} (rs : list (result A)) : result (list A) :=
  match rs with
  | [] => inr []
  | inl e :: _ => inl e
  | inr a :: rs' =>
      match all_or_first_error rs' with
      | inl e => inl e
      | inr values => inr (a :: values)
      end
  end.

(** One entry of the array [findSimilar] sorts. [sim_text] is
    [candidateTexts[index]]: [None] stands for [undefined]. *)
Record Similarity := {
  sim_text : option jsstring;
  similarity : float;
  index : nat
}.

(** The comparison function of the sort: [b.similarity - a.similarity]. *)
Definition descending (a b : Similarity) : float :=
  (b.(similarity) - a.(similarity))%float.

(** [Array.prototype.sort(comparefn)] as a stable insertion sort: an element
    moves in front of an earlier one only when the comparison of the two is
    negative (a comparison that is [NaN] counts as zero). For a consistent
    comparison function every stable sort returns this array. *)
Fixpoint insert_sorted {A} (compare : A -> A -> float) (x : A) (sorted : list A)
  : list A :=
  match sorted with
  | [] => [x]
  | y :: rest =>
      if (compare x y <? 0)%float then x :: y :: rest
      else y :: insert_sorted compare x rest
  end.

Definition sort {A} (compare : A -> A -> float) (xs : list A) : list A :=
  fold_left (fun sorted x => insert_sorted compare x sorted) xs [].

Section Model.

Variable model : jsstring -> result (list float).

Definition batchSize : nat := 10.

(** One turn of the loop over the batches, from the embeddings collected so
    far ([slice(i, i + batchSize)] is [take batchSize (drop i texts)]). *)
Definition batch_step (texts : list jsstring)
           (acc : result (list (list float))) (i : nat)
  : result (list (list float)) :=
  match acc with
  | inl e => inl e
  | inr embeddings =>
      let batch := take batchSize (drop i texts) in
      match all_or_first_error (map (generateEmbedding model) batch) with
      | inl e => inl e
      | inr batchEmbeddings => inr (embeddings ++ batchEmbeddings)
      end
  end.

Definition generateEmbeddingsBatch (texts : list jsstring)
  : result (list (list float)) :=
  fold_left (batch_step texts) (for_range 0 (length texts) batchSize) (inr []).

(** [topK = 5] when the argument is left out; a given [topK] is a count. *)
Definition findSimilar (queryText : jsstring) (candidateTexts : list jsstring)
           (topK : option nat) : result (list Similarity) :=
  let topK := match topK with Some k => k | None => 5 end in
  match generateEmbedding model queryText with
  | inl e => inl e
  | inr queryEmbedding =>
      match generateEmbeddingsBatch candidateTexts with
      | inl e => inl e
      | inr candidateEmbeddings =>
          match all_or_first_error
                  (imap (fun index embedding =>
                           match cosineSimilarity queryEmbedding embedding with
                           | inl e => inl e
                           | inr s =>
                               inr {| sim_text := candidateTexts !! index;
                                      similarity := s;
                                      index := index |}
                           end)
                        candidateEmbeddings) with
          | inl e => inl e
          | inr similarities => inr (take topK (sort descending similarities))
          end
      end
  end.

End Model.

End EmbeddingSearch.

(** ** queue.service.js: enqueueing, the status of a job, the sweep *)

Module JobQueue.

Import QueueService.

Local Open Scope string_scope.
Local Open Scope list_scope.

(** The options of [contractQueue.add]. *)
Record JobOptions := {
  attempts : nat;
  backoff_type : string;
  backoff_delay : nat;
  removeOnComplete : bool;
  removeOnFail : bool
}.

(** A job of the Bull queue: its identifier, its name, its payload and its
    options. *)
Record QueuedJob := {
  queued_id : N;
  queued_name : string;
  queued_data : JobData;
  queued_opts : JobOptions
}.

(** What [queueContractExtraction] returns. *)
Record Queued := {
  queued_jobId : N;
  queueJobId : N
}.

Section Store.

Variable Details : Type.

(** The database together with the sequence behind the identifiers of
    [processing_jobs] and the Bull queue. The columns [contract_id],
    [job_type] and [created_at] of a job are left out, as in [JobRow]. *)
Record Store := {
  database : Database Details;
  next_job_id : N;
  bull : list QueuedJob;
  next_bull_id : N
}.

(** The database refusing the [INSERT INTO processing_jobs] for a contract,
    and the queue refusing a job: the error thrown, if any. *)
Variable insert_job_error : N -> option Error.
Variable add_error : JobData -> option Error.

Definition pending_row : JobRow :=
  {| jb_status := job_pending; jb_error := None; jb_result := None |}.

Definition extraction_options : JobOptions :=
  {| attempts := 3;
     backoff_type := "exponential";
     backoff_delay := 2000;
     removeOnComplete := false;
     removeOnFail := false |}.

(** [INSERT INTO processing_jobs ... RETURNING id]: the row takes the next
    value of the sequence; a row that already holds it is a violation of the
    primary key. *)
Definition insert_job (contractId : N) (st : Store) : result N * Store :=
  match insert_job_error contractId with
  | Some e => (inl e, st)
  | None =>
      let id := st.(next_job_id) in
      let advanced :=
        {| database := st.(database);
           next_job_id := (id + 1)%N;
           bull := st.(bull);
           next_bull_id := st.(next_bull_id) |} in
      match st.(database).(processing_jobs Details) !! id with
      | Some _ =>
          (inl (mkError (lit "duplicate key value violates unique constraint")),
           advanced)
      | None =>
          (inr id,
           {| database :=
                {| contracts := st.(database).(contracts Details);
                   processing_jobs :=
                     <[id := pending_row]>
                       st.(database).(processing_jobs Details);
                   clauses := st.(database).(clauses Details) |};
              next_job_id := (id + 1)%N;
              bull := st.(bull);
              next_bull_id := st.(next_bull_id) |})
      end
  end.

(** [contractQueue.add('extract-text', data, opts)]. *)
Definition queue_add (data : JobData) (opts : JobOptions) (st : Store)
  : result N * Store :=
  match add_error data with
  | Some e => (inl e, st)
  | None =>
      let id := st.(next_bull_id) in
      (inr id,
       {| database := st.(database);
          next_job_id := st.(next_job_id);
          bull := st.(bull)
                  ++ [ {| queued_id := id;
                          queued_name := "extract-text";
                          queued_data := data;
                          queued_opts := opts |} ];
          next_bull_id := (id + 1)%N |})
  end.

(** The [catch] block logs and throws the error again. *)
Definition queueContractExtraction (contractId : N)
           (filePath fileType : jsstring) (userId : N) (st : Store)
  : result Queued * Store :=
  match insert_job contractId st with
  | (inl e, st1) => (inl e, st1)
  | (inr jobId, st1) =>
      match queue_add {| QueueService.contractId := contractId;
                         QueueService.filePath := filePath;
                         QueueService.fileType := fileType;
                         QueueService.userId := userId;
                         QueueService.jobId := jobId |}
                      extraction_options st1 with
      | (inl e, st2) => (inl e, st2)
      | (inr job_id, st2) =>
          (inr {| queued_jobId := jobId; queueJobId := job_id |}, st2)
      end
  end.

(** [SELECT * FROM processing_jobs WHERE id = $1]: [null] when no row has
    the identifier. *)
Definition getJobStatus (jobId : N) (st : Store) : option JobRow :=
  st.(database).(processing_jobs Details) !! jobId.

End Store.

(** *** The sweep of the old jobs *)

(** A row of [processing_jobs] with its [completed_at] column ([None] for
    [NULL]), in seconds. *)
Record TimedJob := {
  timed_status : JobStatus;
  completed_at : option Z
}.

(** [INTERVAL '7 days']. *)
Definition SEVEN_DAYS : Z := 7 * 24 * 3600.

(** The condition of the [DELETE]: a finished job completed more than seven
    days before [now] (a comparison with [NULL] is not true). *)
Definition swept (now : Z) (job : TimedJob) : bool :=
  match job.(timed_status) with
  | job_completed | job_failed =>
      match job.(completed_at) with
      | Some t => (t <? now - SEVEN_DAYS)%Z
      | None => false
      end
  | _ => false
  end.

(** [cleanupOldJobs] at the time [now]: the number of rows deleted
    ([rowCount]) and the table left. *)
Definition cleanupOldJobs (now : Z) (jobs : gmap N TimedJob)
  : nat * gmap N TimedJob :=
  let deleted := filter (fun kv => swept now (snd kv) = true) jobs in
  (size deleted, filter (fun kv => swept now (snd kv) = false) jobs).

End JobQueue.

(** ** Sample inputs *)

Module Samples.

Import ClauseService.

(** A short heading, a blank line and one paragraph of 76 characters. *)
Definition header_then_paragraph : jsstring :=
  lit "Summary" ++ [LF; LF]
  ++ lit "The parties agree to keep the terms of this agreement in strict confidence.".

(** Two numbered sections, a blank line between them. The first number is
    not behind a line feed, so the text is cut into paragraphs. *)
Definition two_sections : jsstring :=
  lit "1. CONFIDENTIALITY" ++ [LF]
  ++ lit "The parties shall keep all proprietary information confidential and shall not disclose trade secrets."
  ++ [LF; LF]
  ++ lit "2. TERMINATION" ++ [LF]
  ++ lit "Either party may terminate this agreement at any time without cause.".

(** Three numbered sections behind a preamble; the second is too short. *)
Definition three_sections : jsstring :=
  lit "Preamble" ++ [LF]
  ++ lit "1. The first section, with enough text to count." ++ [LF]
  ++ lit "2. Tiny." ++ [LF]
  ++ lit "3. The third section, with enough text to count.".

(** A text too short for any clause. *)
Definition short_note : jsstring := lit "Hi".

(** A clause with two termination indicators (terminat(e|ion),
    cancel(lation)?) and one payment indicator (fee(s)?). *)
Definition mixed_clause : jsstring :=
  lit "The fee is payable on termination or cancellation of the order.".

(** The document of [compromise] as [clause.service.js] requires the
    package, without a plugin: it has no [dates] method. It finds no amount,
    organization or person here. *)
Definition plain_document (text : jsstring) : Doc :=
  {| doc_dates := None;
     doc_money := Some [];
     doc_organizations := Some [];
     doc_people := Some [] |}.

(** A clause with two high-risk indicators (perpetual, irrevocable), two
    medium-risk ones (may terminate, at any time) and a reassuring one (good
    faith). *)
Definition risky_clause : jsstring :=
  lit "The licensor may terminate this perpetual and irrevocable license at any time, acting in good faith.".

(** [Number.prototype.toString] and [parseFloat] on four numbers and their
    decimal forms (any other number prints as [NaN] here, and any other
    string, the empty one included, reads as [NaN]). *)
Definition sample_numbers : list (float * jsstring) :=
  [ (0.5%float, lit "0.5"); (0%float, lit "0"); (1%float, lit "1");
    ((-0.25)%float, lit "-0.25") ].

Definition sample_toString (x : float) : jsstring :=
  match List.find (fun p => (fst p =? x)%float) sample_numbers with
  | Some p => snd p
  | None => lit "NaN"
  end.

Definition sample_parseFloat (s : jsstring) : float :=
  match List.find (fun p => JS.eqb (snd p) s) sample_numbers with
  | Some p => fst p
  | None => nan
  end.

(** A vector of the dimension of the model. *)
Definition sample_embedding : list float :=
  concat (repeat [0.5%float; 0%float; 1%float; (-0.25)%float] 96).

(** *** A document of ten clauses and its processing *)

(** A paragraph of 59 characters, numbered by a digit. *)
Definition paragraph (k : nat) : jsstring :=
  lit "The parties agree on obligation number "
  ++ [(48 + N.of_nat k)%N] ++ lit " of this agreement.".

(** Ten paragraphs, a blank line between two of them. *)
Definition ten_paragraphs : jsstring :=
  join [LF; LF] (map paragraph (seq 0 10)).

(** The extension of a file name: from its last dot on. *)
Definition sample_extname (path : jsstring) : jsstring :=
  match span (fun c => negb (c =? DOT)%N) (rev path) with
  | (suffix, _ :: _) => DOT :: rev suffix
  | (_, []) => []
  end.

Definition sample_toLowerCase (s : jsstring) : jsstring :=
  map (fun c => if isUpper c then (c + 32)%N else c) s.

(** Collaborators for which every file holds the ten paragraphs, the
    documents of [compromise] are plain, the model fails on the clause
    numbered 7, and the database accepts every row. *)
Definition sample_env : QueueService.Collaborators unit :=
  {| QueueService.tokenize := fun t => [t];
     QueueService.compromise := plain_document;
     QueueService.model := fun t =>
       if includes t (lit "number 7")
       then inl (mkError (lit "Model inference failed"))
       else inr [0.5%float; 1%float];
     QueueService.Number_toString := sample_toString;
     QueueService.extname := sample_extname;
     QueueService.toLowerCase := sample_toLowerCase;
     QueueService.extractFromPDF := fun _ =>
       inr {| ExtractionService.raw_text := ten_paragraphs;
              ExtractionService.raw_pages := 1 |};
     QueueService.extractFromDOCX := fun _ =>
       inr {| ExtractionService.raw_text := ten_paragraphs;
              ExtractionService.raw_pages := 1 |};
     QueueService.extractContractMetadata := fun _ => tt;
     QueueService.insert_error := fun _ => None |}.

Definition pdf_job : QueueService.JobData :=
  {| QueueService.contractId := 1;
     QueueService.filePath := lit "uploads/contract.pdf";
     QueueService.fileType := lit "application/pdf";
     QueueService.userId := 7;
     QueueService.jobId := 3 |}.

(** A job for a file of an unsupported type. *)
Definition txt_job : QueueService.JobData :=
  {| QueueService.contractId := 1;
     QueueService.filePath := lit "uploads/notes.txt";
     QueueService.fileType := lit "text/plain";
     QueueService.userId := 7;
     QueueService.jobId := 3 |}.

Definition uploaded_contract : QueueService.ContractRow unit :=
  {| QueueService.ct_extracted_text := None;
     QueueService.ct_metadata := None;
     QueueService.ct_status := QueueService.uploaded |}.

Definition pending_job : QueueService.JobRow :=
  {| QueueService.jb_status := QueueService.job_pending;
     QueueService.jb_error := None;
     QueueService.jb_result := None |}.

(** The database when the job is taken from the queue. *)
Definition sample_db : QueueService.Database unit :=
  {| QueueService.contracts := {[ 1%N := uploaded_contract ]};
     QueueService.processing_jobs := {[ 3%N := pending_job ]};
     QueueService.clauses := [] |}.

(** What [extractText] returns for the file of [pdf_job]. *)
Definition pdf_extraction : ExtractionService.Extraction unit :=
  {| ExtractionService.text := ten_paragraphs;
     ExtractionService.metadata :=
       {| ExtractionService.pages := 1;
          ExtractionService.details := tt;
          ExtractionService.characterCount := 608;
          ExtractionService.wordCount := 100 |} |}.

(** The error [extractText] throws for the file of [txt_job]. *)
Definition txt_error : Error :=
  mkError (lit "Unsupported file type: .txt").

(** The collaborators of [sample_env] with files that hold [short_note]
    only, a text from which no clause is cut. *)
Definition note_env : QueueService.Collaborators unit :=
  {| QueueService.tokenize := QueueService.tokenize unit sample_env;
     QueueService.compromise := QueueService.compromise unit sample_env;
     QueueService.model := QueueService.model unit sample_env;
     QueueService.Number_toString :=
       QueueService.Number_toString unit sample_env;
     QueueService.extname := QueueService.extname unit sample_env;
     QueueService.toLowerCase := QueueService.toLowerCase unit sample_env;
     QueueService.extractFromPDF := fun _ =>
       inr {| ExtractionService.raw_text := short_note;
              ExtractionService.raw_pages := 1 |};
     QueueService.extractFromDOCX := fun _ =>
       inr {| ExtractionService.raw_text := short_note;
              ExtractionService.raw_pages := 1 |};
     QueueService.extractContractMetadata := fun _ => tt;
     QueueService.insert_error := fun _ => None |}.

(** The error of a call of the missing method. *)
Definition dates_error : Error :=
  TypeError (lit "doc.dates is not a function").

End Samples.


(** ** Notions used in the statements *)

Section Notions.

Import ClauseService EmbeddingService QueueService.

(** A loop whose turn at [i] pushes at most one clause, at position [f i]. *)
Definition pushes_at (f : nat -> nat) (g : nat -> list RawClause) : Prop :=
  forall i, g i = [] \/ exists c, g i = [c] /\ position c = f i.

(** The clause [c] is the numbered section of index [position c] of the
    text, kept by the length filter: it carries the label and the trimmed
    body of that section (the split array alternates labels and bodies
    behind the text before the first label), the body being longer than 20
    once trimmed. *)
Definition kept_section (contract : jsstring) (c : RawClause) : Prop :=
  exists label body,
    split re_numbered contract !! (2 * position c + 1) = Some label
    /\ split re_numbered contract !! (2 * position c + 2) = Some body
    /\ section_number c = Some label
    /\ text c = trim body
    /\ 20 < length (trim body).

(** The clause [c] is the paragraph of index [position c] of the text,
    trimmed, kept by the length filter. *)
Definition kept_paragraph (contract : jsstring) (c : RawClause) : Prop :=
  exists para,
    split re_blank_line contract !! position c = Some para
    /\ section_number c = None
    /\ text c = trim para
    /\ 50 < length (trim para).

(** The clause [c] is the group of index [position c] of the sentences,
    three sentences joined by a space (fewer at the end) and trimmed, kept
    by the length filter. *)
Definition kept_group (sentences : list jsstring) (c : RawClause) : Prop :=
  3 * position c < length sentences
  /\ section_number c = None
  /\ text c = trim (join [SPACE] (take 3 (drop (3 * position c) sentences)))
  /\ 50 < length (text c).

(** The clause [c] is a kept fragment of the first strategy tried: the
    numbered sections when the expression of the numbers splits the text in
    more than three parts, the paragraphs otherwise. *)
Definition kept_first (contract : jsstring) (c : RawClause) : Prop :=
  if (3 <? length (split re_numbered contract))%nat
  then kept_section contract c
  else kept_paragraph contract c.

(** The indicator patterns that match a text, over all types (a pattern
    counts once, however often it occurs in the text). *)
Definition matching_of (text : jsstring) (patterns : list regex) : list regex :=
  List.filter (fun p => test p text) patterns.

Definition matching (text : jsstring) : list regex :=
  flat_map (fun tp => matching_of text (snd tp)) CLAUSE_PATTERNS.

(** The number of indicator patterns of the table. *)
Definition pattern_count : nat :=
  list_sum (map (fun tp => length (snd tp)) CLAUSE_PATTERNS).

(** The quotient of two counts, capped at one. *)
Definition capped_ratio (m t : nat) : float :=
  Math_min (number m / number t)%float 1%float.

Definition within_unit (c : float) : bool :=
  (0 <=? c)%float && (c <=? 1)%float.

(** A vector of zero magnitude: every component is a zero of either sign. *)
Definition zero_vector (v : list float) : Prop :=
  Forall (fun x => x = 0%float \/ x = (-0)%float) v.

(** The body of the loop of [cosineSimilarity]. *)
Definition cosine_step (e1 e2 : list float)
  : float * float * float -> nat -> float * float * float :=
  fun '(dotProduct, norm1, norm2) i =>
    (dotProduct + at_index e1 i * at_index e2 i,
     norm1 + at_index e1 i * at_index e1 i,
     norm2 + at_index e2 i * at_index e2 i)%float.

Context {Details : Type} (env : Collaborators Details).

(** The row a clause leaves in the table, if its embedding is generated and
    its insertion accepted. *)
Definition persisted (job : JobData) (clause : ProcessedClause)
  : option ClauseRow :=
  match generateEmbedding Details env clause.(c_text) with
  | inl _ => None
  | inr embedding =>
      let row := {| cl_contract_id := job.(contractId);
                    cl_clause := clause;
                    cl_embedding := formatEmbeddingForDB Details env embedding |} in
      match env.(insert_error Details) row with
      | Some _ => None
      | None => Some row
      end
  end.

(** The result a completed job records, for the clauses processed. *)
Definition result_of (extraction : ExtractionService.Extraction Details)
           (clauses : list ProcessedClause) : JobResult :=
  {| success := true;
     textLength := length extraction.(ExtractionService.text);
     pages := extraction.(ExtractionService.metadata).(ExtractionService.pages);
     wordCount :=
       extraction.(ExtractionService.metadata).(ExtractionService.wordCount);
     clauseCount := length clauses |}.

(** Every document of [compromise] lacks the [dates] method: the package
    without the plugin that defines it. *)
Definition without_dates : Prop :=
  forall text, doc_dates (env.(compromise Details) text) = None.


End Notions.


(** ** Further notions and sample inputs *)

Section MoreNotions.

Import ClauseService.

(** A clause as the three loops push it: trimmed, longer than the noise
    threshold of its strategy. *)
Definition well_cut (c : RawClause) : Prop :=
  trim (text c) = text c
  /\ 20 < length (text c)
  /\ (section_number c = None -> 50 < length (text c)).

End MoreNotions.

Module Cases.

Import ClauseService.

(** The first clause of [Samples.three_sections]. *)
Definition first_section : RawClause :=
  {| section_number := Some (lit "1.");
     text := lit "The first section, with enough text to count.";
     position := 0 |}.

(** A clause with three medium-risk indicators and no high-risk one. *)
Definition cautious_clause : jsstring :=
  lit "Either party may terminate this agreement at any time without cause.".

(** A clause that opens with a label and a colon. *)
Definition labelled_clause : jsstring :=
  lit "Payment Terms: all invoices are due within thirty days of receipt.".

(** The collaborators of [Samples.sample_env] at a moment when the file
    cannot be read. *)
Definition unreadable_env : QueueService.Collaborators unit :=
  {| QueueService.tokenize := QueueService.tokenize unit Samples.sample_env;
     QueueService.compromise :=
       QueueService.compromise unit Samples.sample_env;
     QueueService.model := QueueService.model unit Samples.sample_env;
     QueueService.Number_toString :=
       QueueService.Number_toString unit Samples.sample_env;
     QueueService.extname := QueueService.extname unit Samples.sample_env;
     QueueService.toLowerCase :=
       QueueService.toLowerCase unit Samples.sample_env;
     QueueService.extractFromPDF := fun _ =>
       inl (mkError (lit "Failed to extract text from PDF: ENOENT"));
     QueueService.extractFromDOCX := fun _ =>
       inl (mkError (lit "Failed to extract text from DOCX: ENOENT"));
     QueueService.extractContractMetadata := fun _ => tt;
     QueueService.insert_error := fun _ => None |}.

(** A Word reader that finds the ten paragraphs of
    [Samples.ten_paragraphs], a hundred words, in every file. *)
Definition sample_extractRawText (path : jsstring) : result jsstring :=
  inr Samples.ten_paragraphs.

(** What [Readers.extractFromDOCX] returns with it. *)
Definition docx_extraction : ExtractionService.RawExtraction :=
  {| ExtractionService.raw_text := Samples.ten_paragraphs;
     ExtractionService.raw_pages := 1 |}.

(** Three candidate texts and a query for the search, with the model of
    [Samples.sample_env]. *)
Definition candidates : list jsstring :=
  [Samples.paragraph 1; Samples.paragraph 2; Samples.paragraph 3].

Definition sample_model : jsstring -> result (list float) :=
  QueueService.model unit Samples.sample_env.

(** A store in which the sequence of the jobs is ahead of the one job of
    [Samples.sample_db] and the queue is empty. *)
Definition sample_store : JobQueue.Store unit :=
  {| JobQueue.database := Samples.sample_db;
     JobQueue.next_job_id := 4;
     JobQueue.bull := [];
     JobQueue.next_bull_id := 1 |}.

(** A database that accepts every job and a queue that accepts every
    payload. *)
Definition accepts_job (contractId : N) : option Error := None.

Definition accepts_payload (data : QueueService.JobData) : option Error :=
  None.

(** A queue whose Redis server cannot be reached. *)
Definition redis_down (data : QueueService.JobData) : option Error :=
  Some (mkError (lit "connect ECONNREFUSED 127.0.0.1:6379")).

(** Jobs at the time 1000000: one finished eight days before, one finished
    the day before, one failed nine days before, one still running and one
    marked completed without a completion time. *)
Definition sample_jobs : gmap N JobQueue.TimedJob :=
  {[ 1%N := {| JobQueue.timed_status := QueueService.job_completed;
               JobQueue.completed_at := Some 308800%Z |};
     2%N := {| JobQueue.timed_status := QueueService.job_completed;
               JobQueue.completed_at := Some 913600%Z |};
     3%N := {| JobQueue.timed_status := QueueService.job_failed;
               JobQueue.completed_at := Some 222400%Z |};
     4%N := {| JobQueue.timed_status := QueueService.job_processing;
               JobQueue.completed_at := None |};
     5%N := {| JobQueue.timed_status := QueueService.job_completed;
               JobQueue.completed_at := None |} ]}.

End Cases.
(* ================================================================== *)
(** * Part II: properties *)
(* ================================================================== *)

(** ** The tables and the scenarios, computed *)

Section Computed.

Import ClauseService.
Local Open Scope string_scope.
Local Open Scope list_scope.

(** The sources of the patterns of [CLAUSE_PATTERNS], as written in the
    code. *)
Lemma CLAUSE_PATTERNS_sources :
  map (fun tp => (fst tp, map source (snd tp))) CLAUSE_PATTERNS =
  [ ("confidentiality",
      ["confidential(ity)?"; "non-disclosure"; "proprietary information";
       "trade secret"; "sensitive information"]);
    ("termination",
      ["terminat(e|ion)"; "cancel(lation)?"; "end of (the )?agreement";
       "notice period"; "expir(e|ation)"]);
    ("liability",
      ["liabilit(y|ies)"; "indemnif(y|ication)"; "damages";
       "limitation of liability"; "hold harmless"]);
    ("payment",
      ["payment"; "fee(s)?"; "compensation"; "invoice"; "price"; "cost"]);
    ("intellectual_property",
      ["intellectual property"; "copyright"; "patent"; "trademark";
       "ownership"; "license"]);
    ("governing_law",
      ["governing law"; "jurisdiction"; "applicable law"; "venue";
       "dispute resolution"]);
    ("warranty",
      ["warrant(y|ies)"; "representation"; "guarantee"; "assurance"]);
    ("force_majeure",
      ["force majeure"; "act of god"; "unforeseeable"; "beyond.*control"]);
    ("assignment",
      ["assignment"; "transfer"; "successor"; "assign.*rights"]);
    ("amendment",
      ["amendment"; "modification"; "change.*agreement"; "written consent"]);
    ("entire_agreement",
      ["entire agreement"; "complete agreement"; "supersede";
       "prior agreement"]);
    ("severability",
      ["severabilit(y)?"; "invalid.*provision"; "unenforceable"]) ].
Proof. reflexivity. Qed.

(** The sources of the risk indicators, as written in the code. *)
Lemma riskIndicators_sources :
  map source (ri_high riskIndicators) =
    ["unlimited liability"; "sole discretion"; "without notice";
     "automatic renewal"; "perpetual"; "irrevocable"; "waive.*rights";
     "indemnify.*all"]
  /\ map source (ri_medium riskIndicators) =
    ["may terminate"; "at any time"; "without cause"; "exclusive";
     "binding"; "non-refundable"]
  /\ map source (ri_low riskIndicators) =
    ["reasonable"; "mutual"; "written consent"; "good faith";
     "commercially reasonable"].
Proof. repeat split; reflexivity. Qed.

(** The two numbered sections of [Samples.two_sections] are cut as the
    paragraphs 0 and 1; with plain documents of [compromise] the
    classification of the first throws, and so does
    [extractAndClassifyClauses]. *)
Example two_sections_processed :
  forall tokenize,
    map (fun c => (position c, section_number c))
        (segmentClauses tokenize Samples.two_sections)
    = [ (0, None); (1, None) ]
    /\ extractAndClassifyClauses tokenize Samples.plain_document
         Samples.two_sections
       = inl Samples.dates_error.
Proof. intros. split; vm_compute; reflexivity. Qed.

(** Numbered sections: the second section of [Samples.three_sections] is
    discarded and leaves a gap between the positions 0 and 2. *)
Example three_sections_segmented :
  forall tokenize,
    map (fun c => (position c, section_number c))
        (segmentClauses tokenize Samples.three_sections)
    = [ (0, Some (lit "1.")); (2, Some (lit "3.")) ].
Proof. intros. vm_compute. reflexivity. Qed.

(** [cosineSimilarity] on vectors of two lengths, on a zero vector and on a
    vector with itself. *)
Example cosineSimilarity_computed :
  EmbeddingService.cosineSimilarity [1%float; 2%float] [1%float]
  = inl (mkError (lit "Embeddings must have the same dimension"))
  /\ EmbeddingService.cosineSimilarity [0%float; (-0)%float]
                                       [1%float; 3%float]
     = inr 0%float
  /\ EmbeddingService.cosineSimilarity [3%float; 4%float] [3%float; 4%float]
     = inr 1%float.
Proof. repeat split; vm_compute; reflexivity. Qed.

End Computed.

(** ** Loops and strings *)

Lemma loop_indices_lower fuel i stop step :
  Forall (fun j => i <= j) (loop_indices fuel i stop step).
Proof.
  revert i. induction fuel as [|fuel IH]; intros i; simpl; [constructor|].
  destruct (i <? stop); constructor; [lia|].
  eapply List.Forall_impl; [|apply IH]. simpl. intros j Hj. lia.
Qed.

(** Along [i, i + step, i + 2 step, ...] the quotient [i / step] grows by one
    at each turn. *)
Lemma loop_indices_quotients fuel i stop step :
  0 < step ->
  StronglySorted lt (map (fun j => j / step) (loop_indices fuel i stop step)).
Proof.
  intros Hstep. revert i.
  induction fuel as [|fuel IH]; intros i; simpl; [constructor|].
  destruct (i <? stop); simpl; constructor; [apply IH|].
  apply Forall_map.
  eapply List.Forall_impl; [|apply loop_indices_lower]. simpl.
  intros j Hj.
  assert (Hq : (i + step) / step = S (i / step)).
  { replace (i + step) with (i + 1 * step) by lia.
    rewrite Nat.div_add by lia. lia. }
  pose proof (Nat.Div0.div_le_mono _ _ step Hj). lia.
Qed.

(** The values of the loop variable: the start plus a multiple of the
    step, below the bound. *)
Lemma loop_indices_in fuel i stop step j :
  In j (loop_indices fuel i stop step) ->
  exists k, j = i + k * step /\ j < stop.
Proof.
  revert i. induction fuel as [|fuel IH]; intros i; simpl; [tauto|].
  destruct (Nat.ltb_spec i stop) as [Hlt|Hge]; [|intros []].
  intros [<- | H].
  - exists 0. split; [lia | assumption].
  - destruct (IH _ H) as (k & -> & Hk). exists (S k). split; [lia | assumption].
Qed.

(** Every value of the start plus a multiple of the step below the bound
    is taken. *)
Lemma loop_indices_complete step stop k :
  forall fuel i,
    k < fuel -> i + k * step < stop ->
    In (i + k * step) (loop_indices fuel i stop step).
Proof.
  induction k as [|k IH]; intros fuel i Hk Hlt;
    (destruct fuel as [|fuel]; [lia|]); cbn [loop_indices].
  - destruct (Nat.ltb_spec i stop); [|lia].
    left. lia.
  - destruct (Nat.ltb_spec i stop); [|lia].
    right. replace (i + S k * step) with (i + step + k * step) by lia.
    apply IH; lia.
Qed.

Lemma concat_imap_in {A B} (f : nat -> A -> list B) (l : list A) i x (y : B) :
  l !! i = Some x -> In y (f i x) -> In y (concat (imap f l)).
Proof.
  revert f i. induction l as [|a l IH]; intros f i; [discriminate|].
  cbn [imap concat]. intros Hi Hy. apply in_or_app.
  destruct i as [|i]; cbn in Hi.
  - injection Hi as ->. left. exact Hy.
  - right. apply (IH (f ∘ S) i); assumption.
Qed.

Lemma in_concat_imap {A B} (f : nat -> A -> list B) (l : list A) (y : B) :
  In y (concat (imap f l)) -> exists i x, l !! i = Some x /\ In y (f i x).
Proof.
  revert f. induction l as [|x l IH]; intros f; simpl; [tauto|].
  intros H. apply in_app_or in H. destruct H as [H | H].
  - exists 0, x. auto.
  - destruct (IH _ H) as (i & x' & Hi & Hy). exists (S i), x'. auto.
Qed.

Lemma for_range_unit n : for_range 0 n 1 = seq 0 n.
Proof.
  unfold for_range.
  assert (H : forall fuel i, n <= i + fuel ->
                loop_indices fuel i n 1 = seq i (n - i)).
  { induction fuel as [|fuel IH]; intros i Hle; simpl.
    - replace (n - i) with 0 by lia. reflexivity.
    - destruct (Nat.ltb_spec i n) as [Hlt|Hge].
      + rewrite IH by lia. replace (n - i) with (S (n - (i + 1))) by lia.
        simpl. f_equal. f_equal. lia.
      + replace (n - i) with 0 by lia. reflexivity. }
  rewrite H by lia. f_equal. lia.
Qed.

(** ** C1: the positions of the segmented clauses *)

Section Positions.

Import ClauseService.

Lemma flat_map_positions f g idxs :
  pushes_at f g ->
  StronglySorted lt (map f idxs) ->
  StronglySorted lt (map position (flat_map g idxs)) /\
  Forall (fun c => exists i, In i idxs /\ position c = f i) (flat_map g idxs).
Proof.
  intros Hg. induction idxs as [|i idxs IH]; simpl; intros Hs.
  - split; constructor.
  - inversion Hs as [|? ? Hs' Hall]; subst.
    destruct (IH Hs') as [IH1 IH2].
    assert (IH2' : Forall (fun c => exists j, In j (i :: idxs)
                                      /\ position c = f j)
                          (flat_map g idxs)).
    { eapply List.Forall_impl; [|exact IH2]. simpl.
      intros c (j & Hj & E). eauto. }
    destruct (Hg i) as [E | (c & E & Hc)]; rewrite E; simpl.
    + split; assumption.
    + split; [constructor; [assumption|] | constructor; [|assumption]].
      * apply Forall_map. eapply List.Forall_impl; [|exact IH2]. simpl.
        intros c' (j & Hj & E'). rewrite Hc, E'.
        rewrite List.Forall_forall in Hall. apply Hall.
        apply in_map_iff. eauto.
      * exists i. split; [left; reflexivity | assumption].
Qed.

Lemma numbered_step_pushes arr :
  pushes_at (fun i => i / 2) (numbered_step arr).
Proof.
  intros i. unfold numbered_step.
  destruct (arr !! i); [|left; reflexivity].
  destruct (arr !! (i + 1)); [|left; reflexivity].
  destruct (_ && _); [right; eexists; split; reflexivity | left; reflexivity].
Qed.

Lemma sentence_step_pushes sentences :
  pushes_at (fun i => i / sentencesPerClause) (sentence_step sentences).
Proof.
  intros i. unfold sentence_step.
  destruct (_ <? _); [right; eexists; split; reflexivity | left; reflexivity].
Qed.

(** The paragraphs: the clause of the paragraph at [index] sits at
    [index]. *)
Lemma paragraphs_positions (f : nat -> nat) paragraphs :
  (forall i j, i < j -> f i < f j) ->
  StronglySorted lt
    (map position
         (concat (imap (fun i => paragraph_step (f i)) paragraphs))) /\
  Forall (fun c => f 0 <= position c)
    (concat (imap (fun i => paragraph_step (f i)) paragraphs)).
Proof.
  revert f. induction paragraphs as [|p ps IH]; intros f Hf; simpl.
  - split; constructor.
  - destruct (IH (f ∘ S)) as [IH1 IH2].
    { intros i j Hij. simpl. apply Hf. lia. }
    simpl in IH1, IH2.
    assert (Hlow : Forall (fun c => f 0 < position c)
                     (concat (imap (fun i => paragraph_step (f (S i))) ps))).
    { eapply List.Forall_impl; [|exact IH2]. simpl. intros c Hc.
      specialize (Hf 0 1 ltac:(lia)). lia. }
    unfold paragraph_step at 1 3.
    destruct (_ <? _); simpl.
    + split; constructor; simpl; try assumption; try lia.
      * apply Forall_map. exact Hlow.
      * eapply List.Forall_impl; [|exact Hlow]. simpl. intros; lia.
    + split; [assumption|].
      eapply List.Forall_impl; [|exact Hlow]. simpl. intros; lia.
Qed.

Lemma strictly_increasing_from_head a (l : list nat) :
  StronglySorted lt (a :: l) ->
  forall i p, (a :: l) !! i = Some p -> a + i <= p.
Proof.
  revert a. induction l as [|b l IH]; intros a Hs i p Hi.
  - destruct i as [|i]; simpl in Hi; [injection Hi; lia | discriminate].
  - destruct i as [|i]; simpl in Hi; [injection Hi; lia|].
    inversion Hs as [|? ? Hs' Hall]; subst.
    specialize (IH b Hs' i p Hi).
    inversion Hall; subst. lia.
Qed.

Lemma strictly_increasing_from_index (l : list nat) :
  StronglySorted lt l -> forall i p, l !! i = Some p -> i <= p.
Proof.
  intros Hs i p Hi. destruct l as [|a l]; [discriminate|].
  pose proof (strictly_increasing_from_head a l Hs i p Hi). lia.
Qed.

End Positions.

Section SegmentationProperties.

Import ClauseService.

Variable tokenize : jsstring -> list jsstring.

(** The three loops push exactly the fragments the length filters keep,
    each at the index of its fragment. *)
Lemma numbered_loop_kept contract c :
  In c (flat_map (numbered_step (split re_numbered contract))
          (for_range 1 (length (split re_numbered contract)) 2))
  <-> kept_section contract c.
Proof.
  unfold kept_section. set (sections := split re_numbered contract).
  split.
  - intros H. apply in_flat_map in H. destruct H as (i & Hi & H).
    apply loop_indices_in in Hi. destruct Hi as (k & -> & _).
    unfold numbered_step in H.
    destruct (sections !! (1 + k * 2)) as [label|] eqn:El; [|destruct H].
    destruct (sections !! (1 + k * 2 + 1)) as [body|] eqn:Eb; [|destruct H].
    destruct (truthy body); cbn [andb] in H; [|destruct H].
    destruct (Nat.ltb_spec 20 (length (trim body))) as [Hlong|];
      [|destruct H].
    destruct H as [<- | []]. exists label, body.
    cbn [position section_number text].
    assert (Hk : (1 + k * 2) / 2 = k).
    { replace (1 + k * 2) with (k * 2 + 1) by lia.
      rewrite Nat.div_add_l by lia.
      rewrite (Nat.div_small 1 2) by lia. lia. }
    rewrite Hk.
    replace (2 * k + 1) with (1 + k * 2) by lia.
    replace (2 * k + 2) with (1 + k * 2 + 1) by lia.
    repeat split; assumption.
  - intros (label & body & Hl & Hb & Hn & Ht & Hlong).
    apply in_flat_map. exists (1 + position c * 2). split.
    + apply loop_indices_complete.
      * apply lookup_lt_Some in Hl. lia.
      * apply lookup_lt_Some in Hl. lia.
    + unfold numbered_step.
      replace (1 + position c * 2) with (2 * position c + 1) by lia.
      replace (2 * position c + 1 + 1) with (2 * position c + 2) by lia.
      rewrite Hl, Hb.
      assert (Htruthy : truthy body = true).
      { destruct body; [cbn in Hlong; lia | reflexivity]. }
      rewrite Htruthy. cbn [andb].
      destruct (Nat.ltb_spec 20 (length (trim body))); [|lia].
      assert (Hdiv : (2 * position c + 1) / 2 = position c).
      { replace (2 * position c + 1) with (position c * 2 + 1) by lia.
        rewrite Nat.div_add_l by lia.
        rewrite (Nat.div_small 1 2) by lia. lia. }
      rewrite Hdiv.
      left. destruct c as [n t p]. cbn [section_number text position] in *.
      subst n t. reflexivity.
Qed.

Lemma paragraph_loop_kept contract c :
  In c (concat (imap paragraph_step (split re_blank_line contract)))
  <-> kept_paragraph contract c.
Proof.
  unfold kept_paragraph. split.
  - intros H. apply in_concat_imap in H. destruct H as (i & para & Hi & H).
    unfold paragraph_step in H.
    destruct (Nat.ltb_spec 50 (length (trim para))) as [Hlong|];
      [|destruct H].
    destruct H as [<- | []]. exists para. repeat split; assumption.
  - intros (para & Hp & Hn & Ht & Hlong).
    apply (concat_imap_in _ _ (position c) para); [exact Hp|].
    unfold paragraph_step.
    destruct (Nat.ltb_spec 50 (length (trim para))); [|lia].
    left. destruct c as [n t p]. cbn [section_number text position] in *.
    subst n t. reflexivity.
Qed.

Lemma sentence_loop_kept (sentences : list jsstring) c :
  In c (flat_map (sentence_step sentences)
          (for_range 0 (length sentences) sentencesPerClause))
  <-> kept_group sentences c.
Proof.
  unfold kept_group, sentencesPerClause. split.
  - intros H. apply in_flat_map in H. destruct H as (i & Hi & H).
    apply loop_indices_in in Hi. destruct Hi as (k & -> & Hk).
    cbn [Nat.add] in H, Hk.
    unfold sentence_step, sentencesPerClause in H.
    destruct (Nat.ltb_spec 50
                (length (trim (join [SPACE] (take 3 (drop (k * 3) sentences))))))
      as [Hlong|]; [|destruct H].
    destruct H as [<- | []]. cbn [position section_number text].
    rewrite Nat.div_mul by lia.
    replace (3 * k) with (k * 3) by lia.
    repeat split; assumption.
  - intros (Hk & Hn & Ht & Hlong).
    apply in_flat_map. exists (0 + position c * 3). split.
    + apply loop_indices_complete; lia.
    + cbn [Nat.add]. unfold sentence_step, sentencesPerClause.
      replace (position c * 3) with (3 * position c) by lia.
      rewrite <- Ht.
      destruct (Nat.ltb_spec 50 (length (text c))); [|lia].
      assert (Hdiv : (3 * position c) / 3 = position c).
      { replace (3 * position c) with (position c * 3) by lia.
        apply Nat.div_mul. lia. }
      rewrite Hdiv.
      left. destruct c as [n t p]. cbn [section_number text position] in *.
      subst n. reflexivity.
Qed.

(** The clauses are the kept fragments of the first strategy tried when
    there is one, the kept groups of sentences otherwise. *)
Lemma segmentClauses_kept contract :
  ((exists c, kept_first contract c) ->
   forall c, In c (segmentClauses tokenize contract)
             <-> kept_first contract c)
  /\ (~ (exists c, kept_first contract c) ->
      forall c, In c (segmentClauses tokenize contract)
                <-> kept_group (tokenize contract) c).
Proof.
  unfold segmentClauses, kept_first.
  pose proof (numbered_loop_kept contract) as Hn.
  pose proof (paragraph_loop_kept contract) as Hp.
  pose proof (sentence_loop_kept (tokenize contract)) as Hs.
  destruct (3 <? length (split re_numbered contract)).
  - destruct (flat_map (numbered_step (split re_numbered contract))
                (for_range 1 (length (split re_numbered contract)) 2))
      as [|c0 l] eqn:E; cbn [length Nat.eqb].
    + split; [|intros _; exact Hs].
      intros [c Hc]. apply Hn in Hc. destruct Hc.
    + split; [intros _; exact Hn|].
      intros H. exfalso. apply H. exists c0. apply Hn. left. reflexivity.
  - destruct (concat (imap paragraph_step (split re_blank_line contract)))
      as [|c0 l] eqn:E; cbn [length Nat.eqb].
    + split; [|intros _; exact Hs].
      intros [c Hc]. apply Hp in Hc. destruct Hc.
    + split; [intros _; exact Hp|].
      intros H. exfalso. apply H. exists c0. apply Hp. left. reflexivity.
Qed.

Lemma segmentClauses_sorted text :
  StronglySorted lt (map position (segmentClauses tokenize text)).
Proof.
  unfold segmentClauses.
  set (numbered :=
         flat_map (numbered_step (split re_numbered text))
                  (for_range 1 (length (split re_numbered text)) 2)).
  set (paragraphs :=
         concat (imap paragraph_step (split re_blank_line text))).
  assert (Hn : StronglySorted lt (map position numbered)).
  { apply (flat_map_positions (fun i => i / 2)).
    - apply numbered_step_pushes.
    - apply loop_indices_quotients. lia. }
  assert (Hp : StronglySorted lt (map position paragraphs)).
  { apply (paragraphs_positions (fun i => i)). intros; assumption. }
  assert (Hs : StronglySorted lt
                 (map position
                    (flat_map (sentence_step (tokenize text))
                       (for_range 0 (length (tokenize text))
                                  sentencesPerClause)))).
  { apply (flat_map_positions (fun i => i / sentencesPerClause)).
    - apply sentence_step_pushes.
    - apply loop_indices_quotients. unfold sentencesPerClause. lia. }
  destruct (3 <? length (split re_numbered text));
    match goal with |- context [(length ?l =? 0)] =>
      destruct (length l =? 0) end; assumption.
Qed.

End SegmentationProperties.

(** C1 (as amended). For every tokenizer and every text, the positions of the
    clauses [segmentClauses] returns are strictly increasing in output order,
    whichever of the three strategies produced them, and the clause at index
    [i] of the result has a position of at least [i]. A position is the
    zero-based index of the fragment the clause was cut from, and the
    clauses are exactly the fragments the length filter keeps. When the
    expression of the section numbers splits the text in more than three
    parts, these are the numbered sections whose trimmed body is longer than
    20, each with its label (the entries [2p+1] and [2p+2] of the split
    array for the position [p]); otherwise they are the paragraphs whose
    trimmed text is longer than 50. When no section or paragraph is kept,
    they are the groups of three sentences (the sentences [3p], [3p+1],
    [3p+2] joined by a space) whose trimmed text is longer than 50. A
    fragment that is discarded leaves its index unused: the positions are
    not renumbered. *)
Theorem segmentClauses_positions_increasing :
  forall (tokenize : jsstring -> list jsstring) (text : jsstring),
    let clauses := ClauseService.segmentClauses tokenize text in
    StronglySorted lt (map ClauseService.position clauses)
    /\ (forall i c, clauses !! i = Some c -> i <= ClauseService.position c)
    /\ ((exists c, kept_first text c) ->
        forall c, In c clauses <-> kept_first text c)
    /\ (~ (exists c, kept_first text c) ->
        forall c, In c clauses <-> kept_group (tokenize text) c).
Proof.
  intros tokenize text clauses.
  pose proof (segmentClauses_sorted tokenize text) as Hs. fold clauses in Hs.
  split; [exact Hs|]. split.
  - intros i c Hi.
    apply (strictly_increasing_from_index _ Hs i).
    rewrite list_lookup_fmap, Hi. reflexivity.
  - apply (segmentClauses_kept tokenize text).
Qed.

(** C1 (as stated) fails. The text [Samples.header_then_paragraph] is not
    empty, and whatever the tokenizer its only clause is the paragraph, at
    position 1 (the heading at index 0 is discarded as too short): the
    positions do not start at 0. And for a tokenizer that returns a short text
    whole, as its only sentence, or no sentence at all, the non-empty text
    [Samples.short_note] yields no clause. *)
Lemma segmentClauses_positions_not_dense :
  Samples.header_then_paragraph <> []
  /\ (forall tokenize,
         map ClauseService.position
             (ClauseService.segmentClauses tokenize
                Samples.header_then_paragraph) = [1])
  /\ Samples.short_note <> []
  /\ (forall tokenize,
         tokenize Samples.short_note = [Samples.short_note]
         \/ tokenize Samples.short_note = [] ->
         ClauseService.segmentClauses tokenize Samples.short_note = []).
Proof.
  split; [discriminate|].
  split; [intros tokenize; vm_compute; reflexivity|].
  split; [discriminate|].
  intros tokenize H.
  unfold ClauseService.segmentClauses.
  change (split ClauseService.re_numbered Samples.short_note)
    with [Samples.short_note].
  change (split ClauseService.re_blank_line Samples.short_note)
    with [Samples.short_note].
  simpl.
  destruct H as [-> | ->]; reflexivity.
Qed.

(** ** C5: the classifier *)

Section Classification.

Import ClauseService.
Local Open Scope string_scope.
Local Open Scope list_scope.

Lemma score_of_count patterns text :
  score_of patterns text = length (matching_of text patterns).
Proof.
  unfold score_of, matching_of.
  assert (H : forall a,
             fold_left (fun score p =>
                          if test p text then (score + 1)%nat else score)
                       patterns a
             = a + length (List.filter (fun p => test p text) patterns)).
  { induction patterns as [|p ps IH]; intros a; simpl; [lia|].
    rewrite IH. destruct (test p text); simpl; lia. }
  apply (H 0).
Qed.

Lemma totalMatches_sum scores :
  totalMatches scores = list_sum (map snd scores).
Proof.
  unfold totalMatches.
  assert (H : forall l a, fold_left (fun a b => a + b) l a = a + list_sum l).
  { induction l as [|x l IH]; intros a; simpl; [lia|]. rewrite IH. lia. }
  apply (H _ 0).
Qed.

Lemma totalMatches_count text :
  totalMatches (scores_of text) = length (matching text).
Proof.
  rewrite totalMatches_sum. unfold scores_of, matching.
  induction CLAUSE_PATTERNS as [|[type patterns] table IH]; simpl; [reflexivity|].
  rewrite length_app, IH, score_of_count. reflexivity.
Qed.

Lemma score_in_sum (scores : list (string * nat)) type score :
  In (type, score) scores -> score <= list_sum (map snd scores).
Proof.
  induction scores as [|[t s] scores IH]; simpl; [tauto|].
  intros [E | H]; [injection E as _ ->; lia | specialize (IH H); lia].
Qed.

(** The loop over the scores: the running maximum only moves to a strictly
    greater score, so the first type with the greatest score is kept. *)
Lemma highest_from (scores : list (string * nat)) (m0 : nat) (t0 : string) :
  let step := fun '(maxScore, clauseType) '(type, score) =>
                if (maxScore <? score)%nat then (score, type)
                else (maxScore, clauseType) in
  forall m t,
    fold_left step scores (m0, t0) = ((m, t) : nat * string) ->
    ((m, t) = (m0, t0) \/ (In (t, m) scores /\ m0 < m))
    /\ m0 <= m
    /\ (forall type score, In (type, score) scores -> score <= m).
Proof.
  intros step. revert m0 t0.
  induction scores as [|[t1 s1] scores IH]; intros m0 t0 m t; simpl.
  - intros [= <- <-]. repeat split; auto. intros ? ? [].
  - destruct (Nat.ltb_spec m0 s1) as [Hlt|Hge]; intros H.
    + destruct (IH _ _ _ _ H) as (Hwho & Hle & Hmax).
      repeat split.
      * right. destruct Hwho as [[= -> ->] | [Hin Hm]];
          [split; [left; reflexivity | assumption] | split; [right; assumption | lia]].
      * lia.
      * intros type score [[= <- <-] | Hin]; [assumption | eauto].
    + destruct (IH _ _ _ _ H) as (Hwho & Hle & Hmax).
      repeat split.
      * destruct Hwho as [E | [Hin Hm]]; [left; assumption | right; split; [right; assumption | assumption]].
      * assumption.
      * intros type score [[= <- <-] | Hin]; [lia | eauto].
Qed.

Lemma highest_spec scores m t :
  highest scores = (m, t) ->
  ((m = 0 /\ t = "general") \/ (0 < m /\ In (t, m) scores))
  /\ (forall type score, In (type, score) scores -> score <= m).
Proof.
  intros H. destruct (highest_from scores 0 "general" m t H) as (Hwho & _ & Hmax).
  split; [|exact Hmax].
  destruct Hwho as [[= -> ->] | [Hin Hm]]; [left; auto | right; auto].
Qed.

Lemma scores_of_in text type score :
  In (type, score) (scores_of text) ->
  exists patterns,
    In (type, patterns) CLAUSE_PATTERNS /\ score = score_of patterns text.
Proof.
  unfold scores_of. intros H. apply in_map_iff in H.
  destruct H as ([t ps] & [= <- <-] & Hin). eauto.
Qed.

Lemma scores_of_complete text type patterns :
  In (type, patterns) CLAUSE_PATTERNS ->
  In (type, score_of patterns text) (scores_of text).
Proof.
  intros H. unfold scores_of. apply in_map_iff.
  exists (type, patterns). auto.
Qed.

Lemma matching_bounded text : length (matching text) <= pattern_count.
Proof.
  unfold matching, pattern_count.
  induction CLAUSE_PATTERNS as [|[type patterns] table IH]; simpl; [lia|].
  rewrite length_app.
  pose proof (List.filter_length_le (fun p => test p text) patterns).
  unfold matching_of in *. lia.
Qed.

(** All the quotients the table allows, computed. *)
Lemma capped_ratio_table :
  forallb (fun t => forallb (fun m => within_unit (capped_ratio m t)
                                      && (capped_ratio m t =? number m / number t)%float)
                            (seq 0 (S t)))
          (seq 1 pattern_count) = true.
Proof. vm_compute. reflexivity. Qed.

Lemma capped_ratio_within m t :
  m <= t -> 0 < t -> t <= pattern_count ->
  within_unit (capped_ratio m t) = true.
Proof.
  intros Hm Ht Hmax.
  pose proof capped_ratio_table as H.
  rewrite forallb_forall in H.
  specialize (H t ltac:(apply in_seq; lia)).
  rewrite forallb_forall in H.
  specialize (H m ltac:(apply in_seq; lia)).
  apply andb_prop in H. tauto.
Qed.

Lemma no_score_no_sum (scores : list (string * nat)) :
  (forall type score, In (type, score) scores -> score <= 0) ->
  list_sum (map snd scores) = 0.
Proof.
  induction scores as [|[t s] scores IH]; simpl; intros H; [reflexivity|].
  rewrite IH by (intros; eapply H; eauto).
  specialize (H t s (or_introl eq_refl)). lia.
Qed.

(** The closed vocabulary: the twelve types of the table and the fallback. *)
Lemma CLAUSE_TYPES_vocabulary :
  CLAUSE_TYPES =
  [ "confidentiality"; "termination"; "liability"; "payment";
    "intellectual_property"; "governing_law"; "warranty"; "force_majeure";
    "assignment"; "amendment"; "entire_agreement"; "severability";
    "general" ].
Proof. reflexivity. Qed.

End Classification.

(** What [classifyClause] computes before it asks the document for the
    entities: whenever it returns, the type is of the fixed vocabulary and
    the confidence lies between 0 and 1; when no indicator matches, the type
    is "general" and the confidence 0.5; otherwise the type has the greatest
    score and the confidence is that score over the sum of the scores,
    capped at 1.0. *)
Lemma classifyClause_returned
      (compromise : jsstring -> ClauseService.Doc) (text : jsstring)
      (r : ClauseService.Classification) :
  ClauseService.classifyClause compromise text = inr r ->
  let total := length (matching text) in
  In (ClauseService.clause_type r) ClauseService.CLAUSE_TYPES
  /\ ((0 <=? ClauseService.confidence r)%float = true
      /\ (ClauseService.confidence r <=? 1)%float = true)
  /\ (total = 0 ->
      ClauseService.clause_type r = "general"%string
      /\ ClauseService.confidence r = 0.5%float)
  /\ (0 < total ->
      exists patterns,
        In (ClauseService.clause_type r, patterns)
           ClauseService.CLAUSE_PATTERNS
        /\ (forall type ps,
               In (type, ps) ClauseService.CLAUSE_PATTERNS ->
               length (matching_of text ps)
               <= length (matching_of text patterns))
        /\ ClauseService.confidence r
           = ClauseService.Math_min
               (ClauseService.number (length (matching_of text patterns))
                / ClauseService.number total)%float
               1%float).
Proof.
  intros Hr total.
  unfold ClauseService.classifyClause in Hr.
  destruct (ClauseService.highest (ClauseService.scores_of text))
    as [m t] eqn:Hh.
  destruct (ClauseService.entities_of (compromise text)) as [e | entities];
    [discriminate|].
  injection Hr as <-.
  cbn [ClauseService.clause_type ClauseService.confidence].
  rewrite totalMatches_count. fold total.
  destruct (highest_spec _ _ _ Hh) as (Hwho & Hmax).
  pose proof (totalMatches_count text) as Htotal.
  rewrite totalMatches_sum in Htotal. fold total in Htotal.
  destruct Hwho as [[-> ->] | [Hm Hin]].
  - (* no type scored *)
    rewrite (no_score_no_sum _ Hmax) in Htotal.
    rewrite <- Htotal.
    split; [|repeat split; try reflexivity; intros H; exfalso; lia].
    unfold ClauseService.CLAUSE_TYPES. apply in_or_app. right. left. reflexivity.
  - pose proof (score_in_sum _ _ _ Hin) as Hle. rewrite Htotal in Hle.
    destruct (scores_of_in _ _ _ Hin) as (patterns & Hp & Hscore).
    rewrite score_of_count in Hscore.
    assert (Hpos : 0 < total) by lia.
    destruct (Nat.ltb_spec 0 total) as [_|]; [|lia].
    pose proof (capped_ratio_within m total Hle Hpos (matching_bounded text))
      as Hunit.
    unfold within_unit, capped_ratio in Hunit. apply andb_prop in Hunit.
    destruct Hunit as [Hlo Hhi].
    split; [|split; [split; assumption|split]].
    + unfold ClauseService.CLAUSE_TYPES. apply in_or_app. left.
      apply in_map_iff. exists (t, patterns). auto.
    + intros Hzero. exfalso. lia.
    + intros _. exists patterns. repeat split.
      * assumption.
      * intros type ps Hps. rewrite <- Hscore, <- score_of_count.
        eapply Hmax. apply scores_of_complete. exact Hps.
      * rewrite <- Hscore. reflexivity.
Qed.

(** The entities are asked for in the order dates, money, organizations,
    people: a document without the [dates] method ends the call at once. *)
Lemma classifyClause_without_dates
      (compromise : jsstring -> ClauseService.Doc) (text : jsstring) :
  ClauseService.doc_dates (compromise text) = None ->
  ClauseService.classifyClause compromise text = inl Samples.dates_error.
Proof.
  intros Hdates. unfold ClauseService.classifyClause.
  destruct (ClauseService.highest (ClauseService.scores_of text)) as [m t].
  unfold ClauseService.entities_of. rewrite Hdates. reflexivity.
Qed.

(** [classifyClause] returns exactly when the document has the four
    methods. *)
Lemma classifyClause_returns_iff
      (compromise : jsstring -> ClauseService.Doc) (text : jsstring) :
  (exists r, ClauseService.classifyClause compromise text = inr r)
  <-> (ClauseService.doc_dates (compromise text) <> None
       /\ ClauseService.doc_money (compromise text) <> None
       /\ ClauseService.doc_organizations (compromise text) <> None
       /\ ClauseService.doc_people (compromise text) <> None).
Proof.
  unfold ClauseService.classifyClause.
  destruct (ClauseService.highest (ClauseService.scores_of text)) as [m t].
  unfold ClauseService.entities_of, ClauseService.invoke.
  destruct (ClauseService.doc_dates (compromise text)),
    (ClauseService.doc_money (compromise text)),
    (ClauseService.doc_organizations (compromise text)),
    (ClauseService.doc_people (compromise text));
    split;
    try (intros [r H]; discriminate);
    try (intros (H1 & H2 & H3 & H4); congruence);
    try (intros _; repeat split; discriminate);
    try (intros _; eexists; reflexivity).
Qed.

(** C5 (the defect). [classifyClause] computes the type and the confidence
    and then asks the document of [compromise] for its dates: for every text
    whose document has no [dates] method, as the documents of the package
    have without a plugin, and the service registers none, the call throws
    the TypeError "doc.dates is not a function" and returns neither a type
    nor a confidence. *)
Theorem classifyClause_throws_without_dates :
  forall (compromise : jsstring -> ClauseService.Doc) (text : jsstring),
    ClauseService.doc_dates (compromise text) = None ->
    ClauseService.classifyClause compromise text
    = inl (TypeError (lit "doc.dates is not a function"))
    /\ ~ (exists r, ClauseService.classifyClause compromise text = inr r).
Proof.
  intros compromise text Hdates.
  pose proof (classifyClause_without_dates compromise text Hdates) as H.
  split; [exact H|].
  intros [r Hr]. rewrite H in Hr. discriminate.
Qed.

(** C5 at [Samples.mixed_clause], a clause of three matching indicators,
    with the plain document. *)
Lemma classifyClause_throws_without_dates_witness :
  ClauseService.doc_dates (Samples.plain_document Samples.mixed_clause) = None
  /\ length (matching Samples.mixed_clause) = 3
  /\ ClauseService.classifyClause Samples.plain_document Samples.mixed_clause
     = inl (TypeError (lit "doc.dates is not a function")).
Proof.
  split; [reflexivity|]. split; [vm_compute; reflexivity|].
  apply (classifyClause_throws_without_dates Samples.plain_document
           Samples.mixed_clause).
  reflexivity.
Defined.

(** ** C6 and C7: the risk analysis *)

Section Risk.

Import ClauseService.

(** A loop over one tier: the level moves to the tier's level when a pattern
    of the tier matches, and every matching pattern pushes its flag. *)
Lemma check_tier_spec lvl flag text patterns l0 f0 :
  check_tier lvl flag text patterns (l0, f0)
  = (if existsb (fun p => test p text) patterns then lvl else l0,
     f0 ++ map flag (List.filter (fun p => test p text) patterns)).
Proof.
  unfold check_tier. revert l0 f0.
  induction patterns as [|p ps IH]; intros l0 f0; simpl.
  - rewrite app_nil_r. reflexivity.
  - destruct (test p text); simpl; rewrite IH.
    + rewrite <- app_assoc. simpl.
      destruct (existsb _ ps); reflexivity.
    + reflexivity.
Qed.

(** What [analyzeClauseRisk] returns, tier by tier. *)
Lemma analyzeClauseRisk_spec text clauseType :
  let hits tier := List.filter (fun p => test p text) tier in
  analyzeClauseRisk text clauseType =
  match hits (ri_high riskIndicators), hits (ri_medium riskIndicators) with
  | (_ :: _) as hs, _ =>
      {| risk_level := high; flags := map high_flag hs;
         requires_review := true |}
  | [], (_ :: _) as ms =>
      {| risk_level := medium; flags := map medium_flag ms;
         requires_review := true |}
  | [], [] =>
      {| risk_level := low; flags := []; requires_review := false |}
  end.
Proof.
  intros hits. unfold analyzeClauseRisk.
  rewrite check_tier_spec. cbn [fst snd app].
  assert (Hex : forall tier,
             existsb (fun p => test p text) tier
             = match hits tier with [] => false | _ => true end).
  { intros tier. unfold hits.
    induction tier as [|p ps IH]; simpl; [reflexivity|].
    destruct (test p text); simpl; [reflexivity | exact IH]. }
  rewrite Hex. fold (hits (ri_high riskIndicators)).
  destruct (hits (ri_high riskIndicators)) as [|h hs] eqn:Hh.
  - rewrite bool_decide_true by discriminate.
    rewrite check_tier_spec, Hex. cbn [fst snd app map].
    fold (hits (ri_medium riskIndicators)).
    destruct (hits (ri_medium riskIndicators)); reflexivity.
  - rewrite bool_decide_false by (intros H; apply H; reflexivity).
    cbn [fst snd]. reflexivity.
Qed.

End Risk.

(** C6. For every clause text that matches at least one high-risk indicator
    (and every clause type), whatever medium- and low-tier patterns it also
    matches, [analyzeClauseRisk] returns the level "high" with
    [requires_review] true, and its flags are exactly one flag of severity
    high per matching high-risk pattern, in the order of the table, each with
    the source of its pattern and the fixed message: as many flags as
    matching patterns, none for a medium-risk pattern (that tier is not
    evaluated). *)
Theorem analyzeClauseRisk_high :
  forall (text : jsstring) (clauseType : string),
    (exists p, In p (ClauseService.ri_high ClauseService.riskIndicators)
               /\ test p text = true) ->
    let r := ClauseService.analyzeClauseRisk text clauseType in
    let hits := List.filter (fun p => test p text)
                  (ClauseService.ri_high ClauseService.riskIndicators) in
    ClauseService.risk_level r = ClauseService.high
    /\ ClauseService.requires_review r = true
    /\ ClauseService.flags r
       = map (fun p =>
                {| ClauseService.severity := ClauseService.high;
                   ClauseService.pattern := source p;
                   ClauseService.message :=
                     "This clause contains potentially unfavorable terms" |})
             hits
    /\ length (ClauseService.flags r) = length hits.
Proof.
  intros text clauseType (p & Hin & Hp) r hits.
  subst r. rewrite analyzeClauseRisk_spec. cbv zeta. fold hits.
  assert (Hhit : In p hits) by (apply filter_In; auto).
  destruct hits as [|h hs]; [destruct Hhit|].
  cbn [ClauseService.risk_level ClauseService.requires_review
       ClauseService.flags].
  repeat split; try reflexivity.
  rewrite length_map. reflexivity.
Qed.

(** C7. For every clause text and clause type, the [requires_review] flag
    [analyzeClauseRisk] returns is true if and only if the risk level it
    returns is not "low". *)
Theorem analyzeClauseRisk_requires_review :
  forall (text : jsstring) (clauseType : string),
    let r := ClauseService.analyzeClauseRisk text clauseType in
    ClauseService.requires_review r = true
    <-> ClauseService.risk_level r <> ClauseService.low.
Proof.
  intros text clauseType r. subst r.
  unfold ClauseService.analyzeClauseRisk.
  cbn [ClauseService.requires_review ClauseService.risk_level].
  apply bool_decide_eq_true.
Qed.

(** C6 at [Samples.risky_clause]: the two high-risk flags, and no flag for the
    medium-risk patterns the clause also matches. *)
Lemma analyzeClauseRisk_high_witness :
  let r := ClauseService.analyzeClauseRisk Samples.risky_clause "termination" in
  ClauseService.risk_level r = ClauseService.high
  /\ ClauseService.requires_review r = true
  /\ ClauseService.flags r
     = [ {| ClauseService.severity := ClauseService.high;
            ClauseService.pattern := "perpetual";
            ClauseService.message :=
              "This clause contains potentially unfavorable terms" |};
         {| ClauseService.severity := ClauseService.high;
            ClauseService.pattern := "irrevocable";
            ClauseService.message :=
              "This clause contains potentially unfavorable terms" |} ]
  /\ length (ClauseService.flags r) = 2.
Proof.
  apply (analyzeClauseRisk_high Samples.risky_clause "termination").
  exists (Chars "perpetual"). split.
  - simpl. auto 10.
  - vm_compute. reflexivity.
Defined.

(** ** C8: cosine similarity *)

Section Cosine.

Import EmbeddingService.
Local Open Scope float_scope.

Lemma zero_vector_at v i :
  zero_vector v -> (i < length v)%nat ->
  at_index v i = 0 \/ at_index v i = -0.
Proof.
  intros Hv Hi. unfold at_index.
  destruct (v !! i) as [x|] eqn:E.
  - unfold zero_vector in Hv. rewrite List.Forall_forall in Hv. apply Hv.
    apply list_elem_of_In. eapply list_elem_of_lookup_2. exact E.
  - apply lookup_ge_None in E. lia.
Qed.

(** Squares of zeros add up to zero. *)
Lemma zero_square x : x = 0 \/ x = -0 -> 0 + x * x = 0.
Proof. intros [-> | ->]; reflexivity. Qed.

Lemma cosine_loop_norm1 e1 e2 idxs d n2 :
  (forall i, In i idxs -> at_index e1 i = 0 \/ at_index e1 i = -0) ->
  snd (fst (fold_left (cosine_step e1 e2) idxs (d, 0, n2))) = 0.
Proof.
  revert d n2. induction idxs as [|i idxs IH]; intros d n2 H; [reflexivity|].
  simpl. rewrite (zero_square _ (H i (or_introl eq_refl))).
  apply IH. intros; apply H; right; assumption.
Qed.

Lemma cosine_loop_norm2 e1 e2 idxs d n1 :
  (forall i, In i idxs -> at_index e2 i = 0 \/ at_index e2 i = -0) ->
  snd (fold_left (cosine_step e1 e2) idxs (d, n1, 0)) = 0.
Proof.
  revert d n1. induction idxs as [|i idxs IH]; intros d n1 H; [reflexivity|].
  simpl. rewrite (zero_square _ (H i (or_introl eq_refl))).
  apply IH. intros; apply H; right; assumption.
Qed.

Lemma cosineSimilarity_unfold e1 e2 :
  length e1 = length e2 ->
  cosineSimilarity e1 e2 =
  let acc := fold_left (cosine_step e1 e2) (seq 0 (length e1)) (0, 0, 0) in
  let norm1 := PrimFloat.sqrt (snd (fst acc)) in
  let norm2 := PrimFloat.sqrt (snd acc) in
  if (norm1 =? 0) || (norm2 =? 0) then inr 0
  else inr (fst (fst acc) / (norm1 * norm2)).
Proof.
  intros Hlen. unfold cosineSimilarity.
  rewrite (proj2 (Nat.eqb_eq _ _) Hlen). cbn [negb].
  rewrite for_range_unit. fold (cosine_step e1 e2).
  destruct (fold_left _ _ _) as [[d n1] n2]. reflexivity.
Qed.

End Cosine.

(** C8. [cosineSimilarity] of two vectors of differing length fails with the
    error "Embeddings must have the same dimension"; of two vectors of equal
    length one of which has zero magnitude (all its components are zeros) it
    returns 0. *)
Theorem cosineSimilarity_mismatch_and_zero :
  forall embedding1 embedding2 : list float,
    (length embedding1 <> length embedding2 ->
     EmbeddingService.cosineSimilarity embedding1 embedding2
     = inl (mkError (lit "Embeddings must have the same dimension")))
    /\ (length embedding1 = length embedding2 ->
        zero_vector embedding1 \/ zero_vector embedding2 ->
        EmbeddingService.cosineSimilarity embedding1 embedding2
        = inr 0%float).
Proof.
  intros e1 e2. split.
  - intros Hne. unfold EmbeddingService.cosineSimilarity.
    rewrite (proj2 (Nat.eqb_neq _ _) Hne). reflexivity.
  - intros Hlen Hzero. rewrite cosineSimilarity_unfold by assumption.
    cbv zeta. destruct Hzero as [Hz | Hz].
    + rewrite cosine_loop_norm1; [reflexivity|].
      intros i Hi. apply zero_vector_at; [assumption|].
      apply in_seq in Hi. lia.
    + rewrite cosine_loop_norm2.
      * change (PrimFloat.sqrt 0 =? 0)%float with true.
        rewrite orb_true_r. reflexivity.
      * intros i Hi. apply zero_vector_at; [assumption|].
        apply in_seq in Hi. lia.
Qed.

(** C8 at vectors of two and one components, and at a vector of zeros. *)
Lemma cosineSimilarity_mismatch_and_zero_witness :
  EmbeddingService.cosineSimilarity [1%float; 2%float] [1%float]
  = inl (mkError (lit "Embeddings must have the same dimension"))
  /\ EmbeddingService.cosineSimilarity [0%float; (-0)%float]
                                       [1%float; 3%float]
     = inr 0%float.
Proof.
  split.
  - apply (proj1 (cosineSimilarity_mismatch_and_zero
                    [1%float; 2%float] [1%float])).
    simpl. lia.
  - apply (proj2 (cosineSimilarity_mismatch_and_zero
                    [0%float; (-0)%float] [1%float; 3%float])).
    + reflexivity.
    + left. unfold zero_vector.
      constructor; [left; reflexivity|].
      constructor; [right; reflexivity | constructor].
Defined.

(** ** C9 and C10: the textual form of an embedding *)

Section Storage.

Import EmbeddingService.

Lemma strip_brackets_wrapped s :
  strip_brackets ([LBRACKET] ++ s ++ [RBRACKET]) = s.
Proof.
  unfold strip_brackets. simpl.
  rewrite rev_app_distr. simpl. apply rev_involutive.
Qed.

(** A fragment without a comma is read through to its end. *)
Lemma split_comma_last p cur :
  ~ In COMMA p ->
  split_scan re_comma 0 cur p = [rev cur ++ p].
Proof.
  revert cur. induction p as [|c p IH]; intros cur Hp; simpl.
  - rewrite app_nil_r. reflexivity.
  - destruct (N.eqb_spec c COMMA) as [-> | Hc]; [exfalso; apply Hp; left; reflexivity|].
    rewrite IH by (intros H; apply Hp; right; exact H).
    simpl. rewrite <- app_assoc. reflexivity.
Qed.

(** A fragment without a comma, up to the comma that ends it. *)
Lemma split_comma_next p cur rest :
  ~ In COMMA p ->
  split_scan re_comma 0 cur (p ++ COMMA :: rest)
  = (rev cur ++ p) :: split_scan re_comma 0 [] rest.
Proof.
  revert cur. induction p as [|c p IH]; intros cur Hp; simpl.
  - rewrite app_nil_r. reflexivity.
  - destruct (N.eqb_spec c COMMA) as [-> | Hc]; [exfalso; apply Hp; left; reflexivity|].
    rewrite IH by (intros H; apply Hp; right; exact H).
    simpl. rewrite <- app_assoc. reflexivity.
Qed.

(** [split] undoes [join] on a non-empty array of comma-free strings. *)
Lemma split_join_comma parts :
  parts <> [] ->
  Forall (fun p => ~ In COMMA p) parts ->
  split re_comma (join [COMMA] parts) = parts.
Proof.
  unfold split. induction parts as [|p parts IH]; intros Hne Hall; [congruence|].
  inversion Hall as [|? ? Hp Hps]; subst.
  destruct parts as [|q parts].
  - simpl. apply (split_comma_last p []). assumption.
  - change (join [COMMA] (p :: q :: parts))
      with (p ++ COMMA :: join [COMMA] (q :: parts)).
    rewrite split_comma_next by assumption.
    rewrite IH by (congruence || assumption). reflexivity.
Qed.

Variable Number_toString : float -> jsstring.
Variable parseFloat : jsstring -> float.

(** The round trip of a non-empty vector: each number is printed and read
    back on its own. *)
Lemma parse_format_nonempty v :
  v <> [] ->
  (forall x, In x v -> ~ In COMMA (Number_toString x)) ->
  parseEmbeddingFromDB parseFloat (formatEmbeddingForDB Number_toString v)
  = map (fun x => parseFloat (Number_toString x)) v.
Proof.
  intros Hne Hcomma.
  unfold parseEmbeddingFromDB, formatEmbeddingForDB.
  rewrite strip_brackets_wrapped, split_join_comma.
  - apply map_map.
  - destruct v; [congruence | discriminate].
  - apply Forall_map. apply List.Forall_forall. exact Hcomma.
Qed.

(** The round trip of the empty vector: the empty string between the
    brackets is split into one empty token. *)
Lemma parse_format_empty :
  formatEmbeddingForDB Number_toString [] = lit "[]"
  /\ parseEmbeddingFromDB parseFloat (formatEmbeddingForDB Number_toString [])
     = [parseFloat []].
Proof. split; reflexivity. Qed.

Lemma Forall2_round_trip (tolerance : float -> float -> Prop) v :
  (forall x, In x v -> tolerance (parseFloat (Number_toString x)) x) ->
  Forall2 tolerance (map (fun x => parseFloat (Number_toString x)) v) v.
Proof.
  induction v as [|x v IH]; intros H; simpl; constructor.
  - apply H. left. reflexivity.
  - apply IH. intros y Hy. apply H. right. exact Hy.
Qed.

End Storage.

(** C9. For every embedding vector of the dimension of the model, formatting
    it with [formatEmbeddingForDB] and parsing the text back with
    [parseEmbeddingFromDB] yields the original values within the tolerance of
    the two conversions of the language: provided [Number.prototype.toString]
    writes no comma and [parseFloat] reads what it writes back within
    [tolerance], on the components of the vector. *)
Theorem embedding_round_trip :
  forall (Number_toString : float -> jsstring)
         (parseFloat : jsstring -> float)
         (tolerance : float -> float -> Prop)
         (embedding : list float),
    length embedding = EmbeddingService.EMBEDDING_DIMENSION ->
    (forall x, In x embedding -> ~ In COMMA (Number_toString x)) ->
    (forall x, In x embedding ->
               tolerance (parseFloat (Number_toString x)) x) ->
    Forall2 tolerance
      (EmbeddingService.parseEmbeddingFromDB parseFloat
         (EmbeddingService.formatEmbeddingForDB Number_toString embedding))
      embedding.
Proof.
  intros Number_toString parseFloat tolerance v Hlen Hcomma Hback.
  rewrite parse_format_nonempty.
  - apply Forall2_round_trip. exact Hback.
  - intros ->. discriminate Hlen.
  - exact Hcomma.
Qed.

(** C10. The round trip holds for non-empty vectors only. For every non-empty
    vector (whose numbers print without a comma) the parsed vector has the
    length of the original and its values are the original ones, each read
    back from its own printed form; for the empty vector the formatted text
    is "[]" and parsing it returns the one-element list holding [NaN] ([NaN]
    being what [parseFloat] returns for the empty string). *)
Theorem embedding_round_trip_nonempty_only :
  forall (Number_toString : float -> jsstring)
         (parseFloat : jsstring -> float),
    parseFloat [] = nan ->
    (forall v : list float,
        v <> [] ->
        (forall x, In x v -> ~ In COMMA (Number_toString x)) ->
        let back :=
          EmbeddingService.parseEmbeddingFromDB parseFloat
            (EmbeddingService.formatEmbeddingForDB Number_toString v) in
        length back = length v
        /\ back = map (fun x => parseFloat (Number_toString x)) v
        /\ forall tolerance : float -> float -> Prop,
             (forall x, In x v ->
                        tolerance (parseFloat (Number_toString x)) x) ->
             Forall2 tolerance back v)
    /\ EmbeddingService.formatEmbeddingForDB Number_toString [] = lit "[]"
    /\ EmbeddingService.parseEmbeddingFromDB parseFloat
         (EmbeddingService.formatEmbeddingForDB Number_toString [])
       = [nan].
Proof.
  intros Number_toString parseFloat Hnan. split; [|split].
  - intros v Hne Hcomma back. subst back.
    rewrite parse_format_nonempty by assumption.
    split; [apply length_map | split; [reflexivity|]].
    intros tolerance Hback. apply Forall2_round_trip. exact Hback.
  - reflexivity.
  - rewrite <- Hnan. reflexivity.
Qed.

(** Checking a property of the components of a vector by computation. *)
Lemma checked_on (P : float -> Prop) (f : float -> bool) (v : list float) :
  (forall x, f x = true -> P x) ->
  forallb f v = true ->
  forall x, In x v -> P x.
Proof.
  intros Hf Hv x Hx. apply Hf.
  rewrite forallb_forall in Hv. apply Hv. exact Hx.
Qed.

Lemma no_comma_check (s : jsstring) :
  negb (existsb (N.eqb COMMA) s) = true -> ~ In COMMA s.
Proof.
  intros H Hin. apply negb_true_iff in H.
  assert (existsb (N.eqb COMMA) s = true) as E.
  { apply existsb_exists. exists COMMA. split; [exact Hin | apply N.eqb_refl]. }
  congruence.
Qed.

(** C9 at [Samples.sample_embedding], with the sample conversions and
    equality of numbers as the tolerance. *)
Lemma embedding_round_trip_witness :
  Forall2 (fun a b => (a =? b)%float = true)
    (EmbeddingService.parseEmbeddingFromDB Samples.sample_parseFloat
       (EmbeddingService.formatEmbeddingForDB Samples.sample_toString
          Samples.sample_embedding))
    Samples.sample_embedding.
Proof.
  apply (embedding_round_trip Samples.sample_toString Samples.sample_parseFloat
           (fun a b => (a =? b)%float = true) Samples.sample_embedding).
  - reflexivity.
  - apply (checked_on _ (fun x => negb (existsb (N.eqb COMMA)
                                          (Samples.sample_toString x)))).
    + intros x. apply no_comma_check.
    + vm_compute. reflexivity.
  - apply (checked_on _ (fun x => (Samples.sample_parseFloat
                                     (Samples.sample_toString x) =? x)%float)).
    + intros x H. exact H.
    + vm_compute. reflexivity.
Defined.

(** C10 with the sample conversions: a vector of two numbers comes back, the
    empty vector comes back as [[NaN]]. *)
Lemma embedding_round_trip_nonempty_only_witness :
  EmbeddingService.parseEmbeddingFromDB Samples.sample_parseFloat
    (EmbeddingService.formatEmbeddingForDB Samples.sample_toString
       [0.5%float; 1%float])
  = [0.5%float; 1%float]
  /\ EmbeddingService.parseEmbeddingFromDB Samples.sample_parseFloat
       (EmbeddingService.formatEmbeddingForDB Samples.sample_toString [])
     = [nan].
Proof.
  destruct (embedding_round_trip_nonempty_only
              Samples.sample_toString Samples.sample_parseFloat eq_refl)
    as (Hfull & _ & Hempty).
  split; [|exact Hempty].
  destruct (Hfull [0.5%float; 1%float]) as (_ & Hback & _).
  - discriminate.
  - apply (checked_on _ (fun x => negb (existsb (N.eqb COMMA)
                                          (Samples.sample_toString x)))).
    + intros x. apply no_comma_check.
    + vm_compute. reflexivity.
  - rewrite Hback. vm_compute. reflexivity.
Defined.

(** ** C2, C3 and C4: the job processor *)

Section ProcessorProperties.

Import ClauseService QueueService.

Context {Details : Type} (env : Collaborators Details).

(** One turn of the loop never throws: the clause leaves its row or nothing,
    and the other tables are not touched. *)
Lemma process_clause_spec job clause (db : Database Details) :
  process_clause Details env job clause db
  = (inr tt,
     {| contracts := db.(contracts Details);
        processing_jobs := db.(processing_jobs Details);
        clauses := db.(clauses Details)
                   ++ option_list (persisted env job clause) |}).
Proof.
  unfold process_clause, try_catch, bind, await, persisted, insert_clause.
  destruct db as [cs js rows]. simpl.
  destruct (generateEmbedding Details env (c_text clause)) as [e | embedding];
    simpl.
  - rewrite app_nil_r. reflexivity.
  - destruct (insert_error Details env _); simpl;
      [rewrite app_nil_r|]; reflexivity.
Qed.

(** The loop attempts every clause, in order. *)
Lemma for_of_process_clause job cs (db : Database Details) :
  for_of Details cs (process_clause Details env job) db
  = (inr tt,
     {| contracts := db.(contracts Details);
        processing_jobs := db.(processing_jobs Details);
        clauses := db.(clauses Details) ++ omap (persisted env job) cs |}).
Proof.
  revert db. induction cs as [|c cs IH]; intros db; simpl.
  - destruct db. unfold ret. simpl. rewrite app_nil_r. reflexivity.
  - unfold bind at 1. rewrite process_clause_spec, IH. simpl.
    rewrite <- app_assoc.
    destruct (persisted env job c); reflexivity.
Qed.

(** A run whose extraction and classification succeed. *)
Lemma process_extracted job (db : Database Details) extraction cs :
  extractText Details env job.(filePath) job.(fileType) = inr extraction ->
  extractAndClassifyClauses Details env extraction.(ExtractionService.text)
  = inr cs ->
  process Details env job db
  = (inr {| ret_success := true;
            ret_contractId := job.(contractId);
            ret_textLength := length extraction.(ExtractionService.text);
            ret_metadata := extraction.(ExtractionService.metadata);
            ret_clauseCount := length cs |},
     {| contracts :=
          alter (set_status Details analyzed) job.(contractId)
            (alter (set_extracted Details extraction) job.(contractId)
               db.(contracts Details));
        processing_jobs :=
          alter (set_job_completed (result_of extraction cs)) job.(jobId)
            (alter set_job_processing job.(jobId)
               db.(processing_jobs Details));
        clauses := db.(clauses Details) ++ omap (persisted env job) cs |}).
Proof.
  intros Hex Hcs. unfold process, try_catch.
  unfold bind at 1. unfold update_job at 1. cbn beta iota.
  unfold bind at 1. rewrite Hex. unfold await at 1, ret at 1. cbn beta iota.
  unfold bind at 1. unfold update_contract at 1. cbn beta iota.
  unfold bind at 1. rewrite Hcs. unfold await at 1, ret at 1. cbn beta iota.
  unfold bind at 1. rewrite for_of_process_clause. cbn beta iota.
  reflexivity.
Qed.

(** A run whose extraction succeeds and whose classification throws: the
    text and the metadata are already on the contract when the handler marks
    it failed. *)
Lemma process_not_classified job (db : Database Details) extraction error :
  extractText Details env job.(filePath) job.(fileType) = inr extraction ->
  extractAndClassifyClauses Details env extraction.(ExtractionService.text)
  = inl error ->
  process Details env job db
  = (inl error,
     {| contracts :=
          alter (set_status Details failed) job.(contractId)
            (alter (set_extracted Details extraction) job.(contractId)
               db.(contracts Details));
        processing_jobs :=
          alter (set_job_failed error.(error_message)) job.(jobId)
            (alter set_job_processing job.(jobId)
               db.(processing_jobs Details));
        clauses := db.(clauses Details) |}).
Proof.
  intros Hex Hcs. unfold process, try_catch.
  unfold bind at 1. unfold update_job at 1. cbn beta iota.
  unfold bind at 1. rewrite Hex. unfold await at 1, ret at 1. cbn beta iota.
  unfold bind at 1. unfold update_contract at 1. cbn beta iota.
  unfold bind at 1. rewrite Hcs. unfold await at 1, throw at 1.
  cbn beta iota.
  reflexivity.
Qed.

(** A run whose extraction fails. *)
Lemma process_not_extracted job (db : Database Details) error :
  extractText Details env job.(filePath) job.(fileType) = inl error ->
  process Details env job db
  = (inl error,
     {| contracts :=
          alter (set_status Details failed) job.(contractId)
            db.(contracts Details);
        processing_jobs :=
          alter (set_job_failed error.(error_message)) job.(jobId)
            (alter set_job_processing job.(jobId)
               db.(processing_jobs Details));
        clauses := db.(clauses Details) |}).
Proof.
  intros Hex. unfold process, try_catch.
  unfold bind at 1. unfold update_job at 1. cbn beta iota.
  unfold bind at 1. rewrite Hex. unfold await, throw at 1. cbn beta iota.
  reflexivity.
Qed.

Lemma Array_map_length {A B} (f : A -> result B) xs ys :
  Array_map f xs = inr ys -> length ys = length xs.
Proof.
  revert ys. induction xs as [|x xs IH]; intros ys; cbn [Array_map].
  - intros [= <-]. reflexivity.
  - destruct (f x); [discriminate|].
    destruct (Array_map f xs) as [e | ys']; [discriminate|].
    intros [= <-]. cbn [length]. rewrite (IH ys' eq_refl). reflexivity.
Qed.

(** When it returns, [extractAndClassifyClauses] returns one clause per
    segmented clause. *)
Lemma extractAndClassifyClauses_length (contract : jsstring) cs :
  extractAndClassifyClauses Details env contract = inr cs ->
  length cs = length (segmentClauses env.(tokenize Details) contract).
Proof.
  unfold extractAndClassifyClauses, ClauseService.extractAndClassifyClauses.
  apply Array_map_length.
Qed.

(** With documents that lack the [dates] method the classification of the
    first clause throws: [extractAndClassifyClauses] returns for a text
    without a clause only. *)
Lemma extractAndClassifyClauses_without_dates (contract : jsstring) :
  without_dates env ->
  match segmentClauses env.(tokenize Details) contract with
  | [] => extractAndClassifyClauses Details env contract = inr []
  | _ :: _ =>
      extractAndClassifyClauses Details env contract = inl Samples.dates_error
  end.
Proof.
  intros Hdates.
  unfold extractAndClassifyClauses, ClauseService.extractAndClassifyClauses.
  destruct (segmentClauses env.(tokenize Details) contract) as [|c cs];
    [reflexivity|].
  cbn [Array_map]. unfold process_raw at 1.
  rewrite (classifyClause_without_dates _ _ (Hdates _)). reflexivity.
Qed.

(** [extractText] on a file that is neither a PDF nor a Word document. *)
Lemma extractText_unsupported (filePath fileType : jsstring) :
  let ext := env.(toLowerCase Details) (env.(extname Details) filePath) in
  ext <> lit ".pdf" -> ext <> lit ".docx" -> ext <> lit ".doc" ->
  fileType <> lit "application/pdf" ->
  includes fileType (lit "wordprocessingml") = false ->
  extractText Details env filePath fileType
  = inl (mkError (lit "Unsupported file type: " ++ ext)).
Proof.
  intros ext Hpdf Hdocx Hdoc Htype Hword.
  unfold extractText, ExtractionService.extractText. fold ext.
  unfold JS.eqb. rewrite !bool_decide_false by assumption.
  rewrite Hword. reflexivity.
Qed.

End ProcessorProperties.

(** C2 (the defect). The loop over the clauses does catch the failure of
    an embedding or of an insertion, but it is not reached with a clause:
    the clauses are classified before it, outside its [try], and the
    classification of the first clause throws when the documents of
    [compromise] lack the [dates] method, as those of the package do without
    a plugin. In a run whose extraction succeeds and whose text yields one
    clause or more, on a database that holds the contract and the job, the
    processor throws the TypeError "doc.dates is not a function", the
    contract ends with status "failed", the job with status "failed" and
    that message as its error, and no clause is persisted, whatever the
    embedding model and the database would have done. *)
Theorem process_aborts_at_classification :
  forall (Details : Type) (env : QueueService.Collaborators Details)
         (job : QueueService.JobData) (db : QueueService.Database Details)
         (extraction : ExtractionService.Extraction Details)
         (contract : QueueService.ContractRow Details)
         (jobrow : QueueService.JobRow),
    without_dates env ->
    QueueService.extractText Details env job.(QueueService.filePath)
      job.(QueueService.fileType) = inr extraction ->
    ClauseService.segmentClauses env.(QueueService.tokenize Details)
      extraction.(ExtractionService.text) <> [] ->
    db.(QueueService.contracts Details) !! job.(QueueService.contractId)
    = Some contract ->
    db.(QueueService.processing_jobs Details) !! job.(QueueService.jobId)
    = Some jobrow ->
    let outcome := QueueService.process Details env job db in
    let db' := snd outcome in
    fst outcome = inl (TypeError (lit "doc.dates is not a function"))
    /\ (exists c',
           db'.(QueueService.contracts Details) !! job.(QueueService.contractId)
           = Some c'
           /\ c'.(QueueService.ct_status Details) = QueueService.failed)
    /\ (exists j',
           db'.(QueueService.processing_jobs Details)
             !! job.(QueueService.jobId) = Some j'
           /\ j'.(QueueService.jb_status) = QueueService.job_failed
           /\ j'.(QueueService.jb_error)
              = Some (lit "doc.dates is not a function"))
    /\ db'.(QueueService.clauses Details) = db.(QueueService.clauses Details).
Proof.
  intros Details env job db extraction contract jobrow Hdates Hex Hseg Hc Hj
    outcome db'.
  pose proof (extractAndClassifyClauses_without_dates env
                extraction.(ExtractionService.text) Hdates) as Hcs.
  destruct (ClauseService.segmentClauses env.(QueueService.tokenize Details)
              extraction.(ExtractionService.text)) as [|c cs];
    [congruence|].
  subst db' outcome.
  rewrite (process_not_classified env job db extraction _ Hex Hcs).
  cbn [fst snd QueueService.clauses QueueService.contracts
       QueueService.processing_jobs].
  split; [reflexivity|]. split; [|split; [|reflexivity]].
  - rewrite !lookup_alter_eq, Hc. cbn. eauto.
  - rewrite !lookup_alter_eq, Hj. cbn. eauto.
Qed.


(** C4. If the extraction of the text fails, on a database that holds the
    contract and the job, the processor throws the error of the extraction,
    the contract ends with status "failed", the job with status "failed" and
    the message of the error as its error, and the run adds no row to the
    clauses. *)
Theorem process_extraction_failure :
  forall (Details : Type) (env : QueueService.Collaborators Details)
         (job : QueueService.JobData) (db : QueueService.Database Details)
         (error : Error)
         (contract : QueueService.ContractRow Details)
         (jobrow : QueueService.JobRow),
    QueueService.extractText Details env job.(QueueService.filePath)
      job.(QueueService.fileType) = inl error ->
    db.(QueueService.contracts Details) !! job.(QueueService.contractId)
    = Some contract ->
    db.(QueueService.processing_jobs Details) !! job.(QueueService.jobId)
    = Some jobrow ->
    let outcome := QueueService.process Details env job db in
    let db' := snd outcome in
    fst outcome = inl error
    /\ (exists c',
           db'.(QueueService.contracts Details) !! job.(QueueService.contractId)
           = Some c'
           /\ c'.(QueueService.ct_status Details) = QueueService.failed)
    /\ (exists j',
           db'.(QueueService.processing_jobs Details)
             !! job.(QueueService.jobId) = Some j'
           /\ j'.(QueueService.jb_status) = QueueService.job_failed
           /\ j'.(QueueService.jb_error) = Some error.(error_message))
    /\ db'.(QueueService.clauses Details) = db.(QueueService.clauses Details).
Proof.
  intros Details env job db error contract jobrow Hex Hc Hj outcome db'.
  subst db' outcome. rewrite (process_not_extracted env job db error Hex).
  cbn [fst snd QueueService.clauses QueueService.contracts
       QueueService.processing_jobs].
  split; [reflexivity|]. split; [|split; [|reflexivity]].
  - rewrite lookup_alter_eq, Hc. cbn. eauto.
  - rewrite !lookup_alter_eq, Hj. cbn. eauto.
Qed.

(** C2 on the sample document: ten clauses are cut, the classification of
    the first throws, the contract and the job are marked failed and no row
    is written, where the embedding of one clause only would have failed. *)
Lemma process_aborts_at_classification_witness :
  let outcome := QueueService.process unit Samples.sample_env
                   Samples.pdf_job Samples.sample_db in
  let db' := snd outcome in
  length (ClauseService.segmentClauses
            (QueueService.tokenize unit Samples.sample_env)
            Samples.ten_paragraphs) = 10
  /\ fst outcome = inl (TypeError (lit "doc.dates is not a function"))
  /\ (exists c',
         db'.(QueueService.contracts unit) !! 1%N = Some c'
         /\ c'.(QueueService.ct_status unit) = QueueService.failed)
  /\ (exists j',
         db'.(QueueService.processing_jobs unit) !! 3%N = Some j'
         /\ j'.(QueueService.jb_status) = QueueService.job_failed
         /\ j'.(QueueService.jb_error)
            = Some (lit "doc.dates is not a function"))
  /\ db'.(QueueService.clauses unit) = [].
Proof.
  split; [vm_compute; reflexivity|].
  apply (process_aborts_at_classification unit Samples.sample_env
           Samples.pdf_job Samples.sample_db Samples.pdf_extraction
           Samples.uploaded_contract Samples.pending_job).
  - intros text. reflexivity.
  - vm_compute. reflexivity.
  - vm_compute. discriminate.
  - reflexivity.
  - reflexivity.
Defined.


(** C4 on a text file: the extraction throws "Unsupported file type: .txt",
    the contract and the job are marked failed, the job holds the message,
    and no clause is written. *)
Lemma process_extraction_failure_witness :
  let outcome := QueueService.process unit Samples.sample_env
                   Samples.txt_job Samples.sample_db in
  let db' := snd outcome in
  fst outcome = inl Samples.txt_error
  /\ (exists c',
         db'.(QueueService.contracts unit) !! 1%N = Some c'
         /\ c'.(QueueService.ct_status unit) = QueueService.failed)
  /\ (exists j',
         db'.(QueueService.processing_jobs unit) !! 3%N = Some j'
         /\ j'.(QueueService.jb_status) = QueueService.job_failed
         /\ j'.(QueueService.jb_error)
            = Some (lit "Unsupported file type: .txt"))
  /\ db'.(QueueService.clauses unit) = [].
Proof.
  apply (process_extraction_failure unit Samples.sample_env Samples.txt_job
           Samples.sample_db Samples.txt_error
           Samples.uploaded_contract Samples.pending_job).
  - vm_compute. reflexivity.
  - reflexivity.
  - reflexivity.
Defined.

(* ================================================================== *)
(** * Part III: further properties of the services *)
(* ================================================================== *)

(** ** Trimming and splitting *)

Lemma span_app p s : fst (span p s) ++ snd (span p s) = s.
Proof.
  induction s as [|c s IH]; simpl; [reflexivity|].
  destruct (p c); [|reflexivity].
  destruct (span p s) as [a b]. simpl in *. rewrite IH. reflexivity.
Qed.

Lemma span_rest_head p s :
  match snd (span p s) with c :: _ => p c = false | [] => True end.
Proof.
  induction s as [|c s IH]; simpl; [exact I|].
  destruct (p c) eqn:E; [|exact E].
  destruct (span p s) as [a b]. exact IH.
Qed.

Lemma span_all_false p s :
  match s with c :: _ => p c = false | [] => True end ->
  span p s = ([], s).
Proof. destruct s as [|c s]; simpl; [reflexivity|]. intros ->. reflexivity. Qed.

Lemma length_span p s : length (snd (span p s)) <= length s.
Proof.
  rewrite <- (span_app p s) at 2. rewrite length_app. lia.
Qed.

Lemma trimStart_head s :
  match trimStart s with c :: _ => isSpace c = false | [] => True end.
Proof. apply span_rest_head. Qed.

Lemma trimStart_fixed s :
  match s with c :: _ => isSpace c = false | [] => True end ->
  trimStart s = s.
Proof. intros H. unfold trimStart. rewrite span_all_false by exact H. reflexivity. Qed.

Lemma head_of_prefix (a b : jsstring) :
  match a ++ b with c :: _ => isSpace c = false | [] => True end ->
  match a with c :: _ => isSpace c = false | [] => True end.
Proof. destruct a; simpl; auto. Qed.

(** What [trim] returns has no white space left to trim. *)
Lemma trim_trim s : trim (trim s) = trim s.
Proof.
  unfold trim, trimEnd.
  set (x := trimStart s).
  set (y := trimStart (rev x)).
  assert (Hx : match x with c :: _ => isSpace c = false | [] => True end)
    by apply trimStart_head.
  assert (Hy : match y with c :: _ => isSpace c = false | [] => True end)
    by apply trimStart_head.
  assert (Hsplit : x = rev y ++ rev (fst (span isSpace (rev x)))).
  { rewrite <- rev_app_distr. unfold y, trimStart.
    rewrite span_app. symmetry. apply rev_involutive. }
  assert (Hry : trimStart (rev y) = rev y).
  { apply trimStart_fixed. rewrite Hsplit in Hx.
    exact (head_of_prefix _ _ Hx). }
  rewrite Hry, rev_involutive. f_equal. apply trimStart_fixed. exact Hy.
Qed.

Lemma length_trim s : length (trim s) <= length s.
Proof.
  unfold trim, trimEnd, trimStart.
  rewrite length_rev.
  pose proof (length_span isSpace (rev (snd (span isSpace s)))).
  pose proof (length_span isSpace s).
  rewrite length_rev in *. lia.
Qed.

(** [split] returns at least one fragment, and (for an expression without
    a capture) at most one more than the text has characters. *)
Lemma split_scan_nonempty m skip cur s : split_scan m skip cur s <> [].
Proof.
  revert skip cur. induction s as [|c s IH]; intros skip cur; simpl.
  - discriminate.
  - destruct skip; [|apply IH].
    destruct (m (c :: s)) as [[caps [|n]]|]; try apply IH. discriminate.
Qed.

Lemma split_scan_length m skip cur s :
  (forall t caps n, m t = Some (caps, n) -> caps = []) ->
  length (split_scan m skip cur s) <= length s + 1.
Proof.
  intros Hm. revert skip cur.
  induction s as [|c s IH]; intros skip cur; simpl; [lia|].
  destruct skip; [|specialize (IH skip cur); lia].
  destruct (m (c :: s)) as [[caps [|n]]|] eqn:E.
  - specialize (IH 0 (c :: cur)). lia.
  - rewrite (Hm _ _ _ E). simpl. specialize (IH n []). lia.
  - specialize (IH 0 (c :: cur)). lia.
Qed.

Lemma re_spaces_no_capture t caps n : re_spaces t = Some (caps, n) -> caps = [].
Proof.
  unfold re_spaces. destruct (fst (span isSpace t)); [discriminate|].
  intros [= <- _]. reflexivity.
Qed.

Lemma re_comma_no_capture t caps n : re_comma t = Some (caps, n) -> caps = [].
Proof.
  unfold re_comma. destruct t as [|c t]; [discriminate|].
  destruct (c =? COMMA)%N; [|discriminate]. intros [= <- _]. reflexivity.
Qed.

Lemma word_count_bounds s :
  1 <= length (split re_spaces s) <= length s + 1.
Proof.
  split.
  - pose proof (split_scan_nonempty re_spaces 0 [] s) as H.
    unfold split. destruct (split_scan re_spaces 0 [] s); [congruence|].
    simpl. lia.
  - apply split_scan_length. apply re_spaces_no_capture.
Qed.

(** ** The segmented clauses *)

Section SegmentedTexts.

Import ClauseService.

Variable tokenize : jsstring -> list jsstring.

Lemma numbered_step_well_cut arr i c :
  In c (numbered_step arr i) -> well_cut c.
Proof.
  unfold numbered_step.
  destruct (arr !! i); [|intros []].
  destruct (arr !! (i + 1)) as [sectionText|]; [|intros []].
  destruct (truthy sectionText); simpl; [|intros []].
  destruct (Nat.ltb_spec 20 (length (trim sectionText))); [|intros []].
  intros [<- | []]. unfold well_cut. simpl.
  split; [apply trim_trim | split; [assumption | discriminate]].
Qed.

Lemma paragraph_step_well_cut index para c :
  In c (paragraph_step index para) -> well_cut c.
Proof.
  unfold paragraph_step. cbv zeta.
  destruct (Nat.ltb_spec 50 (length (trim para))); [|intros []].
  intros [<- | []]. unfold well_cut. simpl.
  split; [apply trim_trim | split; [lia | intros _; assumption]].
Qed.

Lemma sentence_step_well_cut sentences i c :
  In c (sentence_step sentences i) -> well_cut c.
Proof.
  unfold sentence_step. cbv zeta.
  destruct (Nat.ltb_spec 50 (length (trim (join [SPACE]
              (take sentencesPerClause (drop i sentences))))));
    [|intros []].
  intros [<- | []]. unfold well_cut. simpl.
  split; [apply trim_trim | split; [lia | intros _; assumption]].
Qed.

Lemma segmentClauses_well_cut text c :
  In c (segmentClauses tokenize text) -> well_cut c.
Proof.
  unfold segmentClauses.
  assert (Hn : In c (flat_map (numbered_step (split re_numbered text))
                       (for_range 1 (length (split re_numbered text)) 2)) ->
               well_cut c).
  { intros H. apply in_flat_map in H. destruct H as (i & _ & H).
    eapply numbered_step_well_cut. exact H. }
  assert (Hp : In c (concat (imap paragraph_step (split re_blank_line text))) ->
               well_cut c).
  { intros H. apply in_concat_imap in H. destruct H as (i & x & _ & H).
    eapply paragraph_step_well_cut. exact H. }
  assert (Hs : In c (flat_map (sentence_step (tokenize text))
                       (for_range 0 (length (tokenize text))
                                  sentencesPerClause)) ->
               well_cut c).
  { intros H. apply in_flat_map in H. destruct H as (i & _ & H).
    eapply sentence_step_well_cut. exact H. }
  destruct (3 <? length (split re_numbered text));
    match goal with |- context [(length ?l =? 0)] =>
      destruct (length l =? 0) end; assumption.
Qed.

End SegmentedTexts.

(** X1. Every clause [segmentClauses] returns, for every tokenizer and text,
    has a text that is already trimmed (trimming it again changes nothing)
    and longer than 20 code units; a clause without a section number (one cut
    from a paragraph or from sentences) is longer than 50. No clause is
    empty. *)
Theorem segmentClauses_texts_trimmed_and_long :
  forall (tokenize : jsstring -> list jsstring) (text : jsstring)
         (c : ClauseService.RawClause),
    In c (ClauseService.segmentClauses tokenize text) ->
    trim (ClauseService.text c) = ClauseService.text c
    /\ 20 < length (ClauseService.text c)
    /\ (ClauseService.section_number c = None ->
        50 < length (ClauseService.text c))
    /\ ClauseService.text c <> [].
Proof.
  intros tokenize text c H.
  destruct (segmentClauses_well_cut tokenize text c H) as (Ht & Hl & Hs).
  repeat split; try assumption.
  intros E. rewrite E in Hl. simpl in Hl. lia.
Qed.

(** X1 at the first clause of [Samples.three_sections]. *)
Lemma segmentClauses_texts_trimmed_and_long_witness :
  trim (ClauseService.text Cases.first_section)
  = ClauseService.text Cases.first_section
  /\ 20 < length (ClauseService.text Cases.first_section)
  /\ (ClauseService.section_number Cases.first_section = None ->
      50 < length (ClauseService.text Cases.first_section))
  /\ ClauseService.text Cases.first_section <> [].
Proof.
  apply (segmentClauses_texts_trimmed_and_long
           (fun t => [t]) Samples.three_sections Cases.first_section).
  vm_compute. left. reflexivity.
Defined.

(** ** The risk analysis below the high tier *)

Section RiskTiers.

Import ClauseService.

Lemma filter_none_matching text (tier : list regex) :
  (forall p, In p tier -> test p text = false) ->
  List.filter (fun p => test p text) tier = [].
Proof.
  induction tier as [|p tier IH]; intros H; simpl; [reflexivity|].
  rewrite (H p (or_introl eq_refl)). apply IH.
  intros q Hq. apply H. right. exact Hq.
Qed.

End RiskTiers.

(** X4. For every clause text that matches no high-risk indicator, the flags
    [analyzeClauseRisk] returns are exactly one flag of severity medium per
    matching medium-risk pattern, in the order of the table, with the message
    "This clause may require careful review". If some medium-risk pattern
    matches the level is "medium" and a review is required; if none matches
    the level is "low", there is no flag and no review is required, whatever
    reassuring (low-tier) patterns the text contains. *)
Theorem analyzeClauseRisk_below_high :
  forall (text : jsstring) (clauseType : string),
    (forall p, In p (ClauseService.ri_high ClauseService.riskIndicators) ->
               test p text = false) ->
    let r := ClauseService.analyzeClauseRisk text clauseType in
    let hits := List.filter (fun p => test p text)
                  (ClauseService.ri_medium ClauseService.riskIndicators) in
    ClauseService.flags r
    = map (fun p =>
             {| ClauseService.severity := ClauseService.medium;
                ClauseService.pattern := source p;
                ClauseService.message :=
                  "This clause may require careful review" |})
          hits
    /\ (hits <> [] ->
        ClauseService.risk_level r = ClauseService.medium
        /\ ClauseService.requires_review r = true)
    /\ (hits = [] ->
        ClauseService.risk_level r = ClauseService.low
        /\ ClauseService.requires_review r = false).
Proof.
  intros text clauseType Hhigh r hits. subst r.
  rewrite analyzeClauseRisk_spec. cbv zeta.
  rewrite (filter_none_matching text _ Hhigh). fold hits.
  destruct hits as [|h hs]; simpl.
  - split; [reflexivity|]. split; [intros Hne; congruence|].
    intros _. split; reflexivity.
  - split; [reflexivity|]. split; [intros _; split; reflexivity|].
    intros Hnil. discriminate.
Qed.

(** X4 at [Cases.cautious_clause]: three medium-risk flags, level medium. *)
Lemma analyzeClauseRisk_below_high_witness :
  let r := ClauseService.analyzeClauseRisk Cases.cautious_clause "general" in
  map ClauseService.pattern (ClauseService.flags r)
  = ["may terminate"; "at any time"; "without cause"]%string
  /\ ClauseService.risk_level r = ClauseService.medium
  /\ ClauseService.requires_review r = true.
Proof.
  destruct (analyzeClauseRisk_below_high Cases.cautious_clause "general")
    as (Hflags & Hsome & _).
  - intros p Hp. simpl in Hp.
    repeat (destruct Hp as [<- | Hp]; [vm_compute; reflexivity|]).
    destruct Hp.
  - split.
    + rewrite Hflags. vm_compute. reflexivity.
    + apply Hsome. vm_compute. discriminate.
Defined.

(** X5. For every clause text and clause type, every flag
    [analyzeClauseRisk] returns has the severity of the returned risk level
    (flags of two tiers are never mixed), there is no flag exactly when the
    level is "low", there are at most eight flags, and the result does not
    depend on the clause type passed. *)
Theorem analyzeClauseRisk_flags_agree_with_level :
  forall (text : jsstring) (clauseType clauseType' : string),
    let r := ClauseService.analyzeClauseRisk text clauseType in
    Forall (fun f => ClauseService.severity f = ClauseService.risk_level r)
           (ClauseService.flags r)
    /\ (ClauseService.flags r = []
        <-> ClauseService.risk_level r = ClauseService.low)
    /\ length (ClauseService.flags r) <= 8
    /\ ClauseService.analyzeClauseRisk text clauseType' = r.
Proof.
  intros text clauseType clauseType' r. subst r.
  split; [|split; [|split]]; [| | |reflexivity];
    rewrite analyzeClauseRisk_spec; cbv zeta.
  - destruct (List.filter _ (ClauseService.ri_high _)) as [|h hs];
      [destruct (List.filter _ (ClauseService.ri_medium _)) as [|m ms]|];
      cbn [ClauseService.flags ClauseService.risk_level];
      [constructor | |]; apply Forall_map, List.Forall_forall;
      intros p _; reflexivity.
  - destruct (List.filter _ (ClauseService.ri_high _)) as [|h hs];
      [destruct (List.filter _ (ClauseService.ri_medium _)) as [|m ms]|];
      cbn [ClauseService.flags ClauseService.risk_level map];
      split; intros H; try reflexivity; discriminate.
  - pose proof (List.filter_length_le (fun p => test p text)
                  (ClauseService.ri_high ClauseService.riskIndicators)) as Hh.
    pose proof (List.filter_length_le (fun p => test p text)
                  (ClauseService.ri_medium ClauseService.riskIndicators)) as Hm.
    change (length (ClauseService.ri_high ClauseService.riskIndicators))
      with 8 in Hh.
    change (length (ClauseService.ri_medium ClauseService.riskIndicators))
      with 6 in Hm.
    destruct (List.filter _ (ClauseService.ri_high _)) as [|h hs];
      [destruct (List.filter _ (ClauseService.ri_medium _)) as [|m ms]|];
      cbn [ClauseService.flags]; rewrite ?length_map; simpl in *; lia.
Qed.

(** ** The title of a clause *)

Section Titles.

Import ClauseService.

Lemma isUpper_not_space c : isUpper c = true -> isSpace c = false.
Proof.
  unfold isUpper, isSpace, between. intros H.
  apply andb_true_iff in H. destruct H as [H1 H2].
  apply N.leb_le in H1. apply N.leb_le in H2.
  repeat match goal with
         | |- context [(?a <=? ?b)%N] => destruct (N.leb_spec a b); try lia
         | |- context [(?a =? ?b)%N] => destruct (N.eqb_spec a b); try lia
         end;
    try reflexivity.
Qed.

(** Trimming a string that starts with a character other than white space
    leaves that character. *)
Lemma trim_keeps_head c s :
  isSpace c = false -> exists s', trim (c :: s) = c :: s'.
Proof.
  intros Hc. unfold trim, trimEnd.
  rewrite (trimStart_fixed (c :: s)) by exact Hc.
  pose proof (span_app isSpace (rev (c :: s))) as Happ.
  pose proof (span_rest_head isSpace (rev (c :: s))) as Hhead.
  fold (trimStart (rev (c :: s))) in Happ, Hhead.
  set (w := fst (span isSpace (rev (c :: s)))) in *.
  assert (Hw : Forall (fun x => isSpace x = true) w).
  { subst w. generalize (rev (c :: s)). intros l.
    induction l as [|x l IH]; simpl; [constructor|].
    destruct (isSpace x) eqn:E; [|constructor].
    destruct (span isSpace l). simpl in *. constructor; assumption. }
  assert (Hrev : c :: s = rev (trimStart (rev (c :: s))) ++ rev w).
  { rewrite <- rev_app_distr, Happ, rev_involutive. reflexivity. }
  destruct (rev (trimStart (rev (c :: s)))) as [|c' s'] eqn:E.
  - exfalso. simpl in Hrev.
    assert (Hin : In c (rev w)) by (rewrite <- Hrev; left; reflexivity).
    apply in_rev in Hin. rewrite List.Forall_forall in Hw.
    specialize (Hw c Hin). congruence.
  - simpl in Hrev. injection Hrev as -> _. eauto.
Qed.

Lemma capsMatch_length text t :
  capsMatch text = Some t ->
  length t <= 51 /\ exists c s, t = c :: s /\ isUpper c = true.
Proof.
  unfold capsMatch. destruct text as [|c rest]; [discriminate|].
  destruct (isUpper c) eqn:Hc; [|discriminate]. cbv zeta.
  destruct (List.find _ _) as [n|] eqn:Hfind; [|discriminate].
  intros [= <-]. apply find_some in Hfind. destruct Hfind as [Hin _].
  apply in_rev, in_seq in Hin.
  split.
  - simpl. rewrite length_take. lia.
  - exists c, (take n rest). split; [reflexivity | exact Hc].
Qed.

Lemma numberedMatch_length text t :
  numberedMatch text = Some t ->
  length t <= 51 /\ exists c s, t = c :: s /\ isUpper c = true.
Proof.
  unfold numberedMatch. destruct (span isDigit text) as [d s1].
  destruct d as [|d0 d]; [discriminate|].
  destruct (span isSpace _) as [w s3].
  destruct w as [|w0 w]; [discriminate|].
  destruct s3 as [|c rest]; [discriminate|].
  destruct (isUpper c) eqn:Hc; [|discriminate]. cbv zeta.
  set (m := Nat.min 50 (length (fst (span isUpperOrSpace rest)))).
  assert (Hm : m <= 50) by (subst m; lia). clearbody m.
  destruct (3 <=? m); [|discriminate].
  intros [= <-]. split.
  - cbn [length]. rewrite length_take. lia.
  - eexists _, _. split; [reflexivity | exact Hc].
Qed.

Lemma boldMatch_length text t :
  boldMatch text = Some t ->
  length t <= 51 /\ exists c s, t = c :: s /\ isUpper c = true.
Proof.
  unfold boldMatch. destruct text as [|c rest]; [discriminate|].
  destruct (isUpper c) eqn:Hc; [|discriminate]. cbv zeta.
  destruct (3 <=? _); [|discriminate].
  destruct (Nat.leb_spec (length (fst (span isLetterOrSpace rest))) 50);
    [|discriminate].
  destruct (char_at _ _ _); [|discriminate].
  intros [= <-]. split.
  - simpl. lia.
  - eexists _, _. split; [reflexivity | exact Hc].
Qed.

(** A capture that starts with a capital letter, trimmed. *)
Lemma trimmed_title t :
  length t <= 51 ->
  (exists c s, t = c :: s /\ isUpper c = true) ->
  trim (trim t) = trim t
  /\ 1 <= length (trim t) <= 51
  /\ exists c s, trim t = c :: s /\ isUpper c = true.
Proof.
  intros Hlen (c & s & -> & Hc).
  pose proof (length_trim (c :: s)) as Hle.
  destruct (trim_keeps_head c s (isUpper_not_space c Hc)) as (s' & E).
  split; [apply trim_trim|].
  rewrite E in *. cbn [length] in *.
  split; [lia|]. exists c, s'. split; [reflexivity | exact Hc].
Qed.

End Titles.

(** X6. Every title [extractClauseTitle] returns, for every tokenizer and
    clause text, has between 1 and 53 code units. When one of the three
    patterns finds a heading, the title is trimmed, starts with a capital
    letter and has at most 51 code units; when none does, the title is the
    first 50 code units of the first sentence, a sentence of fewer than 100
    code units, followed by three dots. *)
Theorem extractClauseTitle_length :
  forall (tokenize : jsstring -> list jsstring) (text title : jsstring),
    ClauseService.extractClauseTitle tokenize text = Some title ->
    1 <= length title <= 53
    /\ (((ClauseService.capsMatch text <> None
          \/ ClauseService.numberedMatch text <> None
          \/ ClauseService.boldMatch text <> None)
         /\ trim title = title
         /\ length title <= 51
         /\ exists c rest, title = c :: rest /\ isUpper c = true)
        \/ (ClauseService.capsMatch text = None
            /\ ClauseService.numberedMatch text = None
            /\ ClauseService.boldMatch text = None
            /\ exists sentence others,
                 tokenize text = sentence :: others
                 /\ length sentence < 100
                 /\ title = take 50 sentence ++ lit "...")).
Proof.
  intros tokenize text title. unfold ClauseService.extractClauseTitle.
  assert (Hheading :
            forall t, length t <= 51 ->
              (exists c s, t = c :: s /\ isUpper c = true) ->
              (ClauseService.capsMatch text <> None
               \/ ClauseService.numberedMatch text <> None
               \/ ClauseService.boldMatch text <> None) ->
              1 <= length (trim t) <= 53
              /\ (((ClauseService.capsMatch text <> None
                    \/ ClauseService.numberedMatch text <> None
                    \/ ClauseService.boldMatch text <> None)
                   /\ trim (trim t) = trim t
                   /\ length (trim t) <= 51
                   /\ exists c rest, trim t = c :: rest /\ isUpper c = true)
                  \/ (ClauseService.capsMatch text = None
                      /\ ClauseService.numberedMatch text = None
                      /\ ClauseService.boldMatch text = None
                      /\ exists sentence others,
                           tokenize text = sentence :: others
                           /\ length sentence < 100
                           /\ trim t = take 50 sentence ++ lit "..."))).
  { intros t Hlen Hcap Hwhich.
    destruct (trimmed_title t Hlen Hcap) as (Htrim & Hbounds & Hhead).
    split; [lia|]. left. repeat split; try assumption; lia. }
  destruct (ClauseService.capsMatch text) as [t|] eqn:E1.
  { intros [= <-]. destruct (capsMatch_length _ _ E1).
    apply Hheading; try assumption. left. discriminate. }
  destruct (ClauseService.numberedMatch text) as [t|] eqn:E2.
  { intros [= <-]. destruct (numberedMatch_length _ _ E2).
    apply Hheading; try assumption. right. left. discriminate. }
  destruct (ClauseService.boldMatch text) as [t|] eqn:E3.
  { intros [= <-]. destruct (boldMatch_length _ _ E3).
    apply Hheading; try assumption. right. right. discriminate. }
  clear Hheading.
  destruct (tokenize text) as [|s0 rest]; [discriminate|].
  destruct (Nat.ltb_spec (length s0) 100) as [Hshort|]; [|discriminate].
  unfold substring0.
  intros [= <-]. split.
  - rewrite length_app, length_take.
    change (length (lit "...")) with 3. lia.
  - right. repeat split. exists s0, rest. repeat split. exact Hshort.
Qed.

(** X6 at [Cases.labelled_clause], whose label is its title. *)
Lemma extractClauseTitle_length_witness :
  ClauseService.extractClauseTitle (fun t => [t]) Cases.labelled_clause
  = Some (lit "Payment Terms")
  /\ 1 <= length (lit "Payment Terms") <= 53
  /\ trim (lit "Payment Terms") = lit "Payment Terms".
Proof.
  split; [vm_compute; reflexivity|].
  destruct (extractClauseTitle_length (fun t => [t]) Cases.labelled_clause
              (lit "Payment Terms")) as [Hlen Hform];
    [vm_compute; reflexivity|].
  split; [exact Hlen|].
  destruct Hform as [(_ & Htrim & _) | (_ & _ & Hbold & _)];
    [exact Htrim | vm_compute in Hbold; discriminate].
Defined.

(** ** Parsing a stored vector *)

Lemma split_comma_count cur s :
  length (split_scan re_comma 0 cur s)
  = 1 + length (List.filter (N.eqb COMMA) s).
Proof.
  revert cur. induction s as [|c s IH]; intros cur; [reflexivity|].
  cbn [split_scan List.filter]. unfold re_comma at 1.
  rewrite (N.eqb_sym COMMA c).
  destruct (c =? COMMA)%N; cbn [app length]; rewrite IH; reflexivity.
Qed.

(** X8. For every stored string, [parseEmbeddingFromDB] returns one number
    more than the string has commas between its brackets: it never returns
    the empty vector, whatever the string (the empty string and "[]" give one
    element). *)
Theorem parseEmbeddingFromDB_length :
  forall (parseFloat : jsstring -> float) (vectorString : jsstring),
    length (EmbeddingService.parseEmbeddingFromDB parseFloat vectorString)
    = 1 + length (List.filter (N.eqb COMMA)
                    (EmbeddingService.strip_brackets vectorString))
    /\ EmbeddingService.parseEmbeddingFromDB parseFloat vectorString <> [].
Proof.
  intros parseFloat s.
  assert (H : length (EmbeddingService.parseEmbeddingFromDB parseFloat s)
              = 1 + length (List.filter (N.eqb COMMA)
                              (EmbeddingService.strip_brackets s))).
  { unfold EmbeddingService.parseEmbeddingFromDB, split.
    rewrite length_map. apply split_comma_count. }
  split; [exact H|].
  intros E. rewrite E in H. simpl in H. lia.
Qed.

(** ** The job processor: what a run writes and what it leaves alone *)

Section ProcessorFrame.

Import ClauseService QueueService.

Context {Details : Type} (env : Collaborators Details).

Lemma persisted_row job c row :
  persisted env job c = Some row ->
  row.(cl_contract_id) = job.(contractId) /\ row.(cl_clause) = c.
Proof.
  unfold persisted.
  destruct (generateEmbedding Details env (c_text c)); [discriminate|].
  cbv zeta. destruct (insert_error Details env _); [discriminate|].
  intros [= <-]. split; reflexivity.
Qed.

Lemma persisted_rows_contract job cs :
  Forall (fun row => row.(cl_contract_id) = job.(contractId))
         (omap (persisted env job) cs).
Proof.
  induction cs as [|c cs IH]; [constructor|].
  cbn [omap list_omap].
  destruct (persisted env job c) as [row|] eqn:E; [|exact IH].
  constructor; [|exact IH]. apply (persisted_row job c row E).
Qed.

(** The three ways a run can go: the extraction throws, the classification
    of the clauses throws, or both return and the run returns. *)
Lemma process_cases job (db : Database Details) :
  (exists error,
      extractText Details env job.(filePath) job.(fileType) = inl error
      /\ process Details env job db
         = (inl error,
            {| contracts :=
                 alter (set_status Details failed) job.(contractId)
                   db.(contracts Details);
               processing_jobs :=
                 alter (set_job_failed error.(error_message)) job.(jobId)
                   (alter set_job_processing job.(jobId)
                      db.(processing_jobs Details));
               clauses := db.(clauses Details) |}))
  \/ (exists extraction error,
         extractText Details env job.(filePath) job.(fileType)
         = inr extraction
         /\ extractAndClassifyClauses Details env
              extraction.(ExtractionService.text) = inl error
         /\ process Details env job db
            = (inl error,
               {| contracts :=
                    alter (set_status Details failed) job.(contractId)
                      (alter (set_extracted Details extraction)
                         job.(contractId) db.(contracts Details));
                  processing_jobs :=
                    alter (set_job_failed error.(error_message)) job.(jobId)
                      (alter set_job_processing job.(jobId)
                         db.(processing_jobs Details));
                  clauses := db.(clauses Details) |}))
  \/ (exists extraction cs,
         extractText Details env job.(filePath) job.(fileType)
         = inr extraction
         /\ extractAndClassifyClauses Details env
              extraction.(ExtractionService.text) = inr cs
         /\ process Details env job db
            = (inr {| ret_success := true;
                      ret_contractId := job.(contractId);
                      ret_textLength :=
                        length extraction.(ExtractionService.text);
                      ret_metadata := extraction.(ExtractionService.metadata);
                      ret_clauseCount := length cs |},
               {| contracts :=
                    alter (set_status Details analyzed) job.(contractId)
                      (alter (set_extracted Details extraction)
                         job.(contractId) db.(contracts Details));
                  processing_jobs :=
                    alter (set_job_completed (result_of extraction cs))
                      job.(jobId)
                      (alter set_job_processing job.(jobId)
                         db.(processing_jobs Details));
                  clauses :=
                    db.(clauses Details) ++ omap (persisted env job) cs |})).
Proof.
  destruct (extractText Details env (filePath job) (fileType job))
    as [error | extraction] eqn:Hex.
  - left. exists error. split; [reflexivity|].
    apply (process_not_extracted env job db error Hex).
  - destruct (extractAndClassifyClauses Details env
                extraction.(ExtractionService.text)) as [error | cs] eqn:Hcs.
    + right. left. exists extraction, error.
      split; [reflexivity|]. split; [exact Hcs|].
      apply (process_not_classified env job db extraction error Hex Hcs).
    + right. right. exists extraction, cs.
      split; [reflexivity|]. split; [exact Hcs|].
      apply (process_extracted env job db extraction cs Hex Hcs).
Qed.

Lemma process_other_rows job (db : Database Details) :
  let db' := snd (process Details env job db) in
  (forall id, id <> job.(contractId) ->
              db'.(contracts Details) !! id = db.(contracts Details) !! id)
  /\ (forall id, id <> job.(jobId) ->
                 db'.(processing_jobs Details) !! id
                 = db.(processing_jobs Details) !! id)
  /\ dom db'.(contracts Details) = dom db.(contracts Details)
  /\ dom db'.(processing_jobs Details) = dom db.(processing_jobs Details).
Proof.
  cbv zeta.
  destruct (process_cases job db)
    as [(error & _ & ->)
       | [(extraction & error & _ & _ & ->)
         | (extraction & cs & _ & _ & ->)]];
    cbn [snd contracts processing_jobs];
    (repeat split;
     [ intros; rewrite ?lookup_alter_ne by congruence; reflexivity
     | intros; rewrite ?lookup_alter_ne by congruence; reflexivity
     | rewrite ?dom_alter_L; reflexivity
     | rewrite ?dom_alter_L; reflexivity ]).
Qed.

(** The rows a run adds: those of the clauses processed, when the run
    reaches the loop. *)
Lemma process_clauses job (db : Database Details) :
  (snd (process Details env job db)).(clauses Details) = db.(clauses Details)
  \/ exists cs,
       (snd (process Details env job db)).(clauses Details)
       = db.(clauses Details) ++ omap (persisted env job) cs.
Proof.
  destruct (process_cases job db)
    as [(error & _ & ->)
       | [(extraction & error & _ & _ & ->)
         | (extraction & cs & _ & _ & ->)]];
    cbn [snd clauses]; [left; reflexivity | left; reflexivity |].
  right. exists cs. reflexivity.
Qed.

(** The row of the job after a run, by the outcome of the run: a run that
    throws writes the message and leaves the result, a run that returns
    writes the result and leaves the error. *)
Lemma process_job_row job (db : Database Details) jobrow :
  db.(processing_jobs Details) !! job.(jobId) = Some jobrow ->
  match fst (process Details env job db) with
  | inl error =>
      (snd (process Details env job db)).(processing_jobs Details)
        !! job.(jobId)
      = Some {| jb_status := job_failed;
                jb_error := Some error.(error_message);
                jb_result := jobrow.(jb_result) |}
  | inr r =>
      exists summary,
        (snd (process Details env job db)).(processing_jobs Details)
          !! job.(jobId)
        = Some {| jb_status := job_completed;
                  jb_error := jobrow.(jb_error);
                  jb_result := Some summary |}
        /\ summary.(success) = true
        /\ summary.(textLength) = r.(ret_textLength Details)
        /\ summary.(clauseCount) = r.(ret_clauseCount Details)
  end.
Proof.
  intros Hj.
  destruct (process_cases job db)
    as [(error & _ & ->)
       | [(extraction & error & _ & _ & ->)
         | (extraction & cs & _ & _ & ->)]];
    cbn [fst snd processing_jobs]; rewrite !lookup_alter_eq, Hj;
    try reflexivity.
  eexists. split; [reflexivity|]. repeat split.
Qed.

(** The row of the contract after a run, by the outcome of the run. *)
Lemma process_contract_row job (db : Database Details) contract :
  db.(contracts Details) !! job.(contractId) = Some contract ->
  match fst (process Details env job db) with
  | inl error =>
      ct_status Details
      <$> (snd (process Details env job db)).(contracts Details)
            !! job.(contractId)
      = Some failed
  | inr r =>
      exists contractText,
        (snd (process Details env job db)).(contracts Details)
          !! job.(contractId)
        = Some {| ct_extracted_text := Some contractText;
                  ct_metadata := Some r.(ret_metadata Details);
                  ct_status := analyzed |}
        /\ length contractText = r.(ret_textLength Details)
  end.
Proof.
  intros Hc.
  destruct (process_cases job db)
    as [(error & _ & ->)
       | [(extraction & error & _ & _ & ->)
         | (extraction & cs & _ & _ & ->)]];
    cbn [fst snd contracts]; rewrite !lookup_alter_eq, Hc;
    try reflexivity.
  eexists. split; reflexivity.
Qed.

(** A run that throws adds no row. *)
Lemma process_thrown_rows job (db : Database Details) error :
  fst (process Details env job db) = inl error ->
  (snd (process Details env job db)).(clauses Details) = db.(clauses Details).
Proof.
  destruct (process_cases job db)
    as [(e & _ & ->)
       | [(extraction & e & _ & _ & ->)
         | (extraction & cs & _ & _ & ->)]];
    cbn [fst snd clauses]; [reflexivity | reflexivity | discriminate].
Qed.

End ProcessorFrame.

(** X10. Whatever the outcome, a run of the processor reads and writes one
    contract and one job only: every other row of the two tables is left as it
    was, no row is created or deleted in them (a missing contract or job is
    not inserted), the clauses already in the table are kept, in place, and
    every row the run adds carries the contract identifier of the job. *)
Theorem process_frame :
  forall (Details : Type) (env : QueueService.Collaborators Details)
         (job : QueueService.JobData) (db : QueueService.Database Details),
    let db' := snd (QueueService.process Details env job db) in
    (forall id, id <> job.(QueueService.contractId) ->
                db'.(QueueService.contracts Details) !! id
                = db.(QueueService.contracts Details) !! id)
    /\ (forall id, id <> job.(QueueService.jobId) ->
                   db'.(QueueService.processing_jobs Details) !! id
                   = db.(QueueService.processing_jobs Details) !! id)
    /\ dom db'.(QueueService.contracts Details)
       = dom db.(QueueService.contracts Details)
    /\ dom db'.(QueueService.processing_jobs Details)
       = dom db.(QueueService.processing_jobs Details)
    /\ exists rows,
         db'.(QueueService.clauses Details)
         = db.(QueueService.clauses Details) ++ rows
         /\ Forall (fun row => row.(QueueService.cl_contract_id)
                               = job.(QueueService.contractId)) rows.
Proof.
  intros Details env job db db'.
  destruct (process_other_rows env job db) as (H1 & H2 & H3 & H4).
  repeat split; try assumption.
  subst db'.
  destruct (process_clauses env job db) as [Hsame | (cs & Hrows)].
  - exists []. rewrite Hsame, app_nil_r. split; [reflexivity | constructor].
  - exists (omap (persisted env job) cs).
    split; [exact Hrows | apply persisted_rows_contract].
Qed.

(** ** The job processor: runs that follow each other *)

(** X13. A run that returns after a run of the same job that threw leaves
    the error of the failed run on the job: the job ends with status
    "completed", with the result of the second run, and still with the error
    message of the earlier failure (completing a job does not clear its
    error); the contract ends "analyzed". *)
Theorem process_retry_keeps_error :
  forall (Details : Type) (env1 env2 : QueueService.Collaborators Details)
         (job : QueueService.JobData) (db : QueueService.Database Details)
         (error : Error) (r : QueueService.JobReturn Details)
         (contract : QueueService.ContractRow Details)
         (jobrow : QueueService.JobRow),
    fst (QueueService.process Details env1 job db) = inl error ->
    fst (QueueService.process Details env2 job
           (snd (QueueService.process Details env1 job db))) = inr r ->
    db.(QueueService.contracts Details) !! job.(QueueService.contractId)
    = Some contract ->
    db.(QueueService.processing_jobs Details) !! job.(QueueService.jobId)
    = Some jobrow ->
    let db1 := snd (QueueService.process Details env1 job db) in
    let db2 := snd (QueueService.process Details env2 job db1) in
    (exists summary,
        db2.(QueueService.processing_jobs Details) !! job.(QueueService.jobId)
        = Some {| QueueService.jb_status := QueueService.job_completed;
                  QueueService.jb_error := Some error.(error_message);
                  QueueService.jb_result := Some summary |}
        /\ summary.(QueueService.clauseCount)
           = r.(QueueService.ret_clauseCount Details))
    /\ QueueService.ct_status Details
       <$> db2.(QueueService.contracts Details) !! job.(QueueService.contractId)
       = Some QueueService.analyzed.
Proof.
  intros Details env1 env2 job db error r contract jobrow
         Hfail Hok Hc Hj db1 db2.
  pose proof (process_job_row env1 job db jobrow Hj) as Hj1.
  pose proof (process_contract_row env1 job db contract Hc) as Hc1.
  rewrite Hfail in Hj1, Hc1. fold db1 in Hj1, Hc1.
  destruct (db1.(QueueService.contracts Details)
              !! job.(QueueService.contractId)) as [contract1|] eqn:Ec1;
    [|discriminate].
  pose proof (process_job_row env2 job db1 _ Hj1) as Hj2.
  pose proof (process_contract_row env2 job db1 contract1 Ec1) as Hc2.
  fold db1 in Hok. rewrite Hok in Hj2, Hc2. fold db2 in Hj2, Hc2.
  destruct Hj2 as (summary & Hrow & _ & _ & Hcount).
  destruct Hc2 as (contractText & Hcontract & _).
  split.
  - exists summary. split; [exact Hrow | exact Hcount].
  - rewrite Hcontract. reflexivity.
Qed.

(** X13 on the sample job: the file cannot be read at the first attempt and
    holds a short note at the second. *)
Lemma process_retry_keeps_error_witness :
  let db1 := snd (QueueService.process unit Cases.unreadable_env
                    Samples.pdf_job Samples.sample_db) in
  let db2 := snd (QueueService.process unit Samples.note_env
                    Samples.pdf_job db1) in
  exists summary,
    db2.(QueueService.processing_jobs unit) !! 3%N
    = Some {| QueueService.jb_status := QueueService.job_completed;
              QueueService.jb_error :=
                Some (lit "Failed to extract text from PDF: ENOENT");
              QueueService.jb_result := Some summary |}.
Proof.
  cbv zeta.
  destruct (QueueService.process unit Samples.note_env Samples.pdf_job
              (snd (QueueService.process unit Cases.unreadable_env
                      Samples.pdf_job Samples.sample_db)))
    as [[e | r] db2] eqn:E; [vm_compute in E; discriminate|].
  destruct (process_retry_keeps_error unit Cases.unreadable_env
              Samples.note_env Samples.pdf_job Samples.sample_db
              (mkError (lit "Failed to extract text from PDF: ENOENT"))
              r Samples.uploaded_contract Samples.pending_job)
    as [(summary & Hjob & _) _].
  - vm_compute. reflexivity.
  - rewrite E. reflexivity.
  - reflexivity.
  - reflexivity.
  - rewrite E in Hjob. exists summary. exact Hjob.
Defined.

(** X14. A run that throws after a run of the same job that returned adds no
    clause and leaves the result of the earlier run on the job: the job
    ends with status "failed", with the message of the error, and still
    with the result recorded by the run that completed; the contract ends
    "failed". *)
Theorem process_failure_after_success :
  forall (Details : Type) (env1 env2 : QueueService.Collaborators Details)
         (job : QueueService.JobData) (db : QueueService.Database Details)
         (error : Error) (r : QueueService.JobReturn Details)
         (contract : QueueService.ContractRow Details)
         (jobrow : QueueService.JobRow),
    fst (QueueService.process Details env1 job db) = inr r ->
    fst (QueueService.process Details env2 job
           (snd (QueueService.process Details env1 job db))) = inl error ->
    db.(QueueService.contracts Details) !! job.(QueueService.contractId)
    = Some contract ->
    db.(QueueService.processing_jobs Details) !! job.(QueueService.jobId)
    = Some jobrow ->
    let db1 := snd (QueueService.process Details env1 job db) in
    let db2 := snd (QueueService.process Details env2 job db1) in
    db2.(QueueService.clauses Details) = db1.(QueueService.clauses Details)
    /\ (exists summary,
           db2.(QueueService.processing_jobs Details)
             !! job.(QueueService.jobId)
           = Some {| QueueService.jb_status := QueueService.job_failed;
                     QueueService.jb_error := Some error.(error_message);
                     QueueService.jb_result := Some summary |}
           /\ summary.(QueueService.clauseCount)
              = r.(QueueService.ret_clauseCount Details))
    /\ QueueService.ct_status Details
       <$> db2.(QueueService.contracts Details) !! job.(QueueService.contractId)
       = Some QueueService.failed.
Proof.
  intros Details env1 env2 job db error r contract jobrow
         Hok Hfail Hc Hj db1 db2.
  pose proof (process_job_row env1 job db jobrow Hj) as Hj1.
  pose proof (process_contract_row env1 job db contract Hc) as Hc1.
  rewrite Hok in Hj1, Hc1. fold db1 in Hj1, Hc1.
  destruct Hj1 as (summary & Hrow1 & _ & _ & Hcount).
  destruct Hc1 as (contractText & Hcontract1 & _).
  pose proof (process_job_row env2 job db1 _ Hrow1) as Hj2.
  pose proof (process_contract_row env2 job db1 _ Hcontract1) as Hc2.
  fold db1 in Hfail. rewrite Hfail in Hj2, Hc2. fold db2 in Hj2, Hc2.
  split; [apply (process_thrown_rows env2 job db1 error Hfail)|].
  split; [|exact Hc2].
  exists summary. split; [exact Hj2 | exact Hcount].
Qed.

(** X14 on the sample job: a short note at the first attempt, an unreadable
    file at the second. *)
Lemma process_failure_after_success_witness :
  let db1 := snd (QueueService.process unit Samples.note_env
                    Samples.pdf_job Samples.sample_db) in
  let db2 := snd (QueueService.process unit Cases.unreadable_env
                    Samples.pdf_job db1) in
  (exists summary,
      db2.(QueueService.processing_jobs unit) !! 3%N
      = Some {| QueueService.jb_status := QueueService.job_failed;
                QueueService.jb_error :=
                  Some (lit "Failed to extract text from PDF: ENOENT");
                QueueService.jb_result := Some summary |})
  /\ QueueService.ct_status unit
       <$> db2.(QueueService.contracts unit) !! 1%N
     = Some QueueService.failed.
Proof.
  cbv zeta.
  destruct (QueueService.process unit Samples.note_env Samples.pdf_job
              Samples.sample_db) as [[e | r] db1] eqn:E;
    [vm_compute in E; discriminate|].
  destruct (process_failure_after_success unit Samples.note_env
              Cases.unreadable_env Samples.pdf_job Samples.sample_db
              (mkError (lit "Failed to extract text from PDF: ENOENT"))
              r Samples.uploaded_contract Samples.pending_job)
    as (_ & (summary & Hjob & _) & Hcontract).
  - rewrite E. reflexivity.
  - rewrite E. cbn [snd]. vm_compute in E. injection E as _ <-.
    vm_compute. reflexivity.
  - reflexivity.
  - reflexivity.
  - rewrite E in Hjob, Hcontract. cbn [snd] in *.
    split; [exists summary; exact Hjob | exact Hcontract].
Defined.

(** ** The extraction of the text and what the processor returns *)

Lemma extractText_characterCount
      (extname toLowerCase : jsstring -> jsstring)
      (extractFromPDF extractFromDOCX :
         jsstring -> result ExtractionService.RawExtraction)
      (Details : Type) (meta : jsstring -> Details)
      (filePath fileType : jsstring) e :
  ExtractionService.extractText extname toLowerCase extractFromPDF
    extractFromDOCX Details meta filePath fileType = inr e ->
  e.(ExtractionService.metadata).(ExtractionService.characterCount)
  = length e.(ExtractionService.text).
Proof.
  unfold ExtractionService.extractText. cbv zeta.
  match goal with |- context [match ?x with inl _ => _ | inr _ => _ end] =>
    destruct x as [err | raw] end; [discriminate|].
  intros [= <-]. reflexivity.
Qed.

(** X15. Whatever the readers, [extractText] calls one reader at most: the
    PDF reader when the lower-cased extension is .pdf or the declared type
    is application/pdf (even if the type also names a Word document),
    otherwise the Word reader when the extension is .docx or .doc or the
    type contains "wordprocessingml". When it returns, the text and the page
    count are those of that reader, the character count of the metadata is
    the length of the text and the word count is between 1 and that length
    plus 1. When it throws, the error is the error of that reader, or, when
    no reader is chosen, "Unsupported file type: " followed by the
    extension. *)
Theorem extractText_outcome :
  forall (extname toLowerCase : jsstring -> jsstring)
         (extractFromPDF extractFromDOCX :
            jsstring -> result ExtractionService.RawExtraction)
         (Details : Type) (extractContractMetadata : jsstring -> Details)
         (filePath fileType : jsstring),
    let ext := toLowerCase (extname filePath) in
    let pdf := ext = lit ".pdf" \/ fileType = lit "application/pdf" in
    let word := ext = lit ".docx" \/ ext = lit ".doc"
                \/ includes fileType (lit "wordprocessingml") = true in
    let r := ExtractionService.extractText extname toLowerCase
               extractFromPDF extractFromDOCX Details extractContractMetadata
               filePath fileType in
    (forall e, r = inr e ->
       let m := e.(ExtractionService.metadata) in
       m.(ExtractionService.characterCount)
       = length e.(ExtractionService.text)
       /\ 1 <= m.(ExtractionService.wordCount)
            <= length e.(ExtractionService.text) + 1
       /\ m.(ExtractionService.details)
          = extractContractMetadata e.(ExtractionService.text)
       /\ exists raw,
            e.(ExtractionService.text) = raw.(ExtractionService.raw_text)
            /\ m.(ExtractionService.pages) = raw.(ExtractionService.raw_pages)
            /\ (pdf -> extractFromPDF filePath = inr raw)
            /\ (~ pdf -> word /\ extractFromDOCX filePath = inr raw))
    /\ (forall err, r = inl err ->
          (pdf -> extractFromPDF filePath = inl err)
          /\ (~ pdf -> word -> extractFromDOCX filePath = inl err)
          /\ (~ pdf -> ~ word ->
              err = mkError (lit "Unsupported file type: " ++ ext))).
Proof.
  intros extname toLowerCase extractFromPDF extractFromDOCX Details meta
         filePath fileType ext pdf word r.
  subst r. unfold ExtractionService.extractText. fold ext. cbv zeta.
  unfold JS.eqb.
  assert (Hreader :
            forall reader : jsstring -> result ExtractionService.RawExtraction,
              (pdf -> reader = extractFromPDF) ->
              (~ pdf -> word /\ reader = extractFromDOCX) ->
              (forall e,
                  match reader filePath with
                  | inl error => inl error
                  | inr raw =>
                      inr {| ExtractionService.text :=
                               raw.(ExtractionService.raw_text);
                             ExtractionService.metadata :=
                               {| ExtractionService.pages :=
                                    raw.(ExtractionService.raw_pages);
                                  ExtractionService.details :=
                                    meta raw.(ExtractionService.raw_text);
                                  ExtractionService.characterCount :=
                                    length raw.(ExtractionService.raw_text);
                                  ExtractionService.wordCount :=
                                    length (split re_spaces
                                              raw.(ExtractionService.raw_text))
                               |} |}
                  end = inr e ->
                  let m := e.(ExtractionService.metadata) in
                  m.(ExtractionService.characterCount)
                  = length e.(ExtractionService.text)
                  /\ 1 <= m.(ExtractionService.wordCount)
                       <= length e.(ExtractionService.text) + 1
                  /\ m.(ExtractionService.details)
                     = meta e.(ExtractionService.text)
                  /\ exists raw,
                       e.(ExtractionService.text)
                       = raw.(ExtractionService.raw_text)
                       /\ m.(ExtractionService.pages)
                          = raw.(ExtractionService.raw_pages)
                       /\ (pdf -> extractFromPDF filePath = inr raw)
                       /\ (~ pdf ->
                           word /\ extractFromDOCX filePath = inr raw))
              /\ (forall err,
                     match reader filePath with
                     | inl error => inl error
                     | inr raw =>
                         inr {| ExtractionService.text :=
                                  raw.(ExtractionService.raw_text);
                                ExtractionService.metadata :=
                                  {| ExtractionService.pages :=
                                       raw.(ExtractionService.raw_pages);
                                     ExtractionService.details :=
                                       meta raw.(ExtractionService.raw_text);
                                     ExtractionService.characterCount :=
                                       length raw.(ExtractionService.raw_text);
                                     ExtractionService.wordCount :=
                                       length
                                         (split re_spaces
                                            raw.(ExtractionService.raw_text))
                                  |} |}
                     end = inl err ->
                     (pdf -> extractFromPDF filePath = inl err)
                     /\ (~ pdf -> word -> extractFromDOCX filePath = inl err)
                     /\ (~ pdf -> ~ word ->
                         err = mkError (lit "Unsupported file type: "
                                        ++ ext)))).
  { intros reader Hpdf Hword.
    destruct (reader filePath) as [error | raw] eqn:Hr; split;
      try (intros ? [=]; fail).
    - intros err [= <-]. repeat split.
      + intros H. rewrite <- (Hpdf H). exact Hr.
      + intros H _. destruct (Hword H) as [_ <-]. exact Hr.
      + intros H H'. destruct (Hword H) as [Hw _]. contradiction.
    - intros e [= <-]. cbn.
      split; [reflexivity|]. split; [apply word_count_bounds|].
      split; [reflexivity|]. exists raw.
      split; [reflexivity|]. split; [reflexivity|]. split.
      + intros H. rewrite <- (Hpdf H). exact Hr.
      + intros H. destruct (Hword H) as [Hw <-]. split; assumption. }
  destruct (decide (ext = lit ".pdf")) as [Hpdf | Hpdf];
    [rewrite (bool_decide_true _ Hpdf) | rewrite (bool_decide_false _ Hpdf)];
    cbn [orb].
  { apply (Hreader extractFromPDF); [reflexivity|].
    intros H. exfalso. apply H. left. exact Hpdf. }
  destruct (decide (fileType = lit "application/pdf")) as [Hmime | Hmime];
    [rewrite (bool_decide_true _ Hmime) | rewrite (bool_decide_false _ Hmime)].
  { apply (Hreader extractFromPDF); [reflexivity|].
    intros H. exfalso. apply H. right. exact Hmime. }
  assert (Hnot : ~ pdf) by (intros [H | H]; contradiction).
  destruct (decide (ext = lit ".docx")) as [Hdocx | Hdocx];
    [rewrite (bool_decide_true _ Hdocx) | rewrite (bool_decide_false _ Hdocx)];
    cbn [orb].
  { apply (Hreader extractFromDOCX); [intros H; contradiction|].
    intros _. split; [left; exact Hdocx | reflexivity]. }
  destruct (decide (ext = lit ".doc")) as [Hdoc | Hdoc];
    [rewrite (bool_decide_true _ Hdoc) | rewrite (bool_decide_false _ Hdoc)];
    cbn [orb].
  { apply (Hreader extractFromDOCX); [intros H; contradiction|].
    intros _. split; [right; left; exact Hdoc | reflexivity]. }
  destruct (includes fileType (lit "wordprocessingml")) eqn:Hinc.
  { apply (Hreader extractFromDOCX); [intros H; contradiction|].
    intros _. split; [right; right; reflexivity | reflexivity]. }
  split; [intros ? [=]|].
  intros err [= <-]. repeat split.
  - intros H. contradiction.
  - intros _ [H | [H | H]]; [contradiction | contradiction | discriminate].
Qed.

(** X16. The processor throws exactly when the extraction of the text or
    the classification of the clauses throws, and then throws that error:
    no failure of an embedding or of an insertion reaches the caller. When
    it returns, the summary it returns names the contract of the job, its
    text length is the character count of its metadata, and its clause
    count is the number of clauses segmented from the extracted text. *)
Theorem process_outcome :
  forall (Details : Type) (env : QueueService.Collaborators Details)
         (job : QueueService.JobData) (db : QueueService.Database Details),
    let outcome := fst (QueueService.process Details env job db) in
    (forall e,
        outcome = inl e
        <-> (QueueService.extractText Details env job.(QueueService.filePath)
               job.(QueueService.fileType) = inl e
             \/ exists extraction,
                  QueueService.extractText Details env
                    job.(QueueService.filePath) job.(QueueService.fileType)
                  = inr extraction
                  /\ QueueService.extractAndClassifyClauses Details env
                       extraction.(ExtractionService.text) = inl e))
    /\ (forall r,
           outcome = inr r ->
           r.(QueueService.ret_success Details) = true
           /\ r.(QueueService.ret_contractId Details)
              = job.(QueueService.contractId)
           /\ r.(QueueService.ret_textLength Details)
              = r.(QueueService.ret_metadata Details)
                  .(ExtractionService.characterCount)
           /\ exists extraction,
                QueueService.extractText Details env
                  job.(QueueService.filePath) job.(QueueService.fileType)
                = inr extraction
                /\ r.(QueueService.ret_metadata Details)
                   = extraction.(ExtractionService.metadata)
                /\ r.(QueueService.ret_clauseCount Details)
                   = length (ClauseService.segmentClauses
                               env.(QueueService.tokenize Details)
                               extraction.(ExtractionService.text))).
Proof.
  intros Details env job db outcome. subst outcome.
  destruct (process_cases env job db)
    as [(error & Hex & ->)
       | [(extraction & error & Hex & Hcs & ->)
         | (extraction & cs & Hex & Hcs & ->)]];
    cbn [fst]; rewrite Hex.
  - split; [|intros r [=]].
    intros e; split.
    + intros [= <-]. left. reflexivity.
    + intros [[= <-] | (extraction & [=] & _)]. reflexivity.
  - split; [|intros r [=]].
    intros e; split.
    + intros [= <-]. right. exists extraction. split; [reflexivity | exact Hcs].
    + intros [[=] | (extraction' & [= <-] & H)].
      rewrite Hcs in H. injection H as <-. reflexivity.
  - split.
    + intros e; split; [intros [=]|].
      intros [[=] | (extraction' & [= <-] & H)].
      rewrite Hcs in H. discriminate.
    + intros r [= <-]. cbn.
      split; [reflexivity|]. split; [reflexivity|].
      split.
      * symmetry. unfold QueueService.extractText in Hex.
        apply (extractText_characterCount _ _ _ _ _ _ _ _ _ Hex).
      * exists extraction. split; [reflexivity|]. split; [reflexivity|].
        apply (extractAndClassifyClauses_length env _ _ Hcs).
Qed.

(** ** The readers and the metadata scan *)

Section ReaderProperties.

Import Readers.
Local Open Scope string_scope.
Local Open Scope list_scope.

(** The sources of the patterns of [typeKeywords], as written in the code. *)
Lemma typeKeywords_sources :
  map (fun tp => (fst tp, source (snd tp))) typeKeywords =
  [ ("NDA", "non-disclosure|confidentiality agreement");
    ("Service Agreement", "service agreement|services agreement");
    ("Employment Contract", "employment agreement|employment contract");
    ("Lease Agreement", "lease agreement|rental agreement");
    ("Purchase Agreement", "purchase agreement|sale agreement");
    ("License Agreement", "license agreement|licensing agreement");
    ("Partnership Agreement", "partnership agreement");
    ("Consulting Agreement", "consulting agreement") ].
Proof. reflexivity. Qed.

Lemma Math_ceil_div_spec a b :
  0 < b ->
  b * (Math_ceil_div a b - 1) < a + (if (a =? 0)%nat then 1 else 0)
  /\ a <= b * Math_ceil_div a b.
Proof.
  intros Hb. unfold Math_ceil_div.
  pose proof (Nat.div_mod_eq (a + (b - 1)) b) as E.
  pose proof (Nat.mod_upper_bound (a + (b - 1)) b ltac:(lia)) as Hr.
  set (q := (a + (b - 1)) / b) in *. set (r := (a + (b - 1)) mod b) in *.
  destruct (Nat.eqb_spec a 0); nia.
Qed.

Lemma unique_from_spec seen xs :
  NoDup (unique_from seen xs)
  /\ (forall x, x ∈ unique_from seen xs -> x ∈ xs /\ x ∉ seen).
Proof.
  revert seen. induction xs as [|x xs IH]; intros seen; simpl.
  - split; [constructor | intros x Hx; inversion Hx].
  - destruct (decide (x ∈ seen)) as [Hin | Hnot].
    + rewrite bool_decide_true by exact Hin.
      destruct (IH seen) as [IH1 IH2]. split; [exact IH1|].
      intros y Hy. destruct (IH2 y Hy). split; [right|]; assumption.
    + rewrite bool_decide_false by exact Hnot.
      destruct (IH (x :: seen)) as [IH1 IH2]. split.
      * apply NoDup_cons. split; [|exact IH1].
        intros Hx. destruct (IH2 x Hx) as [_ Hn]. apply Hn. left.
      * intros y Hy. apply elem_of_cons in Hy. destruct Hy as [-> | Hy].
        -- split; [left | exact Hnot].
        -- destruct (IH2 y Hy) as [H1 H2]. split; [right; exact H1|].
           intros Hs. apply H2. right. exact Hs.
Qed.

Lemma take_Set_values n xs :
  NoDup (take n (Set_values xs))
  /\ length (take n (Set_values xs)) <= n
  /\ forall x, In x (take n (Set_values xs)) -> In x xs.
Proof.
  destruct (unique_from_spec [] xs) as [Hnd Hin].
  split; [|split].
  - eapply sublist_NoDup; [exact Hnd | apply sublist_take].
  - rewrite length_take. lia.
  - intros x Hx. apply list_elem_of_In.
    apply list_elem_of_In in Hx. apply subseteq_take in Hx.
    apply (Hin x Hx).
Qed.

(** The first pair of a list that a test accepts. *)
Lemma find_first {A} (f : A -> bool) (l : list A) :
  match List.find f l with
  | Some x =>
      exists j, l !! j = Some x /\ f x = true
                /\ forall i y, i < j -> l !! i = Some y -> f y = false
  | None => forall y, In y l -> f y = false
  end.
Proof.
  induction l as [|x l IH]; simpl; [intros y []|].
  destruct (f x) eqn:E.
  - exists 0. repeat split; [exact E|]. intros i y Hi. lia.
  - destruct (List.find f l) as [z|].
    + destruct IH as (j & Hj & Hz & Hbefore).
      exists (S j). repeat split; [exact Hj | exact Hz |].
      intros [|i] y Hi; simpl; [intros [= <-]; exact E|].
      apply Hbefore. lia.
    + intros y [<- | Hy]; [exact E | apply IH; exact Hy].
Qed.

End ReaderProperties.

(** X17. When [extractFromDOCX] returns, its page estimate is the ceiling of
    the word count over 500: at least 1 (an empty document counts one word,
    hence one page), with room for the words on the pages and none to spare
    on a page less. When the reader throws, the error is "Failed to extract
    text from DOCX: " followed by the message of the reader's error. *)
Theorem extractFromDOCX_pages :
  forall (extractRawText : jsstring -> result jsstring) (filePath : jsstring),
    (forall raw,
        Readers.extractFromDOCX extractRawText filePath = inr raw ->
        let words :=
          length (split re_spaces raw.(ExtractionService.raw_text)) in
        extractRawText filePath = inr raw.(ExtractionService.raw_text)
        /\ 1 <= raw.(ExtractionService.raw_pages)
        /\ 500 * (raw.(ExtractionService.raw_pages) - 1) < words
        /\ words <= 500 * raw.(ExtractionService.raw_pages))
    /\ (forall err,
           Readers.extractFromDOCX extractRawText filePath = inl err ->
           exists cause,
             extractRawText filePath = inl cause
             /\ err.(error_message)
                = lit "Failed to extract text from DOCX: "
                  ++ cause.(error_message)).
Proof.
  intros extractRawText filePath. unfold Readers.extractFromDOCX.
  destruct (extractRawText filePath) as [cause | value]; split.
  - intros raw [=].
  - intros err [= <-]. exists cause. split; reflexivity.
  - cbv zeta.
    pose proof (word_count_bounds value) as [Hw _].
    pose proof (Math_ceil_div_spec (length (split re_spaces value)) 500
                  ltac:(lia)) as [H1 H2].
    destruct (Nat.eqb_spec (length (split re_spaces value)) 0); [lia|].
    set (pages := Readers.Math_ceil_div _ 500) in *. clearbody pages.
    intros raw [= <-].
    cbn [ExtractionService.raw_text ExtractionService.raw_pages].
    repeat split; try reflexivity; lia.
  - intros err [=].
Qed.

(** X17 with [Cases.sample_extractRawText]: a hundred words, one page. *)
Lemma extractFromDOCX_pages_witness :
  Readers.extractFromDOCX Cases.sample_extractRawText (lit "contract.docx")
  = inr Cases.docx_extraction
  /\ 1 <= Cases.docx_extraction.(ExtractionService.raw_pages)
  /\ length (split re_spaces Samples.ten_paragraphs) <= 500 * 1.
Proof.
  assert (E : Readers.extractFromDOCX Cases.sample_extractRawText
                (lit "contract.docx") = inr Cases.docx_extraction)
    by (vm_compute; reflexivity).
  split; [exact E|].
  destruct (proj1 (extractFromDOCX_pages Cases.sample_extractRawText
                     (lit "contract.docx")) Cases.docx_extraction E)
    as (_ & Hone & _ & Hroom).
  split; [exact Hone | exact Hroom].
Defined.

(** X18. The parties [extractContractMetadata] returns are at most five,
    pairwise distinct, each the trimmed form of a non-empty capture of fewer
    than 100 code units; the dates are at most three, pairwise distinct, each
    the trimmed form of a capture. *)
Theorem extractContractMetadata_parties_and_dates :
  forall (party_captures date_captures : jsstring -> list jsstring)
         (text : jsstring),
    let m := Readers.extractContractMetadata party_captures date_captures
               text in
    (NoDup m.(Readers.parties)
     /\ length m.(Readers.parties) <= 5
     /\ forall p, In p m.(Readers.parties) ->
          exists capture,
            In capture (party_captures text)
            /\ capture <> [] /\ length capture < 100 /\ p = trim capture)
    /\ (NoDup m.(Readers.dates)
        /\ length m.(Readers.dates) <= 3
        /\ forall d, In d m.(Readers.dates) ->
             exists capture,
               In capture (date_captures text) /\ d = trim capture).
Proof.
  intros party_captures date_captures text m. subst m.
  unfold Readers.extractContractMetadata.
  cbn [Readers.parties Readers.dates].
  split.
  - match goal with |- context [take 5 (Readers.Set_values ?l)] =>
      destruct (take_Set_values 5 l) as (H1 & H2 & H3) end.
    split; [exact H1|]. split; [exact H2|].
    intros p Hp. apply H3 in Hp. apply in_flat_map in Hp.
    destruct Hp as (capture & Hc & Hp). exists capture.
    destruct capture as [|c0 capture]; [destruct Hp|].
    cbn [ClauseService.truthy andb] in Hp.
    destruct (Nat.ltb_spec (length (c0 :: capture)) 100); [|destruct Hp].
    destruct Hp as [<- | []]. repeat split; try assumption. discriminate.
  - match goal with |- context [take 3 (Readers.Set_values ?l)] =>
      destruct (take_Set_values 3 l) as (H1 & H2 & H3) end.
    split; [exact H1|]. split; [exact H2|].
    intros d Hd. apply H3 in Hd. apply in_map_iff in Hd.
    destruct Hd as (capture & <- & Hc). eauto.
Qed.

(** X19. The document type [extractContractMetadata] returns is "Unknown"
    exactly when no keyword pattern matches the text; otherwise it is the
    first type of the table, in its order of declaration, whose pattern
    matches: a text that matches the patterns of several types is given the
    type declared first. *)
Theorem extractContractMetadata_documentType :
  forall (party_captures date_captures : jsstring -> list jsstring)
         (text : jsstring),
    let type :=
      (Readers.extractContractMetadata party_captures date_captures text)
        .(Readers.documentType) in
    (type = "Unknown"%string
     /\ forall t p, In (t, p) Readers.typeKeywords -> test p text = false)
    \/ (exists j pattern,
          Readers.typeKeywords !! j = Some (type, pattern)
          /\ test pattern text = true
          /\ forall i t p,
               i < j -> Readers.typeKeywords !! i = Some (t, p) ->
               test p text = false).
Proof.
  intros party_captures date_captures text type. subst type.
  unfold Readers.extractContractMetadata. cbn [Readers.documentType].
  pose proof (find_first (fun '(_, pattern) => test pattern text)
                Readers.typeKeywords) as H.
  destruct (List.find _ Readers.typeKeywords) as [[t p]|].
  - right. destruct H as (j & Hj & Hp & Hbefore).
    exists j, p. repeat split; [exact Hj | exact Hp |].
    intros i t' p' Hi Hi'. exact (Hbefore i (t', p') Hi Hi').
  - left. split; [reflexivity|]. intros t p Hin. exact (H (t, p) Hin).
Qed.

(** ** Batches of embeddings and the search *)

Section Batches.

Import EmbeddingService EmbeddingSearch.

Lemma all_or_first_error_app {A} (a b : list (result A)) :
  all_or_first_error (a ++ b)
  = match all_or_first_error a with
    | inl e => inl e
    | inr xs =>
        match all_or_first_error b with
        | inl e => inl e
        | inr ys => inr (xs ++ ys)
        end
    end.
Proof.
  induction a as [|[e | x] a IH]; simpl.
  - destruct (all_or_first_error b); reflexivity.
  - reflexivity.
  - rewrite IH. destruct (all_or_first_error a); [reflexivity|].
    destruct (all_or_first_error b); reflexivity.
Qed.

Lemma all_or_first_error_values {A} (rs : list (result A)) vs :
  all_or_first_error rs = inr vs <-> rs = map inr vs.
Proof.
  revert vs. induction rs as [|[e | x] rs IH]; intros vs; simpl.
  - split; [intros [= <-]; reflexivity|].
    destruct vs; [reflexivity | discriminate].
  - split; [discriminate|]. destruct vs; discriminate.
  - destruct (all_or_first_error rs) as [e | values] eqn:E.
    + split; [discriminate|]. destruct vs as [|v vs]; [discriminate|].
      simpl. intros [= -> H]. apply (IH vs) in H. discriminate.
    + split.
      * intros [= <-]. simpl. f_equal. apply IH. reflexivity.
      * destruct vs as [|v vs]; [discriminate|]. simpl.
        intros [= -> H]. apply (IH vs) in H. injection H as ->. reflexivity.
Qed.

Lemma all_or_first_error_error {A} (rs : list (result A)) e :
  all_or_first_error rs = inl e -> In (inl e) rs.
Proof.
  induction rs as [|[e' | x] rs IH]; simpl.
  - discriminate.
  - intros [= ->]. left. reflexivity.
  - destruct (all_or_first_error rs); [|discriminate].
    intros [= ->]. right. apply IH. reflexivity.
Qed.

Variable model : jsstring -> result (list float).

(** The loop over the batches, from the index [i] on: the embeddings of the
    texts from [i] on are appended, or the first error among them is
    thrown. *)
Lemma batch_loop texts fuel i acc :
  length texts - i <= fuel ->
  fold_left (batch_step model texts)
            (loop_indices fuel i (length texts) batchSize) acc
  = match acc with
    | inl e => inl e
    | inr embeddings =>
        match all_or_first_error
                (map (generateEmbedding model) (drop i texts)) with
        | inl e => inl e
        | inr rest => inr (embeddings ++ rest)
        end
    end.
Proof.
  revert i acc. induction fuel as [|fuel IH]; intros i acc Hfuel.
  - simpl. rewrite drop_ge by lia. destruct acc; [reflexivity|].
    simpl. rewrite app_nil_r. reflexivity.
  - cbn [loop_indices]. destruct (Nat.ltb_spec i (length texts)) as [Hlt | Hge].
    + cbn [fold_left]. rewrite IH by (unfold batchSize; lia).
      destruct acc as [e | embeddings]; [reflexivity|].
      unfold batch_step. cbv zeta.
      replace (map (generateEmbedding model) (drop i texts))
        with (map (generateEmbedding model) (take batchSize (drop i texts))
              ++ map (generateEmbedding model) (drop (i + batchSize) texts))
        by (rewrite <- map_app, <- drop_drop, take_drop; reflexivity).
      rewrite all_or_first_error_app.
      destruct (all_or_first_error
                  (map (generateEmbedding model)
                       (take batchSize (drop i texts)))); [reflexivity|].
      destruct (all_or_first_error _); [reflexivity|].
      rewrite app_assoc. reflexivity.
    + cbn [fold_left]. rewrite drop_ge by lia.
      destruct acc; [reflexivity|]. simpl. rewrite app_nil_r. reflexivity.
Qed.

(** Batching is transparent. *)
Lemma generateEmbeddingsBatch_all texts :
  generateEmbeddingsBatch model texts
  = all_or_first_error (map (generateEmbedding model) texts).
Proof.
  unfold generateEmbeddingsBatch, for_range.
  rewrite batch_loop by lia. rewrite drop_0.
  destruct (all_or_first_error _); reflexivity.
Qed.

End Batches.

(** X20. [generateEmbeddingsBatch] returns the embeddings of all the texts,
    in the order of the texts and as many as texts, exactly when the
    embedding of every text succeeds; the batches of ten do not show in the
    result. When it throws, the error is the error of the embedding of one of
    the texts, and no partial result is returned. *)
Theorem generateEmbeddingsBatch_in_order :
  forall (model : jsstring -> result (list float)) (texts : list jsstring),
    (forall embeddings,
        EmbeddingSearch.generateEmbeddingsBatch model texts = inr embeddings
        <-> map (EmbeddingService.generateEmbedding model) texts
            = map inr embeddings)
    /\ (forall embeddings,
           EmbeddingSearch.generateEmbeddingsBatch model texts
           = inr embeddings ->
           length embeddings = length texts)
    /\ (forall e,
           EmbeddingSearch.generateEmbeddingsBatch model texts = inl e ->
           exists text,
             In text texts
             /\ EmbeddingService.generateEmbedding model text = inl e).
Proof.
  intros model texts. rewrite generateEmbeddingsBatch_all.
  split; [|split].
  - intros embeddings. apply all_or_first_error_values.
  - intros embeddings H. apply all_or_first_error_values in H.
    apply (f_equal (@length _)) in H. rewrite !length_map in H. lia.
  - intros e H. apply all_or_first_error_error in H.
    apply in_map_iff in H. destruct H as (text & Ht & Hin). eauto.
Qed.

Section Search.

Import EmbeddingService EmbeddingSearch.

Lemma insert_sorted_permutation {A} (compare : A -> A -> float) x sorted :
  Permutation (insert_sorted compare x sorted) (x :: sorted).
Proof.
  induction sorted as [|y rest IH]; simpl; [reflexivity|].
  destruct (compare x y <? 0)%float; [reflexivity|].
  rewrite IH. apply perm_swap.
Qed.

(** Sorting rearranges the array: nothing is lost, added or repeated. *)
Lemma sort_permutation {A} (compare : A -> A -> float) xs :
  Permutation (sort compare xs) xs.
Proof.
  unfold sort.
  assert (H : forall acc,
             Permutation
               (fold_left (fun sorted x => insert_sorted compare x sorted)
                          xs acc)
               (acc ++ xs)).
  { induction xs as [|x xs IH]; intros acc; simpl.
    - rewrite app_nil_r. reflexivity.
    - rewrite IH, insert_sorted_permutation.
      change (x :: acc) with ([x] ++ acc).
      rewrite (Permutation_app_comm [x] acc), <- app_assoc. reflexivity. }
  apply (H []).
Qed.

(** The entries built for the candidates: one per candidate, at its index. *)
Lemma similarities_spec (texts : list jsstring) (q : list float)
      (embeddings : list (list float)) (offset : nat) sims :
  all_or_first_error
    (imap (fun i embedding =>
             match cosineSimilarity q embedding with
             | inl e => inl e
             | inr s => inr {| sim_text := texts !! (offset + i);
                               similarity := s;
                               index := offset + i |}
             end) embeddings) = inr sims ->
  map index sims = seq offset (length embeddings)
  /\ forall r, In r sims ->
       sim_text r = texts !! index r
       /\ exists embedding,
            embeddings !! (index r - offset) = Some embedding
            /\ offset <= index r
            /\ cosineSimilarity q embedding = inr (similarity r).
Proof.
  revert offset sims.
  induction embeddings as [|embedding embeddings IH]; intros offset sims;
    simpl.
  - intros [= <-]. split; [reflexivity | intros r []].
  - destruct (cosineSimilarity q embedding) as [e | s] eqn:Hcos;
      [discriminate|].
    destruct (all_or_first_error _) as [e | rest] eqn:Hrest; [discriminate|].
    intros [= <-].
    assert (Hrest' :
              all_or_first_error
                (imap (fun i embedding0 =>
                         match cosineSimilarity q embedding0 with
                         | inl e => inl e
                         | inr s0 =>
                             inr {| sim_text := texts !! (S offset + i);
                                    similarity := s0;
                                    index := S offset + i |}
                         end) embeddings) = inr rest).
    { rewrite <- Hrest. f_equal. apply imap_ext. intros i x _. simpl.
      replace (offset + S i) with (S (offset + i)) by lia. reflexivity. }
    destruct (IH (S offset) rest Hrest') as [Hidx Hall].
    split.
    + simpl. rewrite Nat.add_0_r. f_equal. exact Hidx.
    + intros r [<- | Hr].
      * simpl. rewrite Nat.add_0_r. split; [reflexivity|].
        exists embedding. rewrite Nat.sub_diag. auto.
      * destruct (Hall r Hr) as (Ht & emb & Hemb & Hle & Hc).
        split; [exact Ht|]. exists emb.
        replace (index r - offset) with (S (index r - S offset)) by lia.
        simpl. repeat split; [exact Hemb | lia | exact Hc].
Qed.

End Search.

(** X21. When [findSimilar] returns, it returns [topK] results (five when
    [topK] is left out), or as many as there are candidates if these are
    fewer; the results are entries of pairwise distinct candidates, each with
    the text of the candidate at its index and with the cosine similarity of
    the embedding of the query and the embedding of that text. *)
Theorem findSimilar_results :
  forall (model : jsstring -> result (list float))
         (queryText : jsstring) (candidateTexts : list jsstring)
         (topK : option nat) (results : list EmbeddingSearch.Similarity),
    EmbeddingSearch.findSimilar model queryText candidateTexts topK
    = inr results ->
    length results
    = Nat.min (match topK with Some k => k | None => 5 end)
              (length candidateTexts)
    /\ NoDup (map EmbeddingSearch.index results)
    /\ forall r, In r results ->
         exists text q e,
           candidateTexts !! r.(EmbeddingSearch.index) = Some text
           /\ r.(EmbeddingSearch.sim_text) = Some text
           /\ EmbeddingService.generateEmbedding model queryText = inr q
           /\ EmbeddingService.generateEmbedding model text = inr e
           /\ EmbeddingService.cosineSimilarity q e
              = inr r.(EmbeddingSearch.similarity).
Proof.
  intros model queryText candidateTexts topK results.
  unfold EmbeddingSearch.findSimilar.
  set (k := match topK with Some k => k | None => 5 end).
  destruct (EmbeddingService.generateEmbedding model queryText)
    as [e | q] eqn:Hq; [discriminate|].
  rewrite generateEmbeddingsBatch_all.
  destruct (EmbeddingSearch.all_or_first_error
              (map (EmbeddingService.generateEmbedding model) candidateTexts))
    as [e | embeddings] eqn:Hbatch; [discriminate|].
  apply all_or_first_error_values in Hbatch.
  match goal with
  | |- context [EmbeddingSearch.all_or_first_error (imap ?f embeddings)] =>
      destruct (EmbeddingSearch.all_or_first_error (imap f embeddings))
        as [e | sims] eqn:Hsims; [discriminate|]
  end.
  intros [= <-].
  destruct (similarities_spec candidateTexts q embeddings 0 sims Hsims)
    as [Hidx Hall].
  assert (Hlen : length embeddings = length candidateTexts).
  { apply (f_equal (@length _)) in Hbatch. rewrite !length_map in Hbatch.
    lia. }
  pose proof (sort_permutation EmbeddingSearch.descending sims) as Hperm.
  split; [|split].
  - rewrite length_take, (Permutation_length Hperm).
    apply (f_equal (@length _)) in Hidx.
    rewrite length_map, length_seq in Hidx. lia.
  - change (map EmbeddingSearch.index
                (take k (EmbeddingSearch.sort EmbeddingSearch.descending sims)))
      with (EmbeddingSearch.index
              <$> take k (EmbeddingSearch.sort EmbeddingSearch.descending sims)).
    rewrite fmap_take.
    eapply sublist_NoDup; [|apply sublist_take].
    rewrite Hperm.
    change (EmbeddingSearch.index <$> sims)
      with (map EmbeddingSearch.index sims).
    rewrite Hidx. apply NoDup_seq.
  - intros r Hr.
    assert (Hin : In r sims).
    { apply list_elem_of_In. apply list_elem_of_In in Hr.
      apply subseteq_take in Hr. rewrite Hperm in Hr. exact Hr. }
    destruct (Hall r Hin) as (Ht & emb & Hemb & _ & Hcos).
    rewrite Nat.sub_0_r in Hemb.
    assert (Hlookup : (map (EmbeddingService.generateEmbedding model)
                           candidateTexts) !! EmbeddingSearch.index r
                      = Some (inr emb)).
    { rewrite Hbatch. rewrite list_lookup_fmap, Hemb. reflexivity. }
    rewrite list_lookup_fmap in Hlookup.
    destruct (candidateTexts !! EmbeddingSearch.index r) as [text|] eqn:Etext;
      [|discriminate].
    simpl in Hlookup. injection Hlookup as Hgen.
    exists text, q, emb. repeat split; assumption.
Qed.

(** X21 with the model of [Samples.sample_env]: the two best of three
    candidates. *)
Lemma findSimilar_results_witness :
  exists results,
    EmbeddingSearch.findSimilar Cases.sample_model (Samples.paragraph 0)
      Cases.candidates (Some 2) = inr results
    /\ length results = 2
    /\ map EmbeddingSearch.index results = [0; 1].
Proof.
  destruct (EmbeddingSearch.findSimilar Cases.sample_model
              (Samples.paragraph 0) Cases.candidates (Some 2))
    as [e | results] eqn:E; [vm_compute in E; discriminate|].
  exists results. split; [reflexivity|].
  destruct (findSimilar_results Cases.sample_model (Samples.paragraph 0)
              Cases.candidates (Some 2) results E) as (Hlen & _ & _).
  split; [exact Hlen|].
  vm_compute in E. injection E as <-. reflexivity.
Defined.

(** ** Enqueueing a contract *)

Lemma queueContractExtraction_success
      (Details : Type) (insert_job_error : N -> option Error)
      (add_error : QueueService.JobData -> option Error)
      (contractId userId : N) (filePath fileType : jsstring)
      (st st' : JobQueue.Store Details) (queued : JobQueue.Queued) :
  JobQueue.queueContractExtraction Details insert_job_error add_error
    contractId filePath fileType userId st = (inr queued, st') ->
  let jobId := JobQueue.next_job_id Details st in
  let data := {| QueueService.contractId := contractId;
                 QueueService.filePath := filePath;
                 QueueService.fileType := fileType;
                 QueueService.userId := userId;
                 QueueService.jobId := jobId |} in
  JobQueue.getJobStatus Details jobId st = None
  /\ queued = {| JobQueue.queued_jobId := jobId;
                 JobQueue.queueJobId := JobQueue.next_bull_id Details st |}
  /\ st' = {| JobQueue.database :=
                {| QueueService.contracts :=
                     QueueService.contracts Details
                       (JobQueue.database Details st);
                   QueueService.processing_jobs :=
                     <[jobId := JobQueue.pending_row]>
                       (QueueService.processing_jobs Details
                          (JobQueue.database Details st));
                   QueueService.clauses :=
                     QueueService.clauses Details
                       (JobQueue.database Details st) |};
              JobQueue.next_job_id := (jobId + 1)%N;
              JobQueue.bull :=
                JobQueue.bull Details st
                ++ [ {| JobQueue.queued_id := JobQueue.next_bull_id Details st;
                        JobQueue.queued_name := "extract-text";
                        JobQueue.queued_data := data;
                        JobQueue.queued_opts := JobQueue.extraction_options |} ];
              JobQueue.next_bull_id :=
                (JobQueue.next_bull_id Details st + 1)%N |}.
Proof.
  intros H jobId data. subst jobId data.
  unfold JobQueue.queueContractExtraction, JobQueue.insert_job,
    JobQueue.queue_add, JobQueue.getJobStatus in *.
  destruct (insert_job_error contractId); [discriminate|].
  destruct (QueueService.processing_jobs Details (JobQueue.database Details st)
              !! JobQueue.next_job_id Details st) eqn:El; [discriminate|].
  cbn [JobQueue.next_job_id JobQueue.next_bull_id JobQueue.bull
       JobQueue.database] in H.
  destruct (add_error _); [discriminate|].
  injection H as <- <-. repeat split.
Qed.

(** X22. When the database accepts the job, the next identifier of the
    sequence is free and the queue accepts the payload,
    [queueContractExtraction] returns that identifier with the identifier of
    the queued job, leaves a pending row without error or result under it,
    appends to the queue one job named extract-text that carries the
    arguments and the identifier with three attempts and an exponential
    backoff of 2000, and changes no other job, no contract and no clause. *)
Theorem queueContractExtraction_enqueues :
  forall (Details : Type) (insert_job_error : N -> option Error)
         (add_error : QueueService.JobData -> option Error)
         (contractId userId : N) (filePath fileType : jsstring)
         (st : JobQueue.Store Details),
    insert_job_error contractId = None ->
    JobQueue.getJobStatus Details (JobQueue.next_job_id Details st) st
    = None ->
    add_error {| QueueService.contractId := contractId;
                 QueueService.filePath := filePath;
                 QueueService.fileType := fileType;
                 QueueService.userId := userId;
                 QueueService.jobId := JobQueue.next_job_id Details st |}
    = None ->
    exists st',
      JobQueue.queueContractExtraction Details insert_job_error add_error
        contractId filePath fileType userId st
      = (inr {| JobQueue.queued_jobId := JobQueue.next_job_id Details st;
                JobQueue.queueJobId := JobQueue.next_bull_id Details st |},
         st')
      /\ JobQueue.getJobStatus Details (JobQueue.next_job_id Details st) st'
         = Some {| QueueService.jb_status := QueueService.job_pending;
                   QueueService.jb_error := None;
                   QueueService.jb_result := None |}
      /\ (forall id, id <> JobQueue.next_job_id Details st ->
            JobQueue.getJobStatus Details id st'
            = JobQueue.getJobStatus Details id st)
      /\ JobQueue.bull Details st'
         = JobQueue.bull Details st
           ++ [ {| JobQueue.queued_id := JobQueue.next_bull_id Details st;
                   JobQueue.queued_name := "extract-text";
                   JobQueue.queued_data :=
                     {| QueueService.contractId := contractId;
                        QueueService.filePath := filePath;
                        QueueService.fileType := fileType;
                        QueueService.userId := userId;
                        QueueService.jobId := JobQueue.next_job_id Details st |};
                   JobQueue.queued_opts :=
                     {| JobQueue.attempts := 3;
                        JobQueue.backoff_type := "exponential";
                        JobQueue.backoff_delay := 2000;
                        JobQueue.removeOnComplete := false;
                        JobQueue.removeOnFail := false |} |} ]
      /\ QueueService.contracts Details (JobQueue.database Details st')
         = QueueService.contracts Details (JobQueue.database Details st)
      /\ QueueService.clauses Details (JobQueue.database Details st')
         = QueueService.clauses Details (JobQueue.database Details st).
Proof.
  intros Details insert_job_error add_error contractId userId filePath
    fileType st Hins Hfree Hadd.
  unfold JobQueue.queueContractExtraction, JobQueue.insert_job,
    JobQueue.queue_add.
  unfold JobQueue.getJobStatus in Hfree.
  rewrite Hins, Hfree.
  cbn [JobQueue.next_job_id JobQueue.next_bull_id JobQueue.bull
       JobQueue.database].
  rewrite Hadd.
  eexists. split; [reflexivity|].
  unfold JobQueue.getJobStatus.
  cbn [JobQueue.database JobQueue.bull QueueService.processing_jobs
       QueueService.contracts QueueService.clauses].
  split; [apply lookup_insert_eq|].
  split; [intros id Hid; apply lookup_insert_ne; congruence|].
  repeat split.
Qed.

(** X22 on [Cases.sample_store]: the job takes the identifier 4 and the
    queued job the identifier 1. *)
Lemma queueContractExtraction_enqueues_witness :
  exists st',
    JobQueue.queueContractExtraction unit Cases.accepts_job
      Cases.accepts_payload 1 (lit "uploads/contract.pdf")
      (lit "application/pdf") 7 Cases.sample_store
    = (inr {| JobQueue.queued_jobId := 4; JobQueue.queueJobId := 1 |}, st')
    /\ JobQueue.getJobStatus unit 4 st' = Some Samples.pending_job
    /\ length (JobQueue.bull unit st') = 1.
Proof.
  destruct (queueContractExtraction_enqueues unit Cases.accepts_job
              Cases.accepts_payload 1 7 (lit "uploads/contract.pdf")
              (lit "application/pdf") Cases.sample_store)
    as (st' & Hrun & Hrow & _ & Hbull & _);
    [reflexivity | reflexivity | reflexivity |].
  exists st'. split; [exact Hrun|]. split; [exact Hrow|].
  rewrite Hbull. reflexivity.
Defined.

(** X23. When the queue refuses the payload after the database accepted the
    job, [queueContractExtraction] throws the error of the queue, and the
    row it inserted stays in the table, pending, with nothing added to the
    queue for it. *)
Theorem queueContractExtraction_queue_failure_leaves_row :
  forall (Details : Type) (insert_job_error : N -> option Error)
         (add_error : QueueService.JobData -> option Error)
         (contractId userId : N) (filePath fileType : jsstring)
         (st : JobQueue.Store Details) (e : Error),
    insert_job_error contractId = None ->
    JobQueue.getJobStatus Details (JobQueue.next_job_id Details st) st
    = None ->
    add_error {| QueueService.contractId := contractId;
                 QueueService.filePath := filePath;
                 QueueService.fileType := fileType;
                 QueueService.userId := userId;
                 QueueService.jobId := JobQueue.next_job_id Details st |}
    = Some e ->
    exists st',
      JobQueue.queueContractExtraction Details insert_job_error add_error
        contractId filePath fileType userId st
      = (inl e, st')
      /\ JobQueue.getJobStatus Details (JobQueue.next_job_id Details st) st'
         = Some {| QueueService.jb_status := QueueService.job_pending;
                   QueueService.jb_error := None;
                   QueueService.jb_result := None |}
      /\ JobQueue.bull Details st' = JobQueue.bull Details st.
Proof.
  intros Details insert_job_error add_error contractId userId filePath
    fileType st e Hins Hfree Hadd.
  unfold JobQueue.queueContractExtraction, JobQueue.insert_job,
    JobQueue.queue_add.
  unfold JobQueue.getJobStatus in Hfree.
  rewrite Hins, Hfree.
  cbn [JobQueue.next_job_id JobQueue.next_bull_id JobQueue.bull
       JobQueue.database].
  rewrite Hadd.
  eexists. split; [reflexivity|].
  unfold JobQueue.getJobStatus.
  cbn [JobQueue.database JobQueue.bull QueueService.processing_jobs].
  split; [apply lookup_insert_eq | reflexivity].
Qed.

(** X23 on [Cases.sample_store] with an unreachable queue. *)
Lemma queueContractExtraction_queue_failure_leaves_row_witness :
  exists st',
    JobQueue.queueContractExtraction unit Cases.accepts_job Cases.redis_down
      1 (lit "uploads/contract.pdf") (lit "application/pdf") 7
      Cases.sample_store
    = (inl (mkError (lit "connect ECONNREFUSED 127.0.0.1:6379")), st')
    /\ JobQueue.getJobStatus unit 4 st' = Some Samples.pending_job
    /\ JobQueue.bull unit st' = [].
Proof.
  destruct (queueContractExtraction_queue_failure_leaves_row unit
              Cases.accepts_job Cases.redis_down 1 7
              (lit "uploads/contract.pdf") (lit "application/pdf")
              Cases.sample_store
              (mkError (lit "connect ECONNREFUSED 127.0.0.1:6379")))
    as (st' & Hrun & Hrow & Hbull);
    [reflexivity | reflexivity | reflexivity |].
  exists st'. split; [exact Hrun|]. split; [exact Hrow | exact Hbull].
Defined.

(** X24. Enqueueing and processing compose: when [queueContractExtraction]
    succeeds for an existing contract, the processor run on the payload of
    the last job of the queue settles the job under the returned
    identifier. If the run returns, the job is completed, with the result
    and without an error, and the contract is analyzed; if the run throws,
    the job is failed, with the message of the error and without a result,
    and the contract is failed. *)
Theorem queued_job_processes_to_completion :
  forall (Details : Type) (env : QueueService.Collaborators Details)
         (insert_job_error : N -> option Error)
         (add_error : QueueService.JobData -> option Error)
         (contractId userId : N) (filePath fileType : jsstring)
         (st st' : JobQueue.Store Details) (queued : JobQueue.Queued)
         (row : QueueService.ContractRow Details),
    JobQueue.queueContractExtraction Details insert_job_error add_error
      contractId filePath fileType userId st = (inr queued, st') ->
    QueueService.contracts Details (JobQueue.database Details st)
      !! contractId = Some row ->
    exists job,
      last (JobQueue.bull Details st') = Some job
      /\ JobQueue.queued_id job = JobQueue.queueJobId queued
      /\ let outcome :=
           QueueService.process Details env (JobQueue.queued_data job)
             (JobQueue.database Details st') in
         match fst outcome with
         | inr r =>
             QueueService.ret_contractId Details r = contractId
             /\ (exists summary,
                    QueueService.processing_jobs Details (snd outcome)
                      !! JobQueue.queued_jobId queued
                    = Some {| QueueService.jb_status :=
                                QueueService.job_completed;
                              QueueService.jb_error := None;
                              QueueService.jb_result := Some summary |}
                    /\ QueueService.clauseCount summary
                       = QueueService.ret_clauseCount Details r)
             /\ QueueService.ct_status Details
                <$> QueueService.contracts Details (snd outcome)
                      !! contractId
                = Some QueueService.analyzed
         | inl error =>
             QueueService.processing_jobs Details (snd outcome)
               !! JobQueue.queued_jobId queued
             = Some {| QueueService.jb_status := QueueService.job_failed;
                       QueueService.jb_error := Some error.(error_message);
                       QueueService.jb_result := None |}
             /\ QueueService.ct_status Details
                <$> QueueService.contracts Details (snd outcome)
                      !! contractId
                = Some QueueService.failed
         end.
Proof.
  intros Details env insert_job_error add_error contractId userId filePath
    fileType st st' queued row Hq Hrow.
  destruct (queueContractExtraction_success Details insert_job_error
              add_error contractId userId filePath fileType st st' queued Hq)
    as (_ & -> & ->).
  cbn [JobQueue.bull JobQueue.database JobQueue.queued_jobId
       JobQueue.queueJobId].
  eexists. split; [apply last_snoc|].
  cbn [JobQueue.queued_id JobQueue.queued_data].
  split; [reflexivity|].
  cbv zeta.
  set (job := {| QueueService.contractId := contractId;
                 QueueService.filePath := filePath;
                 QueueService.fileType := fileType;
                 QueueService.userId := userId;
                 QueueService.jobId := JobQueue.next_job_id Details st |}).
  set (db := {| QueueService.contracts :=
                  QueueService.contracts Details
                    (JobQueue.database Details st);
                QueueService.processing_jobs :=
                  <[JobQueue.next_job_id Details st:=JobQueue.pending_row]>
                    (QueueService.processing_jobs Details
                       (JobQueue.database Details st));
                QueueService.clauses :=
                  QueueService.clauses Details
                    (JobQueue.database Details st) |}).
  assert (Hj : QueueService.processing_jobs Details db
                 !! QueueService.jobId job = Some JobQueue.pending_row).
  { subst db job. cbn [QueueService.processing_jobs QueueService.jobId].
    apply lookup_insert_eq. }
  assert (Hc : QueueService.contracts Details db
                 !! QueueService.contractId job = Some row).
  { subst db job. cbn [QueueService.contracts QueueService.contractId].
    exact Hrow. }
  pose proof (process_job_row env job db _ Hj) as Hj'.
  pose proof (process_contract_row env job db _ Hc) as Hc'.
  pose proof (process_cases env job db) as Hcases.
  change (QueueService.jobId job) with (JobQueue.next_job_id Details st)
    in Hj'.
  change (QueueService.contractId job) with contractId in Hc'.
  destruct (fst (QueueService.process Details env job db)) as [error | r]
    eqn:Hout.
  - split; [exact Hj' | exact Hc'].
  - destruct Hj' as (summary & Hrow' & _ & _ & Hcount).
    destruct Hc' as (contractText & Hcontract & _).
    split; [|split].
    + destruct Hcases
        as [(e & _ & E)
           | [(extraction & e & _ & _ & E)
             | (extraction & cs & _ & _ & E)]];
        rewrite E in Hout; cbn [fst] in Hout;
        [discriminate | discriminate |].
      injection Hout as <-. reflexivity.
    + exists summary. split; [exact Hrow' | exact Hcount].
    + rewrite Hcontract. reflexivity.
Qed.

(** X24 on [Cases.sample_store] with the collaborators of
    [Samples.sample_env]: the file holds ten clauses, the run throws and the
    job 4 ends failed. *)
Lemma queued_job_processes_to_completion_witness :
  exists st' job,
    JobQueue.queueContractExtraction unit Cases.accepts_job
      Cases.accepts_payload 1 (lit "uploads/contract.pdf")
      (lit "application/pdf") 7 Cases.sample_store
    = (inr {| JobQueue.queued_jobId := 4; JobQueue.queueJobId := 1 |}, st')
    /\ last (JobQueue.bull unit st') = Some job
    /\ QueueService.processing_jobs unit
         (snd (QueueService.process unit Samples.sample_env
                 (JobQueue.queued_data job) (JobQueue.database unit st')))
         !! 4%N
       = Some {| QueueService.jb_status := QueueService.job_failed;
                 QueueService.jb_error :=
                   Some (lit "doc.dates is not a function");
                 QueueService.jb_result := None |}.
Proof.
  destruct (JobQueue.queueContractExtraction unit Cases.accepts_job
              Cases.accepts_payload 1 (lit "uploads/contract.pdf")
              (lit "application/pdf") 7 Cases.sample_store)
    as [[e | queued] st'] eqn:E; [vm_compute in E; discriminate|].
  assert (Hqueued : queued = {| JobQueue.queued_jobId := 4;
                                JobQueue.queueJobId := 1 |}).
  { vm_compute in E. injection E as <- _. reflexivity. }
  destruct (queued_job_processes_to_completion unit Samples.sample_env
              Cases.accepts_job Cases.accepts_payload 1 7
              (lit "uploads/contract.pdf") (lit "application/pdf")
              Cases.sample_store st' queued Samples.uploaded_contract E)
    as (job & Hlast & _ & Hrun); [reflexivity|].
  exists st', job. rewrite Hqueued in *.
  split; [reflexivity|]. split; [exact Hlast|].
  cbv zeta in Hrun. cbn [JobQueue.queued_jobId] in Hrun.
  assert (Hjob : job = {| JobQueue.queued_id := 1;
                          JobQueue.queued_name := "extract-text";
                          JobQueue.queued_data :=
                            {| QueueService.contractId := 1;
                               QueueService.filePath :=
                                 lit "uploads/contract.pdf";
                               QueueService.fileType :=
                                 lit "application/pdf";
                               QueueService.userId := 7;
                               QueueService.jobId := 4 |};
                          JobQueue.queued_opts :=
                            JobQueue.extraction_options |}).
  { vm_compute in E. injection E as <-. vm_compute in Hlast.
    injection Hlast as <-. reflexivity. }
  destruct (fst (QueueService.process unit Samples.sample_env
                   (JobQueue.queued_data job) (JobQueue.database unit st')))
    as [error | r] eqn:Hout.
  - destruct Hrun as [Hrow _]. rewrite Hrow.
    assert (Herr : error = Samples.dates_error).
    { vm_compute in E. injection E as <-. rewrite Hjob in Hout.
      vm_compute in Hout. injection Hout as <-. reflexivity. }
    rewrite Herr. reflexivity.
  - exfalso. vm_compute in E. injection E as <-. rewrite Hjob in Hout.
    vm_compute in Hout. discriminate.
Defined.

(** ** The sweep of the old jobs *)

Lemma swept_spec (now : Z) (job : JobQueue.TimedJob) :
  JobQueue.swept now job = true
  <-> (JobQueue.timed_status job = QueueService.job_completed
       \/ JobQueue.timed_status job = QueueService.job_failed)
      /\ exists t, JobQueue.completed_at job = Some t
                   /\ (t < now - 604800)%Z.
Proof.
  unfold JobQueue.swept, JobQueue.SEVEN_DAYS.
  change (7 * 24 * 3600)%Z with 604800%Z.
  destruct (JobQueue.timed_status job), (JobQueue.completed_at job) as [t|];
    rewrite ?Z.ltb_lt; split;
    try discriminate;
    try (intros [[?|?] _]; discriminate);
    try (intros [_ (? & ? & _)]; discriminate).
  - intros H. split; [left; reflexivity|]. exists t. split; [reflexivity|lia].
  - intros [_ (t' & [= ->] & H)]. exact H.
  - intros H. split; [right; reflexivity|]. exists t. split; [reflexivity|lia].
  - intros [_ (t' & [= ->] & H)]. exact H.
Qed.

Lemma swept_monotone (now now' : Z) (job : JobQueue.TimedJob) :
  (now' <= now)%Z ->
  JobQueue.swept now job = false -> JobQueue.swept now' job = false.
Proof.
  intros Hle H.
  destruct (JobQueue.swept now' job) eqn:E; [|reflexivity].
  apply swept_spec in E. destruct E as (Hs & t & Ht & Hlt).
  assert (Hold : JobQueue.swept now job = true).
  { apply swept_spec. split; [exact Hs|]. exists t. split; [exact Ht|lia]. }
  congruence.
Qed.

Lemma cleanupOldJobs_partition (now : Z) (jobs : gmap N JobQueue.TimedJob) :
  size jobs
  = fst (JobQueue.cleanupOldJobs now jobs)
    + size (snd (JobQueue.cleanupOldJobs now jobs)).
Proof.
  unfold JobQueue.cleanupOldJobs. cbn [fst snd].
  set (P := fun kv : N * JobQueue.TimedJob =>
              JobQueue.swept now (snd kv) = true).
  assert (Hext : filter (fun kv : N * JobQueue.TimedJob =>
                           JobQueue.swept now (snd kv) = false) jobs
                 = filter (fun kv => ~ P kv) jobs).
  { apply map_filter_ext. intros i x _. unfold P. cbn [snd].
    destruct (JobQueue.swept now x); split; congruence. }
  rewrite Hext.
  rewrite <- (map_size_disj_union _ _ (map_disjoint_filter_complement P jobs)).
  rewrite map_filter_union_complement. reflexivity.
Qed.

(** X25. [cleanupOldJobs] deletes exactly the jobs that are completed or
    failed and whose completion time lies more than seven days (604800
    seconds) before the current time: such a row is gone, every other row,
    among them every pending or running job and every job without a
    completion time, is left as it was, no row appears, and the count
    returned is the number of rows that went. *)
Theorem cleanupOldJobs_deletes_old_finished_jobs_only :
  forall (now : Z) (jobs : gmap N JobQueue.TimedJob),
    let rowCount := fst (JobQueue.cleanupOldJobs now jobs) in
    let left := snd (JobQueue.cleanupOldJobs now jobs) in
    size jobs = rowCount + size left
    /\ (forall id job,
          jobs !! id = Some job ->
          (left !! id = None
           <-> (JobQueue.timed_status job = QueueService.job_completed
                \/ JobQueue.timed_status job = QueueService.job_failed)
               /\ exists t, JobQueue.completed_at job = Some t
                            /\ (t < now - 604800)%Z)
          /\ (left !! id = None \/ left !! id = Some job))
    /\ (forall id, jobs !! id = None -> left !! id = None).
Proof.
  intros now jobs rowCount left.
  split; [apply cleanupOldJobs_partition|].
  subst rowCount left. unfold JobQueue.cleanupOldJobs. cbn [fst snd].
  split.
  - intros id job Hjob.
    destruct (JobQueue.swept now job) eqn:E.
    + assert (Hnone : filter (fun kv : N * JobQueue.TimedJob =>
                                JobQueue.swept now (snd kv) = false) jobs
                        !! id = None).
      { apply map_lookup_filter_None. right. intros x Hx. cbn [snd].
        rewrite Hjob in Hx. injection Hx as <-. congruence. }
      split; [|left; exact Hnone].
      split; [intros _; apply swept_spec; exact E | intros _; exact Hnone].
    + assert (Hsome : filter (fun kv : N * JobQueue.TimedJob =>
                                JobQueue.swept now (snd kv) = false) jobs
                        !! id = Some job).
      { apply map_lookup_filter_Some. split; [exact Hjob | exact E]. }
      split; [|right; exact Hsome].
      rewrite Hsome. split; [discriminate|].
      intros H. apply swept_spec in H. congruence.
  - intros id Hid. apply map_lookup_filter_None. left. exact Hid.
Qed.

(** X26. A second sweep at the same or an earlier time deletes nothing: it
    returns 0 and leaves the table as the first sweep left it. *)
Theorem cleanupOldJobs_again_deletes_nothing :
  forall (now now' : Z) (jobs : gmap N JobQueue.TimedJob),
    (now' <= now)%Z ->
    JobQueue.cleanupOldJobs now' (snd (JobQueue.cleanupOldJobs now jobs))
    = (0, snd (JobQueue.cleanupOldJobs now jobs)).
Proof.
  intros now now' jobs Hle.
  pose proof (cleanupOldJobs_partition now'
                (snd (JobQueue.cleanupOldJobs now jobs))) as Hsize.
  assert (Hleft : snd (JobQueue.cleanupOldJobs now'
                         (snd (JobQueue.cleanupOldJobs now jobs)))
                  = snd (JobQueue.cleanupOldJobs now jobs)).
  { unfold JobQueue.cleanupOldJobs. cbn [snd].
    apply map_filter_id. intros i x Hx. cbn [snd].
    apply map_lookup_filter_Some in Hx. destruct Hx as [_ Hx].
    cbn [snd] in Hx. apply (swept_monotone now now' x Hle Hx). }
  rewrite Hleft in Hsize.
  destruct (JobQueue.cleanupOldJobs now'
              (snd (JobQueue.cleanupOldJobs now jobs))) as [n left].
  cbn [fst snd] in *. subst left. f_equal. lia.
Qed.

(** X26 on [Cases.sample_jobs]: the first sweep deletes two jobs of five,
    the second none. *)
Lemma cleanupOldJobs_again_deletes_nothing_witness :
  fst (JobQueue.cleanupOldJobs 1000000 Cases.sample_jobs) = 2
  /\ size (snd (JobQueue.cleanupOldJobs 1000000 Cases.sample_jobs)) = 3
  /\ JobQueue.cleanupOldJobs 1000000
       (snd (JobQueue.cleanupOldJobs 1000000 Cases.sample_jobs))
     = (0, snd (JobQueue.cleanupOldJobs 1000000 Cases.sample_jobs)).
Proof.
  split; [vm_compute; reflexivity|].
  split; [vm_compute; reflexivity|].
  apply (cleanupOldJobs_again_deletes_nothing 1000000 1000000
           Cases.sample_jobs).
  lia.
Defined.
